(** * Terminal Typewriter: pagination, text layout and export

    A shallow embedding of the paginated document model of
    [src/main.js] together with its layout and export routines:
    [wrapText], [checkPageOverflow], [createNewPage], [navigateToPage],
    [getEditorText], [createDocumentCanvas] and [savePNG].

    Conventions of the embedding.
    - A JavaScript string is the list of its UTF-16 code units.
    - A JavaScript number is a rational; the widths and heights handled
      here are compared, added and scaled, never tested for rounding.
    - The DOM below a page editor is a flat sequence of blocks
      ([div.line] and [div.image-line]); the pages array and the index of
      the active page are passed explicitly.
    - Collaborators (layout geometry, text metrics, the random source,
      dialogs and the file system) are parameters of the definitions. *)

From Stdlib Require Import QArith Qround Qminmax Lqa DecimalString.
From stdpp Require Import base list strings gmap.

Set Default Proof Using "Type".

(* ===================================================================== *)
(** * Part I: the program                                                 *)
(* ===================================================================== *)

(** ** JavaScript strings *)

Definition char := N.
Definition jsstring := list char.

(** String literals of the source, as code units. *)
Definition js (s : string) : jsstring :=
  map Ascii.N_of_ascii (String.list_ascii_of_string s).

Definition SPACE : char := 32%N.

(** A string is truthy when it is not the empty string. *)
Definition truthy (s : jsstring) : bool :=
  match s with [] => false | _ :: _ => true end.

(** [String.prototype.split] with a one-unit separator. *)
Fixpoint split (sep : char) (s : jsstring) : list jsstring :=
  match s with
  | [] => [[]]
  | c :: s' =>
      if N.eqb c sep then [] :: split sep s'
      else match split sep s' with
           | w :: ws => (c :: w) :: ws
           | [] => [[c]]
           end
  end.

(** ECMAScript WhiteSpace and LineTerminator code units, the set that
    [trim] and [trimEnd] strip. *)
Definition is_whitespace (c : char) : bool :=
  ((9 <=? c) && (c <=? 13) || (c =? 32) || (c =? 160) || (c =? 5760)
   || (8192 <=? c) && (c <=? 8202) || (c =? 8232) || (c =? 8233)
   || (c =? 8239) || (c =? 8287) || (c =? 12288) || (c =? 65279))%N.

Fixpoint trimStart (s : jsstring) : jsstring :=
  match s with
  | [] => []
  | c :: s' => if is_whitespace c then trimStart s' else s
  end.

Definition trimEnd (s : jsstring) : jsstring :=
  rev (trimStart (rev s)).

Definition trim (s : jsstring) : jsstring :=
  trimEnd (trimStart s).

(** Number-to-string conversion of a non-negative integer. *)
Definition decimal (n : nat) : jsstring :=
  js (NilEmpty.string_of_uint (Nat.to_uint n)).

(** ** Text layout: [wrapText] *)

(** [a > b] on numbers. *)
Definition gtb (a b : Q) : bool := negb (Qle_bool a b).

Section WrapText.

(** [ctx.measureText(s).width] for the font currently set on [ctx]. *)
Variable measureText : jsstring -> Q.
Variable maxWidth : Q.

(** One iteration of the character loop that breaks a long word. *)
Definition breakChar (st : list jsstring * jsstring) (c : char)
  : list jsstring * jsstring :=
  let '(lines, chunk) := st in
  let testChunk := chunk ++ [c] in
  if gtb (measureText testChunk) maxWidth && truthy chunk
  then (lines ++ [chunk], [c])
  else (lines, testChunk).

(** The body of [words.forEach], on the pair [(lines, currentLine)]. *)
Definition wrapWord (st : list jsstring * jsstring) (word : jsstring)
  : list jsstring * jsstring :=
  let '(lines, currentLine) := st in
  if gtb (measureText word) maxWidth then
    let lines := if truthy currentLine then lines ++ [currentLine] else lines in
    fold_left breakChar word (lines, [])
  else
    let testLine :=
      if truthy currentLine then currentLine ++ [SPACE] ++ word else word in
    if gtb (measureText testLine) maxWidth && truthy currentLine
    then (lines ++ [currentLine], word)
    else (lines, testLine).

Definition wrapText (text : jsstring) : list jsstring :=
  if negb (truthy text) then []
  else
    let '(lines, currentLine) := fold_left wrapWord (split SPACE text) ([], []) in
    if truthy currentLine then lines ++ [currentLine] else lines.

End WrapText.

(** The invariant of the two loops of [wrapText], for a property [P] of
    lines: [P] holds of the lines pushed so far and of the line being
    built, unless that one is still empty. *)
Definition wrap_inv (P : jsstring -> Prop) (st : list jsstring * jsstring) : Prop :=
  Forall P st.1 /\ (st.2 = [] \/ P st.2).

(** ** The document: pages, blocks and the caret *)

(** A text node or an inline [span] of a line; [run_font] is the
    [data-font] of the span, absent for a bare text node. *)
Record Run := mkRun { run_font : option string; run_text : jsstring }.

(** The [img] element of an image block. *)
Record Image := mkImage {
  naturalWidth : N;
  naturalHeight : N;
  width : N;
  height : N;
  newspaper_filter : bool
}.

(** The two kinds of children of a page editor: [div.line], carrying the
    [data-font] of the line and its runs, and [div.image-line]. *)
Inductive Element :=
| LineDiv (font : option string) (runs : list Run)
| ImageDiv (img : option Image).

(** A block is an element together with the fact whether the start of
    the current selection lies inside it. *)
Record Block := mkBlock { element : Element; caret : bool }.

(** The children of a [.page-editor], in document order. *)
Abbreviation Page := (list Block).

(** The module-level state: the [pages] array, [currentPageIndex] and the
    font of [state.font]. *)
Record Doc := mkDoc {
  pages : list Page;
  currentPageIndex : nat;
  state_font : string
}.

Definition is_line (b : Block) : bool :=
  match element b with LineDiv _ _ => true | ImageDiv _ => false end.

Definition is_image_line (b : Block) : bool :=
  match element b with LineDiv _ _ => false | ImageDiv _ => true end.

(** The text of the filter button inside an image block, U+1F4F0. *)
Definition FILTER_BUTTON_TEXT : jsstring := [55357%N; 56560%N].

(** [node.textContent] of a block and of an editor. *)
Definition textContent (b : Block) : jsstring :=
  match element b with
  | LineDiv _ runs => concat (map run_text runs)
  | ImageDiv _ => FILTER_BUTTON_TEXT
  end.

Definition editorTextContent (editor : Page) : jsstring :=
  concat (map textContent editor).

(** [!line.textContent.trim()] *)
Definition blank (b : Block) : bool := negb (truthy (trim (textContent b))).

(** The line that [createNewPage], [clearAllPages] and [createNewLine]
    create: no content, the current font, no selection inside. *)
Definition newLine (font : string) : Block :=
  mkBlock (LineDiv (Some font) []) false.

(** ** The overflow controller *)

Definition MAX_PAGE_HEIGHT : Z := 1200.

Definition getCurrentEditor (d : Doc) : option Page :=
  pages d !! currentPageIndex d.

Definition createNewPage (d : Doc) : Doc :=
  mkDoc (pages d ++ [[newLine (state_font d)]]) (currentPageIndex d) (state_font d).

(** [navigateToPage(index)] as [checkPageOverflow] relies on it:
    out-of-range indices are ignored, the index is set. The function
    ends with a call of [focusCurrentPage], which moves the selection;
    [checkPageOverflow] puts the selection back into the moved element
    right after the call, so that the call leaves no trace there. The
    function with that call is [Navigation.navigateToPage] below. *)
Definition navigateToPage (index : Z) (d : Doc) : Doc :=
  if ((index <? 0) || (Z.of_nat (length (pages d)) <=? index))%Z then d
  else mkDoc (pages d) (Z.to_nat index) (state_font d).

(** [editor.querySelector('.line')]: the first line of an editor, with
    its position among the children. *)
Fixpoint querySelector_line (editor : Page) : option (nat * Block) :=
  match editor with
  | [] => None
  | b :: rest =>
      if is_line b then Some (0, b)
      else match querySelector_line rest with
           | Some (i, l) => Some (S i, l)
           | None => None
           end
  end.

Section Overflow.

(** [child.offsetHeight], as laid out by the browser. *)
Variable offsetHeight : Block -> Z.

(** The measured height of an editor, padding included. *)
Definition contentHeight (editor : Page) : Z :=
  fold_left (fun h child => h + offsetHeight child)%Z editor 0%Z + 80.

(** One run of [checkPageOverflow]. The boolean tells whether the run
    asked for another run on the next animation frame. *)
Definition checkPageOverflow (d : Doc) : Doc * bool :=
  match getCurrentEditor d with
  | None => (d, false)
  | Some editor =>
      if (MAX_PAGE_HEIGHT <? contentHeight editor)%Z then
        if length editor <=? 1 then (d, false)
        else
          match last editor with
          | None => (d, false)
          | Some lastElement =>
              let cursorInLastElement := caret lastElement in
              let d1 :=
                if currentPageIndex d =? length (pages d) - 1
                then createNewPage d else d in
              let next := S (currentPageIndex d) in
              match pages d1 !! next with
              | None => (d1, false)
              | Some nextEditor =>
                  let nextEditor :=
                    match querySelector_line nextEditor with
                    | Some (i, firstLineOfNext) =>
                        if blank firstLineOfNext
                        then delete i nextEditor else nextEditor
                    | None => nextEditor
                    end in
                  let moved :=
                    <[next := lastElement :: nextEditor]>
                      (<[currentPageIndex d := removelast editor]> (pages d1)) in
                  let d2 := mkDoc moved (currentPageIndex d1) (state_font d1) in
                  let d3 :=
                    if cursorInLastElement
                    then navigateToPage (Z.of_nat (currentPageIndex d2) + 1) d2
                    else d2 in
                  (d3, true)
              end
        end
      else (d, false)
  end.

(** The chain of runs started by one input event: each run that moved a
    block is followed by another one. *)
Fixpoint settle (frames : nat) (d : Doc) : option Doc :=
  match frames with
  | 0 => None
  | S frames =>
      let '(d', again) := checkPageOverflow d in
      if again then settle frames d' else Some d'
  end.

End Overflow.

(** ** The overflow step in the words of its description *)

(** Discarding the placeholder as the description states it: the first
    block of the next page goes when it is an empty line. *)
Definition discardPlaceholder (nextPage : Page) : Page :=
  match nextPage with
  | b :: rest => if is_line b && blank b then rest else nextPage
  | [] => []
  end.

(** Discarding the placeholder as the comment in the source states it:
    the first line of the next page goes when it is empty, wherever it
    stands among the image blocks. *)
Fixpoint discardFirstLineIfBlank (nextPage : Page) : Page :=
  match nextPage with
  | [] => []
  | b :: rest =>
      if is_line b then (if blank b then rest else nextPage)
      else b :: discardFirstLineIfBlank rest
  end.

(** The pages after the active one once a block has moved: the moved block in front of what the
    next page held, or alone on a page that had to be created. *)
Definition receive (lastElement : Block) (rest : list Page) : list Page :=
  match rest with
  | [] => [[lastElement]]
  | nextPage :: after => (lastElement :: discardFirstLineIfBlank nextPage) :: after
  end.

(** The number of blocks of a document, all pages together. *)
Definition total_blocks (ps : list Page) : nat := length (concat ps).

(** Whether a run of [checkPageOverflow] moves a block onto a page that
    exists already and whose first line is empty. *)
Definition drops_placeholder (offsetHeight : Block -> Z) (d : Doc) : bool :=
  match getCurrentEditor d, pages d !! S (currentPageIndex d) with
  | Some editor, Some nextPage =>
      (MAX_PAGE_HEIGHT <? contentHeight offsetHeight editor)%Z
      && (1 <? length editor)
      && match querySelector_line nextPage with
         | Some (_, firstLine) => blank firstLine
         | None => false
         end
  | _, _ => false
  end.

(** The blocks at or after the active page, squared, plus the blocks of
    the active page: the number that goes down with every run of
    [checkPageOverflow] that asks for another one. *)
Definition pending (d : Doc) : nat :=
  let ahead := length (concat (drop (currentPageIndex d) (pages d))) in
  ahead * ahead + length (default [] (getCurrentEditor d)).

(** Example blocks: a paragraph typed in the default font, with and
    without the caret, an empty line and an image. *)
Definition paragraph (text : string) : Block :=
  mkBlock (LineDiv (Some "special-elite") [mkRun None (js text)]) false.

Definition paragraphWithCaret (text : string) : Block :=
  mkBlock (LineDiv (Some "special-elite") [mkRun None (js text)]) true.

Definition emptyLine : Block := newLine "special-elite".

Definition picture : Block :=
  mkBlock (ImageDiv (Some (mkImage 640 480 640 480 false))) false.

(** ** Plain-text export *)

Definition LF : jsstring := [10%N].

Definition getEditorText (d : Doc) : jsstring :=
  let step (text : jsstring) (entry : nat * Page) : jsstring :=
    let '(pageIndex, page) := entry in
    let lines := List.filter is_line page in
    let text := fold_left (fun text line => text ++ textContent line ++ LF) lines text in
    if pageIndex <? length (pages d) - 1
    then text ++ (LF ++ js "--- Seite ") ++ decimal (pageIndex + 2) ++ (js " ---" ++ LF ++ LF)
    else text in
  trimEnd (fold_left step (imap pair (pages d)) []).

(** The export in the words of its description: the lines of every
    page, each followed by a line terminator, a separator naming the page
    that follows between consecutive pages, trailing whitespace trimmed.
    [label] is the word of the separator. *)
Definition pageLines (page : Page) : jsstring :=
  concat (map (fun line => textContent line ++ LF) (List.filter is_line page)).

Definition pageSeparator (label : string) (n : nat) : jsstring :=
  LF ++ js "--- " ++ js label ++ js " " ++ decimal n ++ js " ---" ++ LF ++ LF.

(** [n] is the 1-based number of the first of the pages [ps]. *)
Fixpoint joinPages (label : string) (n : nat) (ps : list Page) : jsstring :=
  match ps with
  | [] => []
  | page :: rest =>
      pageLines page ++
      match rest with
      | [] => []
      | _ :: _ => pageSeparator label (S n) ++ joinPages label (S n) rest
      end
  end.

Definition plainTextExport (label : string) (ps : list Page) : jsstring :=
  trimEnd (joinPages label 1 ps).

(** ** The canvas renderer *)

Record FontInfo := mkFontInfo { family : string; size : N }.

Definition fontMap : gmap string FontInfo :=
  list_to_map
    [ ("special-elite", mkFontInfo "Special Elite" 18);
      ("american-typewriter", mkFontInfo "American Typewriter" 17);
      ("adler", mkFontInfo "Adler" 22);
      ("remington", mkFontInfo "Remington" 20);
      ("1942", mkFontInfo "1942" 20);
      ("berlin-email", mkFontInfo "Berlin Email" 18);
      ("cutmeout", mkFontInfo "CutMeOut" 20);
      ("facets", mkFontInfo "Facets" 20);
      ("hofstaetten", mkFontInfo "Hofstaetten" 18);
      ("zent", mkFontInfo "Zent" 20) ].

(** [child.dataset.font || 'special-elite'] *)
Definition fontKeyOf (font : option string) : string :=
  match font with
  | Some (String c k) => String c k
  | Some EmptyString | None => "special-elite"
  end.

(** [fontMap[fontKey] || fontMap['special-elite']] for the keys that
    the font selector offers and for any other key that names no
    property of an object. (A key such as [toString], which every
    JavaScript object inherits, is found by the lookup of the code and
    takes no fallback; the font selector offers no such key.) *)
Definition fontInfoOf (fontKey : string) : FontInfo :=
  match fontMap !! fontKey with
  | Some info => info
  | None => default (mkFontInfo "Special Elite" 18) (fontMap !! "special-elite")
  end.

(** [a || b || c] on numbers: the first one that is not zero. *)
Definition firstNonZero (a b : N) (c : Q) : Q :=
  if negb (a =? 0)%N then inject_Z (Z.of_N a)
  else if negb (b =? 0)%N then inject_Z (Z.of_N b)
  else c.

Inductive RenderItem :=
| ItemImage (img : Image) (w h : Q) (hasNewspaperFilter : bool)
| ItemEmpty
| ItemText (text : jsstring) (font : FontInfo).

(** What the second pass puts on the canvas, in order. The paper
    texture is recorded by its number of pixels and the noise added to
    each of them, the frame by the index of the chosen style. *)
Inductive DrawOp :=
| FillBackground (w h : Q)
| PaperTexture (pixels : Z) (noise : nat -> Q)
| Frame (style : Z) (w h borderW padding : Q)
| FillText (text : jsstring) (font : FontInfo) (x y : Q)
| DrawImage (img : Image) (x y w h : Q) (filtered : bool)
| AgingEffect (w h : Q).

Record Canvas := mkCanvas {
  canvas_width : Z;
  canvas_height : Z;
  ops : list DrawOp
}.

Definition scale : Q := 2.
Definition pageWidth : Q := 800.
Definition marginX : Q := 60.
Definition marginTop : Q := 80.
Definition marginBottom : Q := 80.
Definition lineHeight : Q := 32.
Definition borderWidth : Q := 10.
Definition borderPadding : Q := 25.
Definition canvasMaxWidth : Q := pageWidth - marginX * 2.
Definition frameStyles_length : Q := 5.

Section Canvas.

Local Open Scope Q_scope.

(** [tempCtx.measureText(s).width] once [tempCtx.font] has been set from
    a font of the registry. *)
Variable measure : FontInfo -> jsstring -> Q.

(** The successive results of [Math.random()]. *)
Variable random : nat -> Q.

(** First pass, one child: the render data and the content height.
    Sizes are computed in exact arithmetic; the code computes them in
    double precision, so that a scaled size can differ from the exact
    product in its last digit. *)
Definition measureChild (acc : list RenderItem * Q) (child : Block)
  : list RenderItem * Q :=
  let '(renderData, totalContentHeight) := acc in
  match element child with
  | ImageDiv (Some img) =>
      let imgMaxWidth := canvasMaxWidth - 40 in
      let imgMaxHeight := 300 in
      let imgWidth := firstNonZero (naturalWidth img) (width img) 200 in
      let imgHeight := firstNonZero (naturalHeight img) (height img) 150 in
      let scale := Qmin (Qmin (imgMaxWidth / imgWidth) (imgMaxHeight / imgHeight)) 1 in
      let imgWidth := imgWidth * scale in
      let imgHeight := imgHeight * scale in
      (renderData ++ [ItemImage img imgWidth imgHeight (newspaper_filter img)],
       totalContentHeight + (imgHeight + 24))
  | ImageDiv None => (renderData, totalContentHeight)
  | LineDiv font _ =>
      let fontInfo := fontInfoOf (fontKeyOf font) in
      let text := textContent child in
      if negb (truthy (trim text)) then
        (renderData ++ [ItemEmpty], totalContentHeight + lineHeight)
      else
        let wrappedLines := wrapText (measure fontInfo) canvasMaxWidth text in
        let '(renderData, totalContentHeight) :=
          fold_left
            (fun acc wrappedLine =>
               (acc.1 ++ [ItemText wrappedLine fontInfo], acc.2 + lineHeight))
            wrappedLines (renderData, totalContentHeight) in
        if (length wrappedLines =? 0)%nat
        then (renderData, totalContentHeight + lineHeight)
        else (renderData, totalContentHeight)
  end.

Definition measurePass (editor : Page) : list RenderItem * Q :=
  fold_left measureChild editor ([], 0).

(** [pageHeight = marginTop + contentHeight + marginBottom] *)
Definition pageHeightOf (editor : Page) : Q :=
  marginTop + (measurePass editor).2 + marginBottom.

(** Second pass, one item: the drawing operations and [yPosition]. *)
Definition drawItem (acc : list DrawOp * Q) (item : RenderItem) : list DrawOp * Q :=
  let '(drawn, yPosition) := acc in
  match item with
  | ItemEmpty => (drawn, yPosition + lineHeight)
  | ItemText text font =>
      (drawn ++ [FillText text font marginX yPosition], yPosition + lineHeight)
  | ItemImage img w h hasNewspaperFilter =>
      let imgX := marginX + (canvasMaxWidth - w) / 2 in
      (drawn ++ [DrawImage img imgX (yPosition - lineHeight + 12) w h hasNewspaperFilter],
       yPosition + (h + 24))
  end.

(** [addPaperTexture]: one random number per pixel of the scaled canvas. *)
Definition addPaperTexture (w h : Q) : DrawOp :=
  PaperTexture (Qfloor (w * 2) * Qfloor (h * 2))%Z
               (fun i => (random i - (1 # 2)) * 8).

(** [drawCornerOrnaments]: the frame style drawn is picked by the random
    number that follows those of the texture. *)
Definition drawCornerOrnaments (used : nat) (w h borderW padding : Q) : DrawOp :=
  let randomIndex := Qfloor (random used * frameStyles_length) in
  Frame randomIndex w h borderW padding.

Definition createDocumentCanvas (editor : Page) : Canvas :=
  let renderData := (measurePass editor).1 in
  let pageHeight := pageHeightOf editor in
  let texture := addPaperTexture pageWidth pageHeight in
  let used :=
    match texture with PaperTexture pixels _ => Z.to_nat pixels | _ => 0%nat end in
  let content := (fold_left drawItem renderData ([], marginTop)).1 in
  mkCanvas (Qfloor (pageWidth * scale)) (Qfloor (pageHeight * scale))
    ([FillBackground pageWidth pageHeight; texture;
      drawCornerOrnaments used pageWidth pageHeight borderWidth borderPadding]
     ++ content ++ [AgingEffect pageWidth pageHeight]).

End Canvas.

(** The text and the images a canvas shows, with their positions: the
    drawing operations that come from the page content. *)
Definition is_content (op : DrawOp) : bool :=
  match op with
  | FillText _ _ _ _ | DrawImage _ _ _ _ _ _ => true
  | _ => false
  end.

Definition drawnContent (c : Canvas) : list DrawOp := List.filter is_content (ops c).

(** ** The PNG export *)

(** What a dialog of the host answers: a path, [null] when the user
    cancels, or a rejected promise. *)
Inductive Reply :=
| Chosen (path : jsstring)
| Cancelled
| Rejected.

(** The collaborators of one export: the two dialogs, the file system
    ([true]: the write succeeds, [false]: it throws) and the rendering
    of an editor to a PNG blob ([false]: it throws). *)
Record Collaborators := mkCollaborators {
  dialog_save : Reply;
  dialog_open : Reply;
  fs_writeFile : jsstring -> bool;
  render_ok : Page -> bool
}.

(** The calls an export makes, in the order it makes them. *)
Inductive Event :=
| CreateCanvas (editor : Page)
| SaveDialog (defaultPath : jsstring)
| OpenDialog
| WriteFile (filePath : jsstring) (editor : Page)
| ConsoleLog
| ConsoleError
| Download (name : jsstring) (editor : Page)
| SetTimeout (ms : nat).

(** Computations that append to the trace of calls and either return a
    value or throw. *)
Definition Exec (A : Type) : Type := list Event -> list Event * option A.

Definition ret {A} (a : A) : Exec A := fun tr => (tr, Some a).

Definition throw {A} : Exec A := fun tr => (tr, None).

Definition bind {A B} (c : Exec A) (k : A -> Exec B) : Exec B :=
  fun tr =>
    match c tr with
    | (tr', Some a) => k a tr'
    | (tr', None) => (tr', None)
    end.

Definition emit (e : Event) : Exec unit := fun tr => (tr ++ [e], Some tt).

(** [try { c } catch (e) { handler }] *)
Definition try_catch {A} (c : Exec A) (handler : Exec A) : Exec A :=
  fun tr =>
    match c tr with
    | (tr', Some a) => (tr', Some a)
    | (tr', None) => handler tr'
    end.

Notation "x <- c ;; k" := (bind c (fun x => k))
  (at level 100, c at next level, right associativity).
Notation "c ;;; k" := (bind c (fun _ => k))
  (at level 100, right associativity).

(** [for (let i = ...; i < items.length; i++) body(i, items[i])] *)
Fixpoint for_each {A} (body : nat -> A -> Exec unit) (i : nat) (items : list A)
  : Exec unit :=
  match items with
  | [] => ret tt
  | x :: rest => body i x ;;; for_each body (S i) rest
  end.

Section SavePNG.

Variable host : Collaborators.

(** [await createDocumentCanvas(editor)] followed by [canvas.toBlob] *)
Definition renderBlob (editor : Page) : Exec unit :=
  emit (CreateCanvas editor) ;;;
  if render_ok host editor then ret tt else throw.

(** A dialog call: the path, or [None] for a falsy answer. *)
Definition askDialog (e : Event) (r : Reply) : Exec (option jsstring) :=
  emit e ;;;
  match r with
  | Chosen path => ret (if truthy path then Some path else None)
  | Cancelled => ret None
  | Rejected => throw
  end.

Definition writeFile (filePath : jsstring) (editor : Page) : Exec unit :=
  emit (WriteFile filePath editor) ;;;
  if fs_writeFile host filePath then ret tt else throw.

(** The page filter of [savePNG]. *)
Definition hasContent (page : Page) : bool :=
  let text := trim (editorTextContent page) in
  let images := List.filter is_image_line page in
  (0 <? length text) || (0 <? length images).

Definition pageFileName (i : nat) : jsstring :=
  js "dokument_seite_" ++ decimal (i + 1) ++ js ".png".

(** The body of the outer [try]. *)
Definition saveViaDialog (pagesWithContent : list Page) : Exec unit :=
  if length pagesWithContent =? 1 then
    match pagesWithContent with
    | [] => throw
    | editor :: _ =>
        renderBlob editor ;;;
        filePath <- askDialog (SaveDialog (js "dokument.png")) (dialog_save host) ;;
        match filePath with
        | Some filePath => writeFile filePath editor ;;; emit ConsoleLog
        | None => ret tt
        end
    end
  else
    folderPath <- askDialog OpenDialog (dialog_open host) ;;
    match folderPath with
    | Some folderPath =>
        for_each
          (fun i editor =>
             renderBlob editor ;;;
             writeFile (folderPath ++ js "/" ++ pageFileName i) editor ;;;
             emit ConsoleLog)
          0 pagesWithContent ;;;
        emit ConsoleLog
    | None => ret tt
    end.

(** The body of the [catch]: a download per page, half a second apart. *)
Definition downloadAll (pagesWithContent : list Page) : Exec unit :=
  for_each
    (fun i editor =>
       renderBlob editor ;;;
       emit (Download (if length pagesWithContent =? 1
                       then js "dokument.png" else pageFileName i) editor) ;;;
       if i <? length pagesWithContent - 1 then emit (SetTimeout 500) else ret tt)
    0 pagesWithContent.

Definition savePNG (d : Doc) : Exec unit :=
  let pagesWithContent := List.filter hasContent (pages d) in
  if length pagesWithContent =? 0 then ret tt
  else
    try_catch (saveViaDialog pagesWithContent)
      (emit ConsoleError ;;;
       try_catch (downloadAll pagesWithContent) (emit ConsoleError)).

End SavePNG.

(** ** The PNG export in the words of its description *)

Definition has_text (s : jsstring) : bool :=
  existsb (fun c => negb (is_whitespace c)) s.

(** A page qualifies when one of its lines has text that is not
    whitespace, or when it holds an image. *)
Definition qualifies (page : Page) : bool :=
  existsb (fun b => is_line b && has_text (textContent b)) page
  || existsb is_image_line page.

(** The calls of an export of one page through the save dialog. *)
Definition singleSaveTrace (editor : Page) (filePath : jsstring) : list Event :=
  [CreateCanvas editor; SaveDialog (js "dokument.png");
   WriteFile filePath editor; ConsoleLog].

(** The calls of an export of several pages into a folder: one prompt,
    then a numbered file per page, in page order. *)
Definition folderSaveTrace (folderPath : jsstring) (selected : list Page) : list Event :=
  OpenDialog
    :: concat (imap (fun i editor =>
                       [CreateCanvas editor;
                        WriteFile (folderPath ++ js "/" ++ pageFileName i) editor;
                        ConsoleLog])
                    selected)
    ++ [ConsoleLog].

(** Concatenation with a separator between consecutive items. *)
Fixpoint joinWith {A} (sep : list A) (items : list (list A)) : list A :=
  match items with
  | [] => []
  | x :: rest =>
      x ++ match rest with [] => [] | _ :: _ => sep ++ joinWith sep rest end
  end.

(** The calls of the fallback: every page is rendered anew and
    downloaded, with a pause of 500 ms between successive pages. *)
Definition downloadTrace (selected : list Page) : list Event :=
  joinWith [SetTimeout 500]
    (imap (fun i editor =>
             [CreateCanvas editor;
              Download (if length selected =? 1
                        then js "dokument.png" else pageFileName i) editor])
          selected).

(** Example hosts: one where every collaborator does its work, and one
    where the user closes the save dialog. *)
Definition obligingHost : Collaborators :=
  mkCollaborators (Chosen (js "/tmp/out.png")) (Chosen (js "/tmp/out"))
                  (fun _ => true) (fun _ => true).

Definition cancellingHost : Collaborators :=
  mkCollaborators Cancelled Cancelled (fun _ => true) (fun _ => true).

(** Example hosts that fail: the save dialog rejects, a write throws. *)
Definition rejectingHost : Collaborators :=
  mkCollaborators Rejected Rejected (fun _ => true) (fun _ => true).

Definition readOnlyHost : Collaborators :=
  mkCollaborators (Chosen (js "/tmp/out.png")) (Chosen (js "/tmp/out"))
                  (fun _ => false) (fun _ => true).

(** Two measurement paths for a fixed-pitch face, used as examples: the
    width of a string is its length times six tenths of the point size,
    computed in the two possible orders. *)
Definition geometryWidth (font : FontInfo) (s : jsstring) : Q :=
  inject_Z (Z.of_nat (length s)) * (inject_Z (Z.of_N (size font)) * (6 # 10)).

Definition metricsWidth (font : FontInfo) (s : jsstring) : Q :=
  (inject_Z (Z.of_N (size font)) * (6 # 10)) * inject_Z (Z.of_nat (length s)).

(** The measurement of the long-word example: every string is as wide as
    [charWidth] times its length. *)
Definition monospace (charWidth : Q) (s : jsstring) : Q :=
  charWidth * inject_Z (Z.of_nat (length s)).

Definition long_word : jsstring := js "Supercalifragilisticexpialidocious".

(** ** Notions used to describe what [wrapText] returns *)

(** The characters of a string that are not spaces, in order. *)
Definition nonspace (s : jsstring) : jsstring :=
  List.filter (fun c => negb (N.eqb c SPACE)) s.

(** A string whose first character exists and is not a space. *)
Definition starts_with_nonspace (s : jsstring) : Prop :=
  match s with
  | [] => False
  | c :: _ => c <> SPACE
  end.

(** The words of a text put together again, a space between them. *)
Definition joinWords (words : list jsstring) : jsstring :=
  match words with
  | [] => []
  | word :: rest => word ++ concat (map (cons SPACE) rest)
  end.

(** ** Notions used to describe what the canvas renderer computes *)

(** The width and the height [createDocumentCanvas] takes an image to
    have before scaling. *)
Definition imageWidthOf (img : Image) : Q :=
  firstNonZero (naturalWidth img) (width img) 200.

Definition imageHeightOf (img : Image) : Q :=
  firstNonZero (naturalHeight img) (height img) 150.

(** The factor by which [createDocumentCanvas] scales an image:
    [Math.min(imgMaxWidth / imgWidth, imgMaxHeight / imgHeight, 1)]. *)
Definition imageScaleOf (img : Image) : Q :=
  Qmin (Qmin ((canvasMaxWidth - 40) / imageWidthOf img) (300 / imageHeightOf img)) 1.

(** The item of the render data that stands for an image scaled by its
    factor. *)
Definition scaledItem (img : Image) : RenderItem :=
  ItemImage img (imageWidthOf img * imageScaleOf img)
            (imageHeightOf img * imageScaleOf img) (newspaper_filter img).

(** The images of an editor, in page order: the [img] elements of its
    image blocks. *)
Definition imagesOf (editor : Page) : list Image :=
  omap (fun b => match element b with
                 | ImageDiv (Some img) => Some img
                 | _ => None
                 end) editor.

Definition is_image_item (item : RenderItem) : bool :=
  match item with ItemImage _ _ _ _ => true | _ => false end.

(** The vertical room an item of the render data takes. *)
Definition itemHeight (item : RenderItem) : Q :=
  match item with
  | ItemImage _ _ h _ => (h + 24)%Q
  | ItemEmpty | ItemText _ _ => lineHeight
  end.

Definition sumHeights (items : list RenderItem) : Q :=
  fold_right (fun item total => itemHeight item + total)%Q 0%Q items.

(** An image of the render data is scaled down to at most 640 by 300,
    never up, with the proportions of the image and its filter flag. *)
Definition scaled_image (item : RenderItem) : Prop :=
  match item with
  | ItemImage img w h hasNewspaperFilter =>
      (0 < w /\ w <= 640 /\ 0 < h /\ h <= 300 /\
       w <= imageWidthOf img /\ h <= imageHeightOf img /\
       w * imageHeightOf img == h * imageWidthOf img)%Q /\
      hasNewspaperFilter = newspaper_filter img
  | ItemEmpty | ItemText _ _ => True
  end.

(** A drawing operation that places text or an image does so between
    the side margins and between [top] and [bottom]: text starts at the
    left margin on a line of its own, an image (drawn 20 above the
    position of its line) lies between the margins. *)
Definition drawn_within (top bottom : Q) (op : DrawOp) : Prop :=
  match op with
  | FillText _ _ x y =>
      (x == marginX /\ top <= y /\ y + lineHeight <= bottom)%Q
  | DrawImage _ x y w h _ =>
      (marginX <= x /\ x + w <= pageWidth - marginX /\
       top - 20 <= y /\ y + h <= bottom)%Q
  | _ => True
  end.

(** The frame drawn is one of the five styles. *)
Definition valid_frame (op : DrawOp) : Prop :=
  match op with
  | Frame style _ _ _ _ => (0 <= style < 5)%Z
  | _ => True
  end.

(** ** Page navigation and clearing *)

(** What [updatePageIndicator] shows: the text of the indicator and the
    [disabled] flags of the two navigation buttons. *)
Record Indicator := mkIndicator {
  indicator_text : jsstring;
  prev_disabled : bool;
  next_disabled : bool
}.

Definition updatePageIndicator (d : Doc) : Indicator :=
  mkIndicator
    (js "Seite " ++ decimal (currentPageIndex d + 1) ++ js " / "
        ++ decimal (length (pages d)))
    (currentPageIndex d =? 0)
    (Z.of_nat (currentPageIndex d) =? Z.of_nat (length (pages d)) - 1)%Z.

(** [selection.removeAllRanges()]: no block holds the caret any more. *)
Definition clearCaret (b : Block) : Block := mkBlock (element b) false.

(** [selection.removeAllRanges(); selection.addRange(range)] for a
    range collapsed inside block [i] of page [p]: that block holds the
    caret, and no other block does. *)
Definition selectIn (p i : nat) (ps : list Page) : list Page :=
  alter (alter (fun b => mkBlock (element b) true) i) p (map (map clearCaret) ps).

(** [focusCurrentPage]: the selection is put at the start of the first
    line of the active editor. In an editor without a line the function
    sets no selection, and it does nothing without an active editor. *)
Definition focusCurrentPage (d : Doc) : Doc :=
  match getCurrentEditor d with
  | Some editor =>
      match querySelector_line editor with
      | Some (i, firstLine) =>
          mkDoc (selectIn (currentPageIndex d) i (pages d))
                (currentPageIndex d) (state_font d)
      | None => d
      end
  | None => d
  end.

Module Navigation.

(** [navigateToPage(index)], the whole function: out-of-range indices
    are ignored; otherwise the index is set, [updatePageIndicator]
    shows it, and [focusCurrentPage] moves the selection to the first
    line of the page. *)
Definition navigateToPage (index : Z) (d : Doc) : Doc :=
  if ((index <? 0) || (Z.of_nat (length (pages d)) <=? index))%Z then d
  else focusCurrentPage (mkDoc (pages d) (Z.to_nat index) (state_font d)).

End Navigation.

(** The clicks on the two navigation buttons. *)
Definition prevPageClick (d : Doc) : Doc :=
  Navigation.navigateToPage (Z.of_nat (currentPageIndex d) - 1) d.

Definition nextPageClick (d : Doc) : Doc :=
  Navigation.navigateToPage (Z.of_nat (currentPageIndex d) + 1) d.

(** The statements of [checkPageOverflow] that follow the move when the
    cursor was in the moved element: [navigateToPage] to the page
    [next], then the selection is collapsed inside the moved element,
    now the first block of that page. *)
Definition followMovedElement (next : nat) (d : Doc) : Doc :=
  let d' := Navigation.navigateToPage (Z.of_nat next) d in
  mkDoc (selectIn next 0 (pages d')) (currentPageIndex d') (state_font d').

(** [clearAllPages]: the pages after the first are popped, the editor of
    the first page is emptied and given one new line, the first page is
    made the active one, and [focusCurrentPage] puts the selection into
    the new line. Without a first page the access to [pages[0]] throws,
    here [None]. *)
Definition clearAllPages (d : Doc) : option Doc :=
  let pages1 := take 1 (pages d) in
  match pages1 with
  | [] => None
  | _ :: _ =>
      Some (focusCurrentPage
              (mkDoc (<[0 := [newLine (state_font d)]]> pages1) 0 (state_font d)))
  end.

(** The active index points at a page. *)
Definition valid_index (d : Doc) : Prop := currentPageIndex d < length (pages d).

(** The blocks of a document in reading order, empty lines left out. *)
Definition content_blocks (ps : list Page) : list Block :=
  List.filter (fun b => negb (is_line b && blank b)) (concat ps).

(** ** Saving the text and counting it *)

(** The calls [saveText] makes, in the order it makes them. *)
Inductive TextEvent :=
| TextSaveDialog (defaultPath : jsstring)
| WriteTextFile (filePath text : jsstring)
| TextConsoleLog
| TextConsoleError
| TextDownload (name text : jsstring).

(** [saveText], with the answer of the save dialog and the outcome of
    [writeTextFile] ([true]: the write succeeds, [false]: it throws). *)
Definition saveText (dialog : Reply) (fs_writeTextFile : jsstring -> bool) (d : Doc)
  : list TextEvent :=
  let text := getEditorText d in
  if negb (truthy (trim text)) then []
  else
    let attempt : list TextEvent * bool :=
      match dialog with
      | Chosen filePath =>
          if truthy filePath then
            if fs_writeTextFile filePath
            then ([TextSaveDialog (js "dokument.txt");
                   WriteTextFile filePath text; TextConsoleLog], true)
            else ([TextSaveDialog (js "dokument.txt");
                   WriteTextFile filePath text], false)
          else ([TextSaveDialog (js "dokument.txt")], true)
      | Cancelled => ([TextSaveDialog (js "dokument.txt")], true)
      | Rejected => ([TextSaveDialog (js "dokument.txt")], false)
      end in
    if attempt.2 then attempt.1
    else attempt.1 ++ [TextConsoleError; TextDownload (js "dokument.txt") text].

(** The number of matches of [/\s+/] in a string: its maximal runs of
    whitespace. [inRun] tells that the previous character was one. *)
Fixpoint whitespaceRuns (inRun : bool) (s : jsstring) : nat :=
  match s with
  | [] => 0
  | c :: s' =>
      if is_whitespace c
      then (if inRun then 0 else 1) + whitespaceRuns true s'
      else whitespaceRuns false s'
  end.

(** [text.split(/\s+/).length]: one piece more than there are matches. *)
Definition split_whitespace_length (s : jsstring) : nat :=
  S (whitespaceRuns false s).

(** What [updateCounts] shows: the two numbers and the two labels. *)
Record Counts := mkCounts {
  chars : nat;
  words : nat;
  charCount_text : jsstring;
  wordCount_text : jsstring
}.

Definition updateCounts (d : Doc) : Counts :=
  let text :=
    fold_left
      (fun text page =>
         fold_left (fun text line => text ++ textContent line ++ LF)
                   (List.filter is_line page) text)
      (pages d) [] in
  let text := trim text in
  let chars := length text in
  let words := if negb (truthy text) then 0 else split_whitespace_length text in
  mkCounts chars words
    (decimal chars ++ js " Zeichen")
    (decimal words ++ js " "
       ++ (if words =? 1 then js "Wort" else js "W" ++ [246%N] ++ js "rter")).

(** The words of a string: its maximal runs of characters that are not
    whitespace. [inWord] tells that the previous character was in one. *)
Fixpoint wordRuns (inWord : bool) (s : jsstring) : nat :=
  match s with
  | [] => 0
  | c :: s' =>
      if is_whitespace c then wordRuns false s'
      else (if inWord then 0 else 1) + wordRuns true s'
  end.

Definition countWords (s : jsstring) : nat := wordRuns false s.

(** The lines of a document, page after page. *)
Definition allLines (d : Doc) : list Block :=
  concat (map (List.filter is_line) (pages d)).

(** Whether a page has a line with text that is not whitespace. *)
Definition page_has_text (page : Page) : bool :=
  existsb (fun b => is_line b && has_text (textContent b)) page.

(** ** Notions used to describe the calls of the PNG export *)

Definition is_dialog (e : Event) : bool :=
  match e with
  | SaveDialog _ | OpenDialog => true
  | _ => false
  end.

(** A write goes where the user said: to the path chosen in the save
    dialog, or to a numbered file in the folder chosen in the folder
    dialog. *)
Definition written_where_chosen (host : Collaborators) (e : Event) : Prop :=
  match e with
  | WriteFile filePath _ =>
      dialog_save host = Chosen filePath \/
      exists folderPath i,
        dialog_open host = Chosen folderPath /\
        filePath = folderPath ++ js "/" ++ pageFileName i
  | _ => True
  end.

(** A computation that, started on a trace of events that satisfy [P],
    ends on such a trace, and whose value, when it returns one,
    satisfies [Q]. *)
Definition emits_only (P : Event -> Prop) {A} (Q : A -> Prop) (c : Exec A) : Prop :=
  forall tr, Forall P tr ->
             Forall P (c tr).1 /\ (forall a, (c tr).2 = Some a -> Q a).

(** A computation that shows [n] dialogs at most. *)
Definition shows_at_most (n : nat) {A} (c : Exec A) : Prop :=
  forall tr, length (List.filter is_dialog (c tr).1)
             <= length (List.filter is_dialog tr) + n.

(** A host whose file system refuses one path. *)
Definition refusingHost (refused : jsstring) : Collaborators :=
  mkCollaborators (Chosen (js "/tmp/out.png")) (Chosen (js "/tmp/out"))
                  (fun filePath => negb (bool_decide (filePath = refused)))
                  (fun _ => true).

(** ** Editing: the line of the caret, images, merging lines *)

(** The line the selection starts in, found by walking up from the start
    of the selection to an element of class [line]: position of the
    block in its editor. *)
Fixpoint findCaretLine (editor : Page) : option nat :=
  match editor with
  | [] => None
  | b :: rest =>
      if caret b && is_line b then Some 0
      else match findCaretLine rest with
           | Some i => Some (S i)
           | None => None
           end
  end.

(** The same over the pages: the page and the position in its editor. *)
Fixpoint findCaretLineInPages (ps : list Page) : option (nat * nat) :=
  match ps with
  | [] => None
  | editor :: rest =>
      match findCaretLine editor with
      | Some i => Some (0, i)
      | None => match findCaretLineInPages rest with
                | Some (p, i) => Some (S p, i)
                | None => None
                end
      end
  end.

(** [lines[lines.length - 1]] for [lines = editor.querySelectorAll('.line')] *)
Fixpoint lastLineIndex (editor : Page) : option nat :=
  match editor with
  | [] => None
  | b :: rest =>
      match lastLineIndex rest with
      | Some i => Some (S i)
      | None => if is_line b then Some 0 else None
      end
  end.

(** The image block and the line that [insertImageElement] creates. *)
Definition imageLine (img : Image) : Block := mkBlock (ImageDiv (Some img)) false.

(** [insertImageElement(img)]. The boolean tells whether the function
    ran to its end; it does not when there is no active editor to focus
    or to append to. *)
Definition insertImageElement (img : Image) (d : Doc) : Doc * bool :=
  let currentLine := findCaretLineInPages (pages d) in
  let editor := getCurrentEditor d in
  let currentLine :=
    match currentLine, editor with
    | None, Some editor =>
        match lastLineIndex editor with
        | Some i => Some (currentPageIndex d, i)
        | None => None
        end
    | _, _ => currentLine
    end in
  match currentLine with
  | Some (p, i) =>
      let inserted :=
        alter (fun page => take (S i) page
                             ++ [imageLine img; newLine (state_font d)]
                             ++ drop (S i) page) p (pages d) in
      match editor with
      | None => (mkDoc inserted (currentPageIndex d) (state_font d), false)
      | Some _ =>
          let focused :=
            alter (fun page => take (S i) page
                                 ++ [imageLine img;
                                     mkBlock (LineDiv (Some (state_font d)) []) true]
                                 ++ drop (S i) page) p
                  (map (map clearCaret) (pages d)) in
          (mkDoc focused (currentPageIndex d) (state_font d), true)
      end
  | None =>
      match editor with
      | None => (d, false)
      | Some editor =>
          (mkDoc (<[currentPageIndex d :=
                      editor ++ [imageLine img; newLine (state_font d)]]> (pages d))
                 (currentPageIndex d) (state_font d), true)
      end
  end.

(** The line that results from moving the children of [cur] to the end
    of [prev]; the caret is put at the place where the two meet. *)
Definition mergeLines (prev cur : Block) : Block :=
  match element prev, element cur with
  | LineDiv font runs, LineDiv _ runs' => mkBlock (LineDiv font (runs ++ runs')) true
  | _, _ => prev
  end.

(** The Backspace branch of [handleKeyDown], given what
    [isCaretAtLineStart] answers for the line of the caret. [None]: the
    key is left to the browser. *)
Definition handleBackspace (isAtStart : bool) (d : Doc) : option Doc :=
  match findCaretLineInPages (pages d) with
  | Some (p, S j) =>
      match pages d !! p with
      | Some editor =>
          match editor !! j, editor !! S j with
          | Some prevLine, Some currentLine =>
              if isAtStart && is_line prevLine then
                Some (mkDoc
                        (<[p := map clearCaret (take j editor)
                                  ++ mergeLines prevLine currentLine
                                  :: map clearCaret (drop (S (S j)) editor)]>
                           (map (map clearCaret) (pages d)))
                        (currentPageIndex d) (state_font d))
              else None
          | _, _ => None
          end
      | None => None
      end
  | _ => None
  end.

(** ** The position of an offset in the text of an element *)

(** A DOM subtree: text nodes and elements. *)
#[local] Unset Elimination Schemes.
Inductive Node :=
| TextNode (text : jsstring)
| ElementNode (children : list Node).
#[local] Set Elimination Schemes.

(** The function [walk] of [findTextNodeAtOffset], with [currentOffset]
    and the number of text nodes met so far passed along. It ends with
    the text node found, numbered in document order, and the offset in
    it ([inl]), or with the state after the subtree ([inr]). *)
Fixpoint walk (offset : nat) (node : Node) (st : nat * nat)
  : (nat * nat) + (nat * nat) :=
  match node with
  | TextNode text =>
      let '(currentOffset, k) := st in
      let len := length text in
      if offset <=? currentOffset + len then inl (k, offset - currentOffset)
      else inr (currentOffset + len, S k)
  | ElementNode children =>
      (fix walkChildren (cs : list Node) (st : nat * nat) :=
         match cs with
         | [] => inr st
         | c :: cs' =>
             match walk offset c st with
             | inl r => inl r
             | inr st' => walkChildren cs' st'
             end
         end) children st
  end.

(** Where [findTextNodeAtOffset] puts the caret: in the [k]-th text node
    at an offset, or at the start of the element itself. *)
Inductive CaretPosition :=
| InTextNode (k : nat) (offset : nat)
| AtElementStart.

Definition findTextNodeAtOffset (element : Node) (offset : nat) : CaretPosition :=
  match walk offset element (0, 0) with
  | inl (k, off) => InTextNode k off
  | inr _ => AtElementStart
  end.

(** The texts of the text nodes of a subtree, in document order. *)
Fixpoint textNodes (node : Node) : list jsstring :=
  match node with
  | TextNode text => [text]
  | ElementNode children =>
      (fix collect (cs : list Node) :=
         match cs with
         | [] => []
         | c :: cs' => textNodes c ++ collect cs'
         end) children
  end.

(** Induction on subtrees. *)
Fixpoint Node_induction (P : Node -> Prop)
  (Htext : forall text, P (TextNode text))
  (Helement : forall children, Forall P children -> P (ElementNode children))
  (node : Node) : P node :=
  match node with
  | TextNode text => Htext text
  | ElementNode children =>
      Helement children
        ((fix all (cs : list Node) : Forall P cs :=
            match cs with
            | [] => @List.Forall_nil Node P
            | c :: cs' =>
                @List.Forall_cons Node P c cs'
                  (Node_induction P Htext Helement c) (all cs')
            end) children)
  end.

(** What [walk] answers on a subtree entered with [currentOffset] at
    most [offset]: a text node of the subtree that holds the offset, or
    the state after a subtree that ends before the offset. *)
Definition walk_answer (offset : nat) (node : Node) (st : nat * nat) : Prop :=
  match walk offset node st with
  | inl (k', off) =>
      exists j text,
        textNodes node !! j = Some text /\ k' = st.2 + j /\ off <= length text /\
        st.1 + length (concat (take j (textNodes node))) + off = offset
  | inr (currentOffset', k') =>
      currentOffset' = st.1 + length (concat (textNodes node)) /\
      k' = st.2 + length (textNodes node) /\
      currentOffset' <= offset /\
      (textNodes node <> [] -> currentOffset' < offset)
  end.

(** ** The typewriter sound *)

(** The fields of [TypewriterSound] that [play] reads and writes. *)
Record TypewriterSound := mkSound {
  audioContext : bool;
  keyBuffers : nat;
  returnBuffer : bool;
  volume : Q;
  enabled : bool;
  lastPlayTime : Z;
  lastKeyIndex : Z
}.

Definition minInterval : Z := 50.

(** What [play] starts: the return sound, or a key sound with its index
    and playback rate; both at the gain of the volume. *)
Inductive Played :=
| PlayedReturn (gain : Q)
| PlayedKey (keyIndex : Z) (playbackRate gain : Q).

(** The [do ... while] loop that picks the key sound, over the results
    of [Math.random()] still to come; [None] when they run out. *)
Fixpoint pickKey (s : TypewriterSound) (draws : list Q) : option (Z * list Q) :=
  match draws with
  | [] => None
  | r :: draws' =>
      let keyIndex := Qfloor (r * inject_Z (Z.of_nat (keyBuffers s))) in
      if (keyIndex =? lastKeyIndex s)%Z && (1 <? keyBuffers s)
      then pickKey s draws'
      else Some (keyIndex, draws')
  end.

(** [play(isReturn)] at the time [now] of [Date.now()]. The playback
    rate is computed in exact arithmetic; the code computes it in
    double precision, where the sum can round up to 1.08 itself. *)
Definition play (isReturn : bool) (now : Z) (draws : list Q) (s : TypewriterSound)
  : option (TypewriterSound * option Played) :=
  if negb (enabled s) || negb (audioContext s) then Some (s, None)
  else if (now - lastPlayTime s <? minInterval)%Z then Some (s, None)
  else
    let s1 := mkSound (audioContext s) (keyBuffers s) (returnBuffer s) (volume s)
                      (enabled s) now (lastKeyIndex s) in
    if isReturn then
      if returnBuffer s then Some (s1, Some (PlayedReturn (volume s)))
      else Some (s1, None)
    else
      match pickKey s draws with
      | None => None
      | Some (keyIndex, draws') =>
          let s2 := mkSound (audioContext s) (keyBuffers s) (returnBuffer s) (volume s)
                            (enabled s) now keyIndex in
          if ((0 <=? keyIndex) && (keyIndex <? Z.of_nat (keyBuffers s)))%Z then
            match draws' with
            | [] => None
            | r :: _ =>
                Some (s2, Some (PlayedKey keyIndex ((92 # 100) + r * (16 # 100))
                                          (volume s)))
            end
          else Some (s2, None)
      end.

(* ===================================================================== *)
(** * Part II: properties                                                 *)
(* ===================================================================== *)

(** ** Facts about numbers, strings and folds *)

Lemma gtb_spec (a b : Q) : gtb a b = true <-> (b < a)%Q.
Proof.
  unfold gtb. rewrite negb_true_iff.
  destruct (Qle_bool a b) eqn:E.
  - apply Qle_bool_iff in E. split; [discriminate|].
    intros H. exfalso. apply (Qlt_not_le _ _ H). exact E.
  - split; [intros _|reflexivity].
    apply Qnot_le_lt. intros H. apply Qle_bool_iff in H. congruence.
Qed.

Lemma gtb_false (a b : Q) : gtb a b = false <-> (a <= b)%Q.
Proof. unfold gtb. rewrite negb_false_iff. apply Qle_bool_iff. Qed.

Lemma gtb_Qeq (a a' b : Q) : (a == a')%Q -> gtb a b = gtb a' b.
Proof. intros H. unfold gtb. now rewrite H. Qed.

Lemma truthy_true (s : jsstring) : truthy s = true <-> s <> [].
Proof. destruct s; simpl; split; congruence. Qed.

Lemma truthy_false (s : jsstring) : truthy s = false <-> s = [].
Proof. destruct s; simpl; split; congruence. Qed.

Lemma fold_left_pointwise {A B} (f g : A -> B -> A) (l : list B) (a : A) :
  (forall x y, f x y = g x y) -> fold_left f l a = fold_left g l a.
Proof.
  intros H. revert a. induction l as [|y l IH]; intros a; simpl; [reflexivity|].
  now rewrite H, IH.
Qed.

(** ** [wrapText]: what every produced line satisfies *)

Section WrapInvariant.

Variable measureText : jsstring -> Q.
Variable maxWidth : Q.

(** A property of lines that holds of every single character and of
    every non-empty string that fits is a property of every line that
    [wrapText] pushes. *)
Variable P : jsstring -> Prop.
Hypothesis P_single : forall c, P [c].
Hypothesis P_fits : forall s, s <> [] -> (measureText s <= maxWidth)%Q -> P s.

Lemma wrap_inv_flush lines cur :
  wrap_inv P (lines, cur) ->
  Forall P (if truthy cur then lines ++ [cur] else lines).
Proof using Type.
  intros [Hl Hc]; simpl in *. destruct cur as [|c cur]; simpl; [exact Hl|].
  apply Forall_app; split; [exact Hl|]. constructor; [|constructor].
  destruct Hc as [Hc|Hc]; [discriminate|exact Hc].
Qed.

Lemma breakChar_inv st c :
  wrap_inv P st -> wrap_inv P (breakChar measureText maxWidth st c).
Proof using P_single P_fits.
  destruct st as [lines chunk]. intros Hst. unfold breakChar.
  destruct (gtb (measureText (chunk ++ [c])) maxWidth) eqn:Hw;
    destruct (truthy chunk) eqn:Ht; simpl.
  - split; simpl; [|right; apply P_single].
    generalize (wrap_inv_flush _ _ Hst). now rewrite Ht.
  - apply truthy_false in Ht. subst chunk. destruct Hst as [Hl _].
    split; simpl; [exact Hl|right; apply P_single].
  - destruct Hst as [Hl _]. split; simpl; [exact Hl|right].
    apply P_fits; [now destruct chunk|now apply gtb_false].
  - destruct Hst as [Hl _]. split; simpl; [exact Hl|right].
    apply P_fits; [now destruct chunk|now apply gtb_false].
Qed.

Lemma breakWord_inv word st :
  wrap_inv P st -> wrap_inv P (fold_left (breakChar measureText maxWidth) word st).
Proof using P_single P_fits.
  revert st. induction word as [|c word IH]; intros st Hst; simpl; [exact Hst|].
  apply IH, breakChar_inv, Hst.
Qed.

Lemma wrapWord_inv st word :
  wrap_inv P st -> wrap_inv P (wrapWord measureText maxWidth st word).
Proof using P_single P_fits.
  destruct st as [lines cur]. intros Hst. unfold wrapWord.
  destruct (gtb (measureText word) maxWidth) eqn:Hlong.
  - apply breakWord_inv. split; simpl; [|now left].
    apply (wrap_inv_flush _ _ Hst).
  - apply gtb_false in Hlong.
    assert (Hword : word = [] \/ P word).
    { destruct word as [|c w]; [now left|right]. now apply P_fits. }
    destruct (truthy cur) eqn:Ht; simpl.
    + destruct (gtb (measureText (cur ++ SPACE :: word)) maxWidth) eqn:Hw; simpl.
      * split; simpl; [|exact Hword].
        generalize (wrap_inv_flush _ _ Hst). now rewrite Ht.
      * destruct Hst as [Hl _]. split; simpl; [exact Hl|right].
        apply P_fits; [now destruct cur|now apply gtb_false].
    + rewrite andb_false_r. destruct Hst as [Hl _]. split; simpl; assumption.
Qed.

Lemma wrapWords_inv words st :
  wrap_inv P st -> wrap_inv P (fold_left (wrapWord measureText maxWidth) words st).
Proof using P_single P_fits.
  revert st. induction words as [|w words IH]; intros st Hst; simpl; [exact Hst|].
  apply IH, wrapWord_inv, Hst.
Qed.

Lemma wrapText_Forall text : Forall P (wrapText measureText maxWidth text).
Proof using P_single P_fits.
  unfold wrapText. destruct (truthy text); simpl; [|constructor].
  assert (H : wrap_inv P (fold_left (wrapWord measureText maxWidth)
                          (split SPACE text) ([], []))).
  { apply wrapWords_inv. split; simpl; [constructor|now left]. }
  destruct (fold_left _ _ _) as [lines cur]. apply (wrap_inv_flush _ _ H).
Qed.

End WrapInvariant.

(** ** [wrapText]: dependence on the measurement function *)

(** [wrapText] consults the measurement only through the comparisons
    [measureText s > maxWidth]. *)
Lemma wrapText_comparisons (m1 m2 : jsstring -> Q) (w1 w2 : Q) (text : jsstring) :
  (forall s, gtb (m1 s) w1 = gtb (m2 s) w2) ->
  wrapText m1 w1 text = wrapText m2 w2 text.
Proof.
  intros H.
  assert (Hb : forall st c, breakChar m1 w1 st c = breakChar m2 w2 st c).
  { intros [lines chunk] c. unfold breakChar. now rewrite H. }
  assert (Hw : forall st w, wrapWord m1 w1 st w = wrapWord m2 w2 st w).
  { intros [lines cur] w. unfold wrapWord. rewrite !H.
    now rewrite (fold_left_pointwise _ _ w _ Hb). }
  unfold wrapText. now rewrite (fold_left_pointwise _ _ _ _ Hw).
Qed.

Lemma wrapText_ext (m1 m2 : jsstring -> Q) (maxWidth : Q) (text : jsstring) :
  (forall s, (m1 s == m2 s)%Q) ->
  wrapText m1 maxWidth text = wrapText m2 maxWidth text.
Proof.
  intros H. apply wrapText_comparisons. intros s. apply gtb_Qeq, H.
Qed.

(** ** [wrapText]: boundedness and non-empty lines *)

(** C2. Every line returned by [wrapText] measures at most [maxWidth],
    except for a line made of one single character that is by itself
    wider than [maxWidth]. This holds for every measurement function,
    among them the monotone and space-additive ones. *)
Theorem wrapText_bounded (measureText : jsstring -> Q) (maxWidth : Q) (text : jsstring) :
  Forall (fun line =>
            (measureText line <= maxWidth)%Q \/
            exists c, line = [c] /\ (maxWidth < measureText [c])%Q)
         (wrapText measureText maxWidth text).
Proof.
  apply wrapText_Forall.
  - intros c. destruct (Qlt_le_dec maxWidth (measureText [c])) as [Hlt|Hle].
    + right. exists c. split; [reflexivity|exact Hlt].
    + left. exact Hle.
  - intros s _ Hfit. left. exact Hfit.
Qed.

Lemma split_spaces (n : nat) : split SPACE (repeat SPACE n) = repeat [] (S n).
Proof. induction n as [|n IH]; simpl; [reflexivity|]. now rewrite IH. Qed.

Lemma wrapWord_blank (m : jsstring -> Q) (w : Q) (n : nat) :
  fold_left (wrapWord m w) (repeat [] n) ([], []) = ([], []).
Proof.
  induction n as [|n IH]; simpl; [reflexivity|].
  destruct (gtb (m []) w); simpl; exact IH.
Qed.

(** C10. No line returned by [wrapText] is the empty string, and a text
    made of spaces only yields no line at all. *)
Theorem wrapText_nonempty_lines (measureText : jsstring -> Q) (maxWidth : Q) :
  (forall text, Forall (fun line => line <> []) (wrapText measureText maxWidth text)) /\
  (forall n, wrapText measureText maxWidth (repeat SPACE n) = []).
Proof.
  split.
  - intros text. apply wrapText_Forall.
    + intros c. discriminate.
    + intros s Hs _. exact Hs.
  - intros n. unfold wrapText. destruct (truthy (repeat SPACE n)); simpl; [|reflexivity].
    now rewrite split_spaces, wrapWord_blank.
Qed.

(** ** [wrapText]: the long-word example *)

Lemma monospace_comparison (charWidth : Q) (s : jsstring) :
  (0 < charWidth)%Q ->
  gtb (monospace charWidth s) (10 * charWidth) = gtb (monospace 1 s) 10.
Proof.
  intros Hpos. unfold monospace.
  set (n := inject_Z (Z.of_nat (length s))).
  assert (E : (10 * charWidth < charWidth * n)%Q <-> (10 < 1 * n)%Q).
  { rewrite (Qmult_comm 10 charWidth), Qmult_1_l. now apply Qmult_lt_l. }
  destruct (gtb (charWidth * n) (10 * charWidth)) eqn:E1;
    destruct (gtb (1 * n) 10) eqn:E2; try reflexivity.
  - apply gtb_spec, E in E1. apply gtb_false in E2.
    exfalso. apply (Qlt_not_le _ _ E1), E2.
  - apply gtb_spec, E in E2. apply gtb_false in E1.
    exfalso. apply (Qlt_not_le _ _ E2), E1.
Qed.

Lemma wrapText_long_word (charWidth : Q) :
  (0 < charWidth)%Q ->
  wrapText (monospace charWidth) (10 * charWidth) long_word
  = [js "Supercalif"; js "ragilistic"; js "expialidoc"; js "ious"].
Proof.
  intros Hpos.
  rewrite (wrapText_comparisons _ (monospace 1) _ 10).
  - vm_compute. reflexivity.
  - intros s. now apply monospace_comparison.
Qed.

(** C9. With every string measured as [charWidth] times its length and
    [maxWidth = 10 * charWidth], the word
    "Supercalifragilisticexpialidocious" is wrapped into more than one
    chunk, every chunk has at most ten characters, and the chunks
    concatenated in order give the word back. *)
Theorem wrapText_splits_long_word (charWidth : Q) :
  (0 < charWidth)%Q ->
  let chunks := wrapText (monospace charWidth) (10 * charWidth) long_word in
  1 < length chunks /\
  Forall (fun chunk => length chunk <= 10) chunks /\
  concat chunks = long_word.
Proof.
  intros Hpos chunks. unfold chunks. rewrite (wrapText_long_word _ Hpos).
  split; [simpl; lia|]. split; [|reflexivity].
  repeat constructor; simpl; lia.
Qed.

Lemma wrapText_splits_long_word_witness :
  (0 < 7 # 2)%Q /\
  let chunks := wrapText (monospace (7 # 2)) (10 * (7 # 2)) long_word in
  1 < length chunks /\
  Forall (fun chunk => length chunk <= 10) chunks /\
  concat chunks = long_word.
Proof.
  assert (Hpos : (0 < 7 # 2)%Q) by reflexivity.
  split; [exact Hpos|]. exact (wrapText_splits_long_word (7 # 2) Hpos).
Defined.

(** ** The canvas renderer: layout does not depend on the measurement
    path or on the random source *)

Lemma measureChild_ext (m1 m2 : FontInfo -> jsstring -> Q) acc child :
  (forall font s, (m1 font s == m2 font s)%Q) ->
  measureChild m1 acc child = measureChild m2 acc child.
Proof.
  intros H. destruct acc as [renderData total]. unfold measureChild.
  destruct (element child) as [font runs|[img|]]; try reflexivity.
  now rewrite (wrapText_ext (m1 _) (m2 _) _ _ (H _)).
Qed.

Lemma measurePass_ext (m1 m2 : FontInfo -> jsstring -> Q) editor :
  (forall font s, (m1 font s == m2 font s)%Q) ->
  measurePass m1 editor = measurePass m2 editor.
Proof.
  intros H. unfold measurePass. apply fold_left_pointwise.
  intros acc child. now apply measureChild_ext.
Qed.

Lemma drawnContent_createDocumentCanvas m r editor :
  drawnContent (createDocumentCanvas m r editor)
  = List.filter is_content
      (fold_left drawItem (measurePass m editor).1 ([], marginTop)).1.
Proof.
  unfold drawnContent, createDocumentCanvas. cbn [ops].
  unfold addPaperTexture, drawCornerOrnaments.
  cbn [app List.filter is_content].
  rewrite List.filter_app. cbn [List.filter is_content].
  now rewrite app_nil_r.
Qed.

(** C1. [wrapText] sees the measurement function only through the
    widths it returns: two measurement functions that agree on every
    string (one read off rendered geometry, one off the text metrics of
    a drawing surface, for the same fonts) give the same wrapped lines;
    and whatever the random source feeding the paper grain and the
    choice of the frame, the render data, the page height, the height of
    the canvas and the drawn text and images are the same. *)
Theorem layout_independent_of_measurement_and_randomness
  (m1 m2 : FontInfo -> jsstring -> Q) (random1 random2 : nat -> Q) :
  (forall font s, (m1 font s == m2 font s)%Q) ->
  (forall font maxWidth text,
      wrapText (m1 font) maxWidth text = wrapText (m2 font) maxWidth text) /\
  (forall editor,
      measurePass m1 editor = measurePass m2 editor /\
      pageHeightOf m1 editor = pageHeightOf m2 editor /\
      canvas_height (createDocumentCanvas m1 random1 editor)
      = canvas_height (createDocumentCanvas m2 random2 editor) /\
      drawnContent (createDocumentCanvas m1 random1 editor)
      = drawnContent (createDocumentCanvas m2 random2 editor)).
Proof.
  intros H. split.
  - intros font maxWidth text. apply wrapText_ext, H.
  - intros editor.
    assert (E : measurePass m1 editor = measurePass m2 editor)
      by now apply measurePass_ext.
    assert (Eh : pageHeightOf m1 editor = pageHeightOf m2 editor)
      by (unfold pageHeightOf; now rewrite E).
    repeat split; try assumption.
    + unfold createDocumentCanvas. cbn [canvas_height]. now rewrite Eh.
    + rewrite !drawnContent_createDocumentCanvas. now rewrite E.
Qed.

Lemma layout_independent_of_measurement_and_randomness_witness :
  (forall font s, (geometryWidth font s == metricsWidth font s)%Q) /\
  (forall font maxWidth text,
      wrapText (geometryWidth font) maxWidth text
      = wrapText (metricsWidth font) maxWidth text) /\
  (forall editor,
      measurePass geometryWidth editor = measurePass metricsWidth editor /\
      pageHeightOf geometryWidth editor = pageHeightOf metricsWidth editor /\
      canvas_height (createDocumentCanvas geometryWidth (fun _ => 0%Q) editor)
      = canvas_height (createDocumentCanvas metricsWidth (fun i => 1 # 2) editor) /\
      drawnContent (createDocumentCanvas geometryWidth (fun _ => 0%Q) editor)
      = drawnContent (createDocumentCanvas metricsWidth (fun i => 1 # 2) editor)).
Proof.
  assert (Hsame : forall font s, (geometryWidth font s == metricsWidth font s)%Q).
  { intros font s. unfold geometryWidth, metricsWidth. apply Qmult_comm. }
  split; [exact Hsame|].
  exact (layout_independent_of_measurement_and_randomness
           geometryWidth metricsWidth (fun _ => 0%Q) (fun i => 1 # 2) Hsame).
Defined.

(** ** The overflow controller: one run *)

Lemma querySelector_line_discard (nextEditor : Page) :
  match querySelector_line nextEditor with
  | Some (i, firstLineOfNext) =>
      if blank firstLineOfNext then delete i nextEditor else nextEditor
  | None => nextEditor
  end = discardFirstLineIfBlank nextEditor.
Proof.
  induction nextEditor as [|b rest IH]; simpl; [reflexivity|].
  destruct (is_line b); [now destruct (blank b)|].
  destruct (querySelector_line rest) as [[i l]|].
  - destruct (blank l); simpl; now rewrite <- IH.
  - now rewrite <- IH.
Qed.

Lemma discardFirstLineIfBlank_length (nextPage : Page) :
  length (discardFirstLineIfBlank nextPage) <= length nextPage.
Proof.
  induction nextPage as [|b rest IH]; simpl; [lia|].
  destruct (is_line b); [destruct (blank b); simpl; lia|simpl; lia].
Qed.

Lemma discardFirstLineIfBlank_drops (nextPage : Page) :
  length (discardFirstLineIfBlank nextPage)
  + (if match querySelector_line nextPage with
        | Some (_, firstLine) => blank firstLine
        | None => false
        end then 1 else 0)
  = length nextPage.
Proof.
  induction nextPage as [|b rest IH]; simpl; [reflexivity|].
  destruct (is_line b); [destruct (blank b); simpl; lia|].
  destruct (querySelector_line rest) as [[i l]|]; simpl in *; lia.
Qed.

Lemma discardFirstLineIfBlank_newLine (font : string) :
  discardFirstLineIfBlank [newLine font] = [].
Proof. reflexivity. Qed.

Lemma lookup_after {A} (before : list A) (x y : A) (rest : list A) :
  (before ++ x :: y :: rest) !! S (length before) = Some y.
Proof.
  rewrite lookup_app_r by lia.
  now replace (S (length before) - length before) with 1 by lia.
Qed.

Lemma insert_middle {A} (before : list A) (x x' : A) (rest : list A) :
  <[length before := x']> (before ++ x :: rest) = before ++ x' :: rest.
Proof.
  rewrite insert_app_r_alt by lia. now rewrite Nat.sub_diag.
Qed.

Lemma insert_after {A} (before : list A) (x y y' : A) (rest : list A) :
  <[S (length before) := y']> (before ++ x :: y :: rest) = before ++ x :: y' :: rest.
Proof.
  rewrite insert_app_r_alt by lia.
  now replace (S (length before) - length before) with 1 by lia.
Qed.

Lemma split_at_lookup {A} (l : list A) (i : nat) (x : A) :
  l !! i = Some x -> exists before rest, l = before ++ x :: rest /\ i = length before.
Proof.
  intros H. exists (take i l), (drop (S i) l). split.
  - symmetry. now apply take_drop_middle.
  - rewrite length_take. apply lookup_lt_Some in H. lia.
Qed.

Lemma split_last {A} (l : list A) :
  1 < length l -> exists front x, l = front ++ [x] /\ front <> [].
Proof.
  intros H. destruct (exists_last (l:=l)) as [front [x E]].
  - intros ->. simpl in H. lia.
  - exists front, x. split; [exact E|]. intros ->. subst l. simpl in H. lia.
Qed.

Lemma navigateToPage_next (ps : list Page) (c : nat) (font : string) :
  S c < length ps ->
  navigateToPage (Z.of_nat c + 1) (mkDoc ps c font) = mkDoc ps (S c) font.
Proof.
  intros H. unfold navigateToPage. cbn [pages currentPageIndex state_font].
  destruct ((_ <? 0)%Z || (_ <=? _)%Z) eqn:E.
  - apply orb_true_iff in E. destruct E as [E|E].
    + apply Z.ltb_lt in E. lia.
    + apply Z.leb_le in E. lia.
  - f_equal. lia.
Qed.

Section OverflowStep.

Variable offsetHeight : Block -> Z.

Local Abbreviation step := (checkPageOverflow offsetHeight).
Local Abbreviation heightOf := (contentHeight offsetHeight).

(** A run on a page that is too high and holds two blocks or more. *)
Lemma checkPageOverflow_moves (before : list Page) (front : Page) (lastElement : Block)
  (rest : list Page) (font : string) :
  front <> [] ->
  (MAX_PAGE_HEIGHT < heightOf (front ++ [lastElement]))%Z ->
  step (mkDoc (before ++ (front ++ [lastElement]) :: rest) (length before) font)
  = (mkDoc (before ++ front :: receive lastElement rest)
           (if caret lastElement then S (length before) else length before)
           font,
     true).
Proof using Type.
  intros Hfront Hhigh. unfold checkPageOverflow, getCurrentEditor.
  cbn [pages currentPageIndex state_font].
  rewrite list_lookup_middle by reflexivity.
  rewrite (proj2 (Z.ltb_lt _ _) Hhigh).
  assert (Hlen : (length (front ++ [lastElement]) <=? 1) = false).
  { apply Nat.leb_gt. rewrite length_app. destruct front; [congruence|simpl; lia]. }
  rewrite Hlen, last_snoc, removelast_last.
  destruct rest as [|nextPage after].
  - match goal with
    | |- context [Nat.eqb ?a ?b] =>
        replace (Nat.eqb a b) with true
          by (symmetry; apply Nat.eqb_eq; rewrite length_app; simpl; lia)
    end.
    unfold createNewPage. cbn [pages currentPageIndex state_font].
    rewrite <- app_assoc. cbn [app].
    rewrite lookup_after, querySelector_line_discard, discardFirstLineIfBlank_newLine.
    rewrite insert_middle, insert_after. unfold receive.
    destruct (caret lastElement); [|reflexivity].
    rewrite navigateToPage_next; [reflexivity|].
    rewrite length_app. simpl. lia.
  - match goal with
    | |- context [Nat.eqb ?a ?b] =>
        replace (Nat.eqb a b) with false
          by (symmetry; apply Nat.eqb_neq; rewrite length_app; simpl; lia)
    end.
    cbn [pages currentPageIndex state_font].
    rewrite lookup_after, querySelector_line_discard.
    rewrite insert_middle, insert_after. unfold receive.
    destruct (caret lastElement); [|reflexivity].
    rewrite navigateToPage_next; [reflexivity|].
    rewrite length_app. simpl. lia.
Qed.

(** A run on a page that fits, or that holds one block at most, and a
    run without an active page change nothing. *)
Lemma checkPageOverflow_idle (d : Doc) :
  match getCurrentEditor d with
  | None => True
  | Some editor =>
      (heightOf editor <= MAX_PAGE_HEIGHT)%Z \/ length editor <= 1
  end ->
  step d = (d, false).
Proof using Type.
  unfold checkPageOverflow. destruct (getCurrentEditor d) as [editor|]; [|reflexivity].
  intros [H|H].
  - now rewrite (proj2 (Z.ltb_ge _ _) H).
  - rewrite (proj2 (Nat.leb_le _ _) H). now destruct (_ <? _)%Z.
Qed.

(** Every run is of one of the two kinds. *)
Lemma checkPageOverflow_cases (d : Doc) :
  (step d = (d, false) /\
   match getCurrentEditor d with
   | None => True
   | Some editor =>
       (heightOf editor <= MAX_PAGE_HEIGHT)%Z \/ length editor <= 1
   end) \/
  (exists (before : list Page) (front : Page) (lastElement : Block) (rest : list Page),
      d = mkDoc (before ++ (front ++ [lastElement]) :: rest) (length before) (state_font d) /\
      front <> [] /\
      (MAX_PAGE_HEIGHT < heightOf (front ++ [lastElement]))%Z).
Proof using Type.
  destruct (getCurrentEditor d) as [editor|] eqn:He.
  - destruct (Z.le_gt_cases (heightOf editor) MAX_PAGE_HEIGHT) as [Hfit|Hhigh].
    { left. split; [apply checkPageOverflow_idle|]; rewrite ?He; now left. }
    destruct (Nat.le_gt_cases (length editor) 1) as [Hone|Hmore].
    { left. split; [apply checkPageOverflow_idle|]; rewrite ?He; now right. }
    right. unfold getCurrentEditor in He.
    destruct (split_at_lookup _ _ _ He) as [before [rest [Hp Hc]]].
    destruct (split_last editor Hmore) as [front [lastElement [-> Hfront]]].
    exists before, front, lastElement, rest. split; [|split; assumption].
    destruct d as [ps c font]. simpl in *. now subst.
  - left. split; [|exact I]. apply checkPageOverflow_idle. now rewrite He.
Qed.

End OverflowStep.

Section OverflowFacts.

Variable offsetHeight : Block -> Z.

Local Abbreviation step := (checkPageOverflow offsetHeight).
Local Abbreviation heightOf := (contentHeight offsetHeight).

Lemma receive_length (lastElement : Block) (rest : list Page) :
  length (concat (receive lastElement rest)) <= S (length (concat rest)).
Proof using Type.
  destruct rest as [|nextPage after]; simpl; [lia|].
  rewrite !length_app. pose proof (discardFirstLineIfBlank_length nextPage). lia.
Qed.

Lemma receive_head_length (lastElement : Block) (rest : list Page) :
  length (default [] (head (receive lastElement rest)))
  <= length (concat (receive lastElement rest)).
Proof using Type.
  destruct rest as [|nextPage after]; simpl; [lia|]. rewrite length_app. lia.
Qed.

(** Every run that asks for another one brings [pending] down. *)
Lemma pending_decreases (d : Doc) :
  (step d).2 = true -> pending (step d).1 < pending d.
Proof using Type.
  destruct (checkPageOverflow_cases offsetHeight d)
    as [[-> _]|(before & front & lastElement & rest & -> & Hfront & Hhigh)];
    [discriminate|].
  cbn [state_font]. rewrite (checkPageOverflow_moves _ _ _ _ _ _ Hfront Hhigh).
  intros _. cbn [fst]. unfold pending, getCurrentEditor.
  cbn [pages currentPageIndex].
  pose proof (receive_length lastElement rest) as Hr.
  pose proof (receive_head_length lastElement rest) as Hh.
  assert (Hf : 0 < length front) by (destruct front; [congruence|simpl; lia]).
  rewrite (list_lookup_middle before rest _ (length before) eq_refl).
  rewrite (drop_app_length before).
  cbn [default concat]. rewrite !length_app. cbn [length].
  destruct (caret lastElement).
  - replace (before ++ front :: receive lastElement rest)
      with ((before ++ [front]) ++ receive lastElement rest)
      by (now rewrite <- app_assoc).
    replace (S (length before)) with (length (before ++ [front]))
      by (rewrite length_app; simpl; lia).
    rewrite drop_app_length.
    rewrite lookup_app_r by lia. rewrite Nat.sub_diag.
    rewrite <- head_lookup. unfold id in *. rewrite length_app. cbn [length].
    set (r := length (concat rest)) in *.
    set (R := length (concat (receive lastElement rest))) in *.
    assert (R * R <= (r + 1) * (r + 1)) by (apply Nat.mul_le_mono; lia).
    assert ((r + 2) * (r + 2) <= (length front + 1 + r) * (length front + 1 + r))
      by (apply Nat.mul_le_mono; lia).
    lia.
  - rewrite list_lookup_middle by reflexivity. rewrite drop_app_length.
    cbn [default concat]. unfold id in *. rewrite !length_app. cbn [length].
    set (r := length (concat rest)) in *.
    set (R := length (concat (receive lastElement rest))) in *.
    assert ((length front + R) * (length front + R)
            <= (length front + 1 + r) * (length front + 1 + r))
      by (apply Nat.mul_le_mono; lia).
    lia.
Qed.

(** X11. The chain of runs started by an input event comes to an end. *)
Lemma settle_terminates (d : Doc) :
  exists d', settle offsetHeight (S (pending d)) d = Some d'.
Proof using Type.
  remember (pending d) as n eqn:Hn.
  assert (Hle : pending d <= n) by lia. clear Hn.
  revert d Hle. induction n as [|n IH]; intros d Hle.
  - simpl. destruct (step d) as [d' again] eqn:E.
    destruct again; [|now exists d'].
    pose proof (pending_decreases d) as H. rewrite E in H.
    specialize (H eq_refl). lia.
  - cbn [settle]. destruct (step d) as [d' again] eqn:E.
    destruct again; [|now exists d'].
    apply IH. pose proof (pending_decreases d) as H. rewrite E in H.
    specialize (H eq_refl). simpl in H. lia.
Qed.

End OverflowFacts.

(** ** The overflow controller: what one run moves *)

(** C3, as the code has it. On an active page that is too high and holds
    two blocks or more, one run of [checkPageOverflow] first appends, when
    the active page is the last one, a new page made of one empty line in
    the current font; it then takes the last block off the active page
    and puts it in front of the next page, from which the first line (the
    first block that is a line, also behind image blocks) has been
    discarded when that line is empty or all whitespace. The active
    index follows the moved block when the caret is inside it, and
    another run is asked for. *)
Theorem checkPageOverflow_migrates_last_block
  (offsetHeight : Block -> Z) (before : list Page) (front : Page)
  (lastElement : Block) (rest : list Page) (font : string) :
  front <> [] ->
  (MAX_PAGE_HEIGHT < contentHeight offsetHeight (front ++ [lastElement]))%Z ->
  let d := mkDoc (before ++ (front ++ [lastElement]) :: rest) (length before) font in
  let d1 := match rest with [] => createNewPage d | _ :: _ => d end in
  let d' := (checkPageOverflow offsetHeight d).1 in
  (rest = [] -> pages d1 = pages d ++ [[newLine font]]) /\
  (exists nextPage after,
      pages d1 = before ++ (front ++ [lastElement]) :: nextPage :: after /\
      pages d' = before ++ front :: (lastElement :: discardFirstLineIfBlank nextPage) :: after) /\
  currentPageIndex d' = (if caret lastElement then S (length before) else length before) /\
  (checkPageOverflow offsetHeight d).2 = true.
Proof.
  intros Hfront Hhigh d d1 d'. unfold d', d.
  rewrite (checkPageOverflow_moves _ _ _ _ _ _ Hfront Hhigh). cbn [fst snd pages currentPageIndex].
  split; [|split; [|split; reflexivity]].
  - intros ->. reflexivity.
  - unfold d1, d. destruct rest as [|nextPage after].
    + exists [newLine font], []. unfold createNewPage. cbn [pages state_font].
      rewrite <- app_assoc. split; reflexivity.
    + exists nextPage, after. split; reflexivity.
Qed.

Lemma checkPageOverflow_migrates_last_block_witness :
  let offsetHeight := fun _ : Block => 700%Z in
  let d := mkDoc [[paragraph "A"; paragraph "B"]; [picture; emptyLine]] 0 "special-elite" in
  [paragraph "A"] <> [] /\
  (MAX_PAGE_HEIGHT < contentHeight offsetHeight [paragraph "A"; paragraph "B"])%Z /\
  pages (checkPageOverflow offsetHeight d).1
  = [[paragraph "A"]; [paragraph "B"; picture]] /\
  currentPageIndex (checkPageOverflow offsetHeight d).1 = 0 /\
  (checkPageOverflow offsetHeight d).2 = true.
Proof.
  intros offsetHeight d.
  assert (Hfront : [paragraph "A"] <> []) by discriminate.
  assert (Hhigh : (MAX_PAGE_HEIGHT
                   < contentHeight offsetHeight [paragraph "A"; paragraph "B"])%Z)
    by reflexivity.
  destruct (checkPageOverflow_migrates_last_block offsetHeight
              [] [paragraph "A"] (paragraph "B") [[picture; emptyLine]] "special-elite"
              Hfront Hhigh)
    as (_ & (nextPage & after & Hnext & Hmoved) & Hindex & Hagain).
  injection Hnext as <- <-.
  repeat split; assumption.
Defined.

(** C3 as the description has it asks for the first block of the next
    page to be discarded when it is an empty line, and for nothing else
    to go: below, the next page starts with an image, its empty line
    stands second, and the run discards it all the same. *)
Lemma checkPageOverflow_discards_line_behind_image :
  let offsetHeight := fun _ : Block => 700%Z in
  let d := mkDoc [[paragraph "A"; paragraph "B"]; [picture; emptyLine]] 0 "special-elite" in
  (MAX_PAGE_HEIGHT < contentHeight offsetHeight [paragraph "A"; paragraph "B"])%Z /\
  pages (checkPageOverflow offsetHeight d).1
  <> [[paragraph "A"]; paragraph "B" :: discardPlaceholder [picture; emptyLine]].
Proof.
  split; [reflexivity|]. vm_compute. discriminate.
Qed.

(** C5, as the code has it. One run of [checkPageOverflow] keeps the
    number of blocks of the document, except when it moves a block onto
    a page that existed before and whose first line is empty or all
    whitespace: that line is discarded and the document has one block
    less. No run adds a block. *)
Theorem checkPageOverflow_block_count (offsetHeight : Block -> Z) (d : Doc) :
  total_blocks (pages (checkPageOverflow offsetHeight d).1)
  + (if drops_placeholder offsetHeight d then 1 else 0)
  = total_blocks (pages d).
Proof.
  destruct (checkPageOverflow_cases offsetHeight d)
    as [[-> Hidle]|(before & front & lastElement & rest & -> & Hfront & Hhigh)].
  - cbn [fst]. unfold drops_placeholder.
    destruct (getCurrentEditor d) as [editor|]; [|lia].
    destruct (pages d !! S (currentPageIndex d)) as [nextPage|]; [|lia].
    destruct Hidle as [Hfit|Hone].
    + rewrite (proj2 (Z.ltb_ge _ _) Hfit). simpl. lia.
    + replace (1 <? length editor) with false
        by (symmetry; apply Nat.ltb_ge; exact Hone).
      rewrite andb_false_r. simpl. lia.
  - cbn [state_font]. rewrite (checkPageOverflow_moves _ _ _ _ _ _ Hfront Hhigh).
    cbn [fst pages]. unfold drops_placeholder, getCurrentEditor, total_blocks.
    cbn [pages currentPageIndex].
    rewrite (list_lookup_middle before rest _ (length before) eq_refl).
    rewrite (proj2 (Z.ltb_lt _ _) Hhigh).
    replace (1 <? length (front ++ [lastElement])) with true
      by (symmetry; apply Nat.ltb_lt; rewrite length_app;
          destruct front; [congruence|simpl; lia]).
    destruct rest as [|nextPage after].
    + rewrite lookup_ge_None_2 by (rewrite length_app; simpl; lia).
      rewrite !concat_app. cbn [concat receive]. rewrite !length_app. simpl. lia.
    + rewrite lookup_after. cbn [andb receive].
      rewrite !concat_app. cbn [concat]. rewrite !length_app. cbn [length].
      pose proof (discardFirstLineIfBlank_drops nextPage). lia.
Qed.

(** C5 as the description has it: below, the second page starts with an
    empty line, and the document has four blocks before the run and
    three after it. *)
Lemma checkPageOverflow_loses_a_block :
  let offsetHeight := fun _ : Block => 700%Z in
  let d := mkDoc [[paragraph "A"; paragraph "B"]; [emptyLine; paragraph "C"]] 0 "special-elite" in
  total_blocks (pages (checkPageOverflow offsetHeight d).1) <> total_blocks (pages d).
Proof. vm_compute. discriminate. Qed.

(** ** The overflow controller: the chain of runs *)

(** C4, the code at work. A page holds three paragraphs, each laid out
    600 pixels high, and the caret is in the third. The chain of runs
    ends after two of them: the first moves the third paragraph to a new
    page and takes the active index along, so the second looks at the
    new page and finds nothing to do. The page the chain started from is
    left 1280 pixels high, above the 1200 of the budget, with two blocks
    of which the last could still have been moved. *)
Theorem settle_leaves_source_page_too_high :
  let offsetHeight := fun _ : Block => 600%Z in
  let source := [paragraph "A"; paragraph "B"] in
  let d := mkDoc [source ++ [paragraphWithCaret "C"]] 0 "special-elite" in
  settle offsetHeight 2 d
  = Some (mkDoc [source; [paragraphWithCaret "C"]] 1 "special-elite") /\
  contentHeight offsetHeight source = 1280%Z /\
  (MAX_PAGE_HEIGHT < contentHeight offsetHeight source)%Z /\
  length source = 2.
Proof. vm_compute. repeat split; reflexivity. Qed.

Section OverflowChain.

Variable offsetHeight : Block -> Z.

Local Abbreviation heightOf := (contentHeight offsetHeight).

(** The blocks other than empty lines that the pages after the active
    one hold once the blocks [moved] have arrived, last block first. *)
Lemma receive_chain_content (moved : Page) (rest : list Page) :
  List.filter (fun b => negb (is_line b && blank b)) (concat (fold_right receive rest moved))
  = List.filter (fun b => negb (is_line b && blank b)) (moved ++ concat rest).
Proof using Type.
  induction moved as [|b moved IH]; [reflexivity|].
  cbn [fold_right]. destruct (fold_right receive rest moved) as [|nextPage after] eqn:E.
  - cbn [receive concat app List.filter] in *. rewrite <- IH. reflexivity.
  - cbn [receive concat] in *.
    change ((b :: discardFirstLineIfBlank nextPage) ++ concat after)
      with ([b] ++ (discardFirstLineIfBlank nextPage ++ concat after)).
    change ((b :: moved) ++ concat rest) with ([b] ++ (moved ++ concat rest)).
    rewrite (List.filter_app _ [b] (discardFirstLineIfBlank nextPage ++ concat after)).
    rewrite (List.filter_app _ [b] (moved ++ concat rest)).
    f_equal. rewrite <- IH, !List.filter_app. f_equal. clear.
    induction nextPage as [|x nextPage IHn]; [reflexivity|].
    cbn [discardFirstLineIfBlank]. destruct (is_line x) eqn:El.
    + destruct (blank x) eqn:Eb; [|reflexivity]. cbn [List.filter]. now rewrite El, Eb.
    + cbn [List.filter]. rewrite El. cbn [andb negb]. now rewrite IHn.
Qed.

(** X12. The chain of runs on a page none of whose blocks holds the
    caret: trailing blocks leave the page one by one, each one going to
    the front of the next page (which is created when there is none,
    and loses its first line when that line is empty), until the page
    fits or is down to one block, and not one more. The pages before
    are untouched, the active page stays active, and no block other
    than an empty line is lost or changes its place in reading order. *)
Lemma settle_converges (editor : Page) :
  Forall (fun b => caret b = false) editor ->
  forall (before rest : list Page) (font : string),
  exists frames kept moved,
    editor = kept ++ moved /\
    settle offsetHeight frames (mkDoc (before ++ editor :: rest) (length before) font)
    = Some (mkDoc (before ++ kept :: fold_right receive rest moved)
                  (length before) font) /\
    content_blocks (before ++ kept :: fold_right receive rest moved)
    = content_blocks (before ++ editor :: rest) /\
    ((heightOf kept <= MAX_PAGE_HEIGHT)%Z \/ length kept <= 1) /\
    (forall n, length kept < n <= length editor ->
               (MAX_PAGE_HEIGHT < heightOf (take n editor))%Z /\ 1 < n).
Proof using Type.
  assert (Hcontent : forall (before : list Page) (kept moved : Page) (rest : list Page),
             content_blocks (before ++ kept :: fold_right receive rest moved)
             = content_blocks (before ++ (kept ++ moved) :: rest)).
  { intros before kept moved rest. unfold content_blocks.
    rewrite !concat_app. cbn [concat]. rewrite !List.filter_app.
    rewrite receive_chain_content, List.filter_app. now rewrite <- !app_assoc. }
  induction editor as [|lastElement front IH] using rev_ind; intros Hcaret before rest font.
  - exists 1, [], []. split; [reflexivity|]. split.
    + cbn [settle fold_right]. rewrite checkPageOverflow_idle; [reflexivity|].
      unfold getCurrentEditor. cbn [pages currentPageIndex].
      rewrite list_lookup_middle by reflexivity. right. simpl. lia.
    + split; [reflexivity|]. split; [right; simpl; lia|]. intros n Hn. simpl in Hn. lia.
  - apply Forall_app in Hcaret. destruct Hcaret as [Hfront Hlast].
    apply Forall_inv in Hlast.
    destruct (Z.le_gt_cases (heightOf (front ++ [lastElement])) MAX_PAGE_HEIGHT)
      as [Hfit|Hhigh];
      [|destruct (Nat.le_gt_cases (length (front ++ [lastElement])) 1) as [Hone|Hmore]].
    + exists 1, (front ++ [lastElement]), [].
      split; [now rewrite app_nil_r|]. split.
      * cbn [settle fold_right]. rewrite checkPageOverflow_idle; [reflexivity|].
        unfold getCurrentEditor. cbn [pages currentPageIndex].
        rewrite list_lookup_middle by reflexivity. now left.
      * split; [reflexivity|]. split; [now left|]. intros n Hn. lia.
    + exists 1, (front ++ [lastElement]), [].
      split; [now rewrite app_nil_r|]. split.
      * cbn [settle fold_right]. rewrite checkPageOverflow_idle; [reflexivity|].
        unfold getCurrentEditor. cbn [pages currentPageIndex].
        rewrite list_lookup_middle by reflexivity. now right.
      * split; [reflexivity|]. split; [now right|]. intros n Hn. lia.
    + assert (Hne : front <> []).
      { intros ->. simpl in Hmore. lia. }
      destruct (IH Hfront before (receive lastElement rest) font)
        as (frames & kept & moved & Hsplit & Hrun & _ & Hend & Hmin).
      exists (S frames), kept, (moved ++ [lastElement]).
      assert (Hfold : fold_right receive rest (moved ++ [lastElement])
                      = fold_right receive (receive lastElement rest) moved)
        by (now rewrite fold_right_app).
      split; [rewrite Hsplit; now rewrite app_assoc|]. split.
      * cbn [settle]. rewrite (checkPageOverflow_moves _ _ _ _ _ _ Hne Hhigh).
        rewrite Hlast, Hfold. exact Hrun.
      * split; [rewrite Hcontent, Hsplit; now rewrite app_assoc|].
        split; [exact Hend|]. intros n Hn. rewrite length_app in Hn. simpl in Hn.
        destruct (Nat.eq_dec n (length front + 1)) as [->|Hn'].
        -- rewrite take_ge by (rewrite length_app; simpl; lia).
           split; [exact Hhigh|]. rewrite length_app in Hmore. simpl in Hmore. lia.
        -- rewrite take_app_le by lia. apply Hmin. lia.
Qed.

End OverflowChain.

(** ** Plain-text export *)

Lemma fold_left_lines (lines : list Block) (text : jsstring) :
  fold_left (fun text line => text ++ textContent line ++ LF) lines text
  = text ++ concat (map (fun line => textContent line ++ LF) lines).
Proof.
  revert text. induction lines as [|line lines IH]; intros text; simpl.
  - now rewrite app_nil_r.
  - rewrite IH. now rewrite <- !app_assoc.
Qed.

Lemma pageSeparator_Seite (n : nat) :
  (LF ++ js "--- Seite ") ++ decimal n ++ (js " ---" ++ LF ++ LF)
  = pageSeparator "Seite" n.
Proof. reflexivity. Qed.

(** The loop of [getEditorText] over the pages that remain, [k] pages
    into a document of [total] pages. *)
Lemma getEditorText_loop (total : nat) (todo : list Page) (k : nat) (text : jsstring) :
  k + length todo = total ->
  fold_left
    (fun (text : jsstring) (entry : nat * Page) =>
       let '(pageIndex, page) := entry in
       let lines := List.filter is_line page in
       let text := fold_left (fun text line => text ++ textContent line ++ LF) lines text in
       if pageIndex <? total - 1
       then text ++ (LF ++ js "--- Seite ") ++ decimal (pageIndex + 2)
                 ++ (js " ---" ++ LF ++ LF)
       else text)
    (imap (fun i page => (k + i, page)) todo) text
  = text ++ joinPages "Seite" (S k) todo.
Proof.
  revert k text. induction todo as [|page rest IH]; intros k text Hk.
  - simpl. now rewrite app_nil_r.
  - rewrite imap_cons. cbn [fold_left]. rewrite Nat.add_0_r.
    rewrite (imap_ext _ (fun i page => (S k + i, page)))
      by (intros i x _; simpl; f_equal; lia).
    rewrite IH by (simpl in Hk; lia).
    rewrite fold_left_lines. cbn [joinPages]. fold (pageLines page).
    destruct rest as [|page' rest].
    + replace (k <? total - 1) with false
        by (symmetry; apply Nat.ltb_ge; simpl in Hk; lia).
      simpl. now rewrite !app_nil_r.
    + replace (k <? total - 1) with true
        by (symmetry; apply Nat.ltb_lt; simpl in Hk; lia).
      rewrite pageSeparator_Seite.
      replace (k + 2) with (S (S k)) by lia.
      now rewrite <- !app_assoc.
Qed.

(** C6, as the code has it. The plain-text export is the lines of every
    page in order, image blocks left out, each line followed by a line
    terminator, with the separator "\n--- Seite <n> ---\n\n" between
    consecutive pages, [n] being the number of the page that follows,
    and with trailing whitespace removed; the document of the two pages
    ["A"] and ["B"] is exported as "A\n\n--- Seite 2 ---\n\nB". *)
Theorem getEditorText_plain_text :
  (forall d, getEditorText d = plainTextExport "Seite" (pages d)) /\
  getEditorText (mkDoc [[paragraph "A"]; [paragraph "B"]] 0 "special-elite")
  = js "A" ++ LF ++ LF ++ js "--- Seite 2 ---" ++ LF ++ LF ++ js "B".
Proof.
  split; [|reflexivity].
  intros d. unfold getEditorText, plainTextExport. f_equal.
  exact (getEditorText_loop (length (pages d)) (pages d) 0 [] eq_refl).
Qed.

(** C6 as the description has it: the separator of the export does not
    read "Page". *)
Lemma getEditorText_separator_is_not_Page :
  getEditorText (mkDoc [[paragraph "A"]; [paragraph "B"]] 0 "special-elite")
  <> js "A" ++ LF ++ LF ++ js "--- Page 2 ---" ++ LF ++ LF ++ js "B".
Proof. vm_compute. discriminate. Qed.

(** ** The PNG export: which pages are exported *)

Lemma trimStart_nil (s : jsstring) : trimStart s = [] <-> has_text s = false.
Proof.
  unfold has_text. induction s as [|c s IH]; simpl; [tauto|].
  destruct (is_whitespace c); simpl; [exact IH|]. split; discriminate.
Qed.

Lemma has_text_rev (s : jsstring) : has_text (rev s) = has_text s.
Proof.
  unfold has_text. induction s as [|c s IH]; simpl; [reflexivity|].
  rewrite existsb_app, IH. simpl. rewrite orb_false_r. apply orb_comm.
Qed.

Lemma has_text_trimStart (s : jsstring) : has_text (trimStart s) = has_text s.
Proof.
  unfold has_text. induction s as [|c s IH]; simpl; [reflexivity|].
  destruct (is_whitespace c) eqn:E; simpl; [exact IH|]. now rewrite E.
Qed.

Lemma truthy_trim (s : jsstring) : truthy (trim s) = has_text s.
Proof.
  unfold trim, trimEnd.
  destruct (has_text s) eqn:E.
  - apply truthy_true. intros H.
    apply (f_equal (@rev _)) in H. rewrite rev_involutive in H. simpl in H.
    apply trimStart_nil in H. rewrite has_text_rev, has_text_trimStart in H.
    congruence.
  - apply truthy_false. apply trimStart_nil in E. now rewrite E.
Qed.

Lemma has_text_app (s t : jsstring) : has_text (s ++ t) = has_text s || has_text t.
Proof. unfold has_text. apply existsb_app. Qed.

Lemma has_text_editor (page : Page) :
  has_text (editorTextContent page)
  = existsb (fun b => has_text (textContent b)) page.
Proof.
  unfold editorTextContent. induction page as [|b page IH]; simpl; [reflexivity|].
  now rewrite has_text_app, IH.
Qed.

Lemma length_positive_truthy (s : jsstring) : (0 <? length s) = truthy s.
Proof. now destruct s. Qed.

Lemma filter_nonempty_existsb {A} (f : A -> bool) (l : list A) :
  (0 <? length (List.filter f l)) = existsb f l.
Proof.
  induction l as [|x l IH]; simpl; [reflexivity|].
  destruct (f x); simpl; [reflexivity|exact IH].
Qed.

(** The filter of [savePNG] keeps the pages that qualify. *)
Lemma hasContent_qualifies (page : Page) : hasContent page = qualifies page.
Proof.
  unfold hasContent, qualifies.
  rewrite length_positive_truthy, truthy_trim, has_text_editor, filter_nonempty_existsb.
  induction page as [|b page IH]; simpl; [reflexivity|].
  destruct b as [[font runs|img] c].
  - change (is_line (mkBlock (LineDiv font runs) c)) with true.
    change (is_image_line (mkBlock (LineDiv font runs) c)) with false.
    cbn [andb orb].
    destruct (has_text (textContent (mkBlock (LineDiv font runs) c)));
      [reflexivity|exact IH].
  - change (is_image_line (mkBlock (ImageDiv img) c)) with true.
    cbn [orb]. now rewrite !orb_true_r.
Qed.

Lemma filter_hasContent (ps : list Page) :
  List.filter hasContent ps = List.filter qualifies ps.
Proof. apply List.filter_ext. intros page. apply hasContent_qualifies. Qed.

(** ** The PNG export: the calls it makes *)

Section SavePNGFacts.

Variable host : Collaborators.

Lemma for_each_writes (folderPath : jsstring) (items : list Page) (i : nat)
  (tr : list Event) :
  (forall filePath, fs_writeFile host filePath = true) ->
  (forall editor, render_ok host editor = true) ->
  for_each
    (fun i editor =>
       renderBlob host editor ;;;
       writeFile host (folderPath ++ js "/" ++ pageFileName i) editor ;;;
       emit ConsoleLog)
    i items tr
  = (tr ++ concat (imap (fun j editor =>
                           [CreateCanvas editor;
                            WriteFile (folderPath ++ js "/" ++ pageFileName (i + j)) editor;
                            ConsoleLog])
                        items),
     Some tt).
Proof using Type.
  intros Hwrite Hrender. revert i tr.
  induction items as [|editor rest IH]; intros i tr.
  - simpl. unfold ret. now rewrite app_nil_r.
  - cbn [for_each]. unfold bind at 1.
    unfold bind at 1, renderBlob, writeFile, bind, emit, ret.
    rewrite Hrender, Hwrite. fold (@bind unit unit).
    rewrite IH. rewrite imap_cons. cbn [concat]. rewrite Nat.add_0_r.
    rewrite (imap_ext (_ ∘ S) (fun j editor =>
               [CreateCanvas editor;
                WriteFile (folderPath ++ js "/" ++ pageFileName (S i + j)) editor;
                ConsoleLog]))
      by (intros j x _; simpl; repeat f_equal; lia).
    now rewrite <- !app_assoc.
Qed.

Lemma for_each_downloads (n : nat) (items : list Page) (i : nat) (tr : list Event) :
  i + length items = n ->
  (forall editor, render_ok host editor = true) ->
  for_each
    (fun i editor =>
       renderBlob host editor ;;;
       emit (Download (if n =? 1 then js "dokument.png" else pageFileName i) editor) ;;;
       if i <? n - 1 then emit (SetTimeout 500) else ret tt)
    i items tr
  = (tr ++ joinWith [SetTimeout 500]
             (imap (fun j editor =>
                      [CreateCanvas editor;
                       Download (if n =? 1 then js "dokument.png"
                                 else pageFileName (i + j)) editor])
                   items),
     Some tt).
Proof using Type.
  intros Hn Hrender.
  match goal with |- for_each ?b _ _ _ = _ => set (body := b) end.
  assert (Hbody : forall i editor tr,
             body i editor tr
             = (tr ++ [CreateCanvas editor;
                       Download (if n =? 1 then js "dokument.png"
                                 else pageFileName i) editor]
                   ++ (if i <? n - 1 then [SetTimeout 500] else []),
                Some tt)).
  { intros j editor tr0. unfold body, renderBlob, bind, emit, ret.
    rewrite Hrender. destruct (j <? n - 1); simpl; now rewrite <- !app_assoc. }
  clearbody body. revert i tr Hn.
  induction items as [|editor rest IH]; intros i tr Hn.
  - simpl. unfold ret. now rewrite app_nil_r.
  - cbn [for_each]. unfold bind. rewrite Hbody.
    rewrite IH by (simpl in Hn |- *; lia).
    rewrite imap_cons. cbn [joinWith]. rewrite Nat.add_0_r.
    rewrite (imap_ext (_ ∘ S) (fun j editor =>
               [CreateCanvas editor;
                Download (if n =? 1 then js "dokument.png"
                          else pageFileName (S i + j)) editor]))
      by (intros j x _; simpl; now rewrite Nat.add_succ_r).
    destruct rest as [|editor' rest].
    + replace (i <? n - 1) with false
        by (symmetry; apply Nat.ltb_ge; simpl in Hn; lia).
      simpl. now rewrite <- !app_assoc.
    + replace (i <? n - 1) with true
        by (symmetry; apply Nat.ltb_lt; simpl in Hn; lia).
      now rewrite <- !app_assoc.
Qed.

Lemma downloadAll_trace (selected : list Page) (tr : list Event) :
  (forall editor, render_ok host editor = true) ->
  downloadAll host selected tr = (tr ++ downloadTrace selected, Some tt).
Proof using Type.
  intros Hrender. unfold downloadAll, downloadTrace.
  now rewrite (for_each_downloads (length selected) selected 0 tr eq_refl Hrender).
Qed.

(** Nothing that [savePNG] calls makes it throw. *)
Lemma savePNG_never_throws (d : Doc) (tr : list Event) :
  (savePNG host d tr).2 = Some tt.
Proof using Type.
  unfold savePNG. destruct (length _ =? 0); [reflexivity|].
  unfold try_catch, bind, emit.
  destruct (saveViaDialog host _ tr) as [tr1 [[]|]]; [reflexivity|].
  destruct (downloadAll host _ _) as [tr2 [[]|]]; reflexivity.
Qed.

End SavePNGFacts.

(** Without a page that has content, [savePNG] calls nothing, whatever
    the collaborators would have answered. *)
Lemma savePNG_nothing_to_export (host : Collaborators) (d : Doc) :
  List.filter qualifies (pages d) = [] -> savePNG host d [] = ([], Some tt).
Proof.
  intros Hnone. unfold savePNG. now rewrite filter_hasContent, Hnone.
Qed.

(** C7. [savePNG] exports the pages with content (text that is not
    whitespace, or an image). With none it calls nothing; with exactly
    one it renders that page and opens the save dialog for one file, and
    writes the file the user names; with more than one it asks once for
    a folder and, page after page, renders the page and writes the file
    numbered by the position of the page among the exported ones. A
    document of three pages of which only the second has content is
    exported as one file, through the save dialog. *)
Theorem savePNG_exports_pages_with_content
  (host : Collaborators) (d : Doc) (filePath folderPath : jsstring) :
  dialog_save host = Chosen filePath -> truthy filePath = true ->
  dialog_open host = Chosen folderPath -> truthy folderPath = true ->
  (forall filePath, fs_writeFile host filePath = true) ->
  (forall editor, render_ok host editor = true) ->
  let selected := List.filter qualifies (pages d) in
  savePNG host d []
  = (match selected with
     | [] => []
     | [editor] => singleSaveTrace editor filePath
     | _ :: _ :: _ => folderSaveTrace folderPath selected
     end, Some tt) /\
  savePNG host (mkDoc [[emptyLine]; [paragraph "Hello World"]; [emptyLine]] 0 "special-elite") []
  = (singleSaveTrace [paragraph "Hello World"] filePath, Some tt).
Proof.
  intros Hsave Hpath Hopen Hfolder Hwrite Hrender selected.
  assert (Hgen : forall d,
             savePNG host d []
             = (match List.filter qualifies (pages d) with
                | [] => []
                | [editor] => singleSaveTrace editor filePath
                | _ :: _ :: _ => folderSaveTrace folderPath (List.filter qualifies (pages d))
                end, Some tt)).
  { clear d selected. intros d. unfold savePNG. rewrite filter_hasContent.
    destruct (List.filter qualifies (pages d)) as [|editor [|editor' rest]].
    - reflexivity.
    - cbn [length Nat.eqb]. unfold try_catch, saveViaDialog. cbn [length Nat.eqb].
      unfold bind, renderBlob, askDialog, writeFile, bind, emit, ret.
      now rewrite Hrender, Hsave, Hpath, Hwrite.
    - cbn [length Nat.eqb]. unfold try_catch, saveViaDialog. cbn [length Nat.eqb].
      unfold bind at 1. unfold askDialog, bind at 1, emit at 1.
      rewrite Hopen, Hfolder. unfold ret at 1. unfold bind at 1.
      rewrite (for_each_writes host folderPath _ 0 _ Hwrite Hrender).
      unfold emit, folderSaveTrace. reflexivity. }
  split; [apply Hgen|]. rewrite Hgen. reflexivity.
Qed.

Lemma savePNG_exports_pages_with_content_witness :
  dialog_save obligingHost = Chosen (js "/tmp/out.png") /\
  dialog_open obligingHost = Chosen (js "/tmp/out") /\
  savePNG obligingHost
    (mkDoc [[paragraph "A"]; [emptyLine]; [picture; emptyLine]] 0 "special-elite") []
  = ([OpenDialog;
      CreateCanvas [paragraph "A"];
      WriteFile (js "/tmp/out/dokument_seite_1.png") [paragraph "A"];
      ConsoleLog;
      CreateCanvas [picture; emptyLine];
      WriteFile (js "/tmp/out/dokument_seite_2.png") [picture; emptyLine];
      ConsoleLog;
      ConsoleLog], Some tt) /\
  savePNG obligingHost
    (mkDoc [[emptyLine]; [paragraph "Hello World"]; [emptyLine]] 0 "special-elite") []
  = (singleSaveTrace [paragraph "Hello World"] (js "/tmp/out.png"), Some tt).
Proof.
  destruct (savePNG_exports_pages_with_content obligingHost
              (mkDoc [[paragraph "A"]; [emptyLine]; [picture; emptyLine]] 0 "special-elite")
              (js "/tmp/out.png") (js "/tmp/out")
              eq_refl eq_refl eq_refl eq_refl (fun _ => eq_refl) (fun _ => eq_refl))
    as [Hmany Hone].
  split; [reflexivity|]. split; [reflexivity|]. split; [exact Hmany|exact Hone].
Defined.

(** The loop over the pages of an export into a folder, up to the
    first write that throws. *)
Lemma for_each_writes_until (host : Collaborators) (folderPath : jsstring)
  (written : list Page) (failed : Page) (rest : list Page) (i : nat) (tr : list Event) :
  (forall editor, render_ok host editor = true) ->
  (forall j, j < length written ->
             fs_writeFile host (folderPath ++ js "/" ++ pageFileName (i + j)) = true) ->
  fs_writeFile host (folderPath ++ js "/" ++ pageFileName (i + length written)) = false ->
  for_each
    (fun i editor =>
       renderBlob host editor ;;;
       writeFile host (folderPath ++ js "/" ++ pageFileName i) editor ;;;
       emit ConsoleLog)
    i (written ++ failed :: rest) tr
  = (tr ++ concat (imap (fun j editor =>
                           [CreateCanvas editor;
                            WriteFile (folderPath ++ js "/" ++ pageFileName (i + j)) editor;
                            ConsoleLog])
                        written)
        ++ [CreateCanvas failed;
            WriteFile (folderPath ++ js "/" ++ pageFileName (i + length written)) failed],
     None).
Proof.
  intros Hrender. revert i tr.
  induction written as [|editor written IH]; intros i tr Hok Hfail.
  - cbn [app for_each length imap concat] in *. rewrite Nat.add_0_r in *.
    unfold bind, renderBlob, writeFile, bind, emit, ret, throw.
    rewrite Hrender, Hfail. now rewrite <- !app_assoc.
  - cbn [app for_each]. unfold bind at 1.
    unfold bind at 1, renderBlob, writeFile, bind, emit, ret.
    assert (H0 : fs_writeFile host (folderPath ++ js "/" ++ pageFileName i) = true).
    { rewrite <- (Nat.add_0_r i). apply Hok. simpl. lia. }
    rewrite Hrender, H0. fold (@bind unit unit).
    rewrite (IH (S i)).
    + rewrite imap_cons. cbn [concat length].
      rewrite (imap_ext (_ ∘ S) (fun j editor =>
                 [CreateCanvas editor;
                  WriteFile (folderPath ++ js "/" ++ pageFileName (S i + j)) editor;
                  ConsoleLog]))
        by (intros j x _; simpl; now rewrite Nat.add_succ_r).
      rewrite Nat.add_0_r, Nat.add_succ_r. now rewrite <- !app_assoc.
    + intros j Hj. replace (S i + j) with (i + S j) by lia. apply Hok. simpl. lia.
    + replace (S i + length written) with (i + length (editor :: written))
        by (simpl; lia). exact Hfail.
Qed.

(** C8, as the code has it. Nothing makes [savePNG] throw. When a
    collaborator throws (the save dialog or the folder dialog rejects,
    the write of the one file fails, or the write of one of the numbered
    files fails) the error is logged and every exported page is
    rendered again and downloaded, with a pause of 500 ms between
    successive pages. A dialog that the user cancels is not a failure:
    the export ends there, nothing is written and nothing is
    downloaded. In every case the calls are those of the attempt,
    followed by the log and the downloads exactly when the attempt
    threw. *)
Theorem savePNG_falls_back_on_exceptions (host : Collaborators) (d : Doc) :
  (forall editor, render_ok host editor = true) ->
  let selected := List.filter hasContent (pages d) in
  let attempt := saveViaDialog host selected [] in
  (savePNG host d []).2 = Some tt /\
  (forall editor, selected = [editor] -> dialog_save host = Rejected ->
     (savePNG host d []).1
     = [CreateCanvas editor; SaveDialog (js "dokument.png"); ConsoleError]
         ++ downloadTrace selected) /\
  (forall editor filePath,
     selected = [editor] -> dialog_save host = Chosen filePath ->
     truthy filePath = true -> fs_writeFile host filePath = false ->
     (savePNG host d []).1
     = [CreateCanvas editor; SaveDialog (js "dokument.png");
        WriteFile filePath editor; ConsoleError]
         ++ downloadTrace selected) /\
  (1 < length selected -> dialog_open host = Rejected ->
     (savePNG host d []).1 = [OpenDialog; ConsoleError] ++ downloadTrace selected) /\
  (forall folderPath written failed rest,
     selected = written ++ failed :: rest -> 1 < length selected ->
     dialog_open host = Chosen folderPath -> truthy folderPath = true ->
     (forall j, j < length written ->
                fs_writeFile host (folderPath ++ js "/" ++ pageFileName j) = true) ->
     fs_writeFile host (folderPath ++ js "/" ++ pageFileName (length written)) = false ->
     (savePNG host d []).1
     = OpenDialog
         :: concat (imap (fun j editor =>
                            [CreateCanvas editor;
                             WriteFile (folderPath ++ js "/" ++ pageFileName j) editor;
                             ConsoleLog])
                         written)
         ++ [CreateCanvas failed;
             WriteFile (folderPath ++ js "/" ++ pageFileName (length written)) failed;
             ConsoleError]
         ++ downloadTrace selected) /\
  (forall editor, selected = [editor] -> dialog_save host = Cancelled ->
     (savePNG host d []).1 = [CreateCanvas editor; SaveDialog (js "dokument.png")]) /\
  (1 < length selected -> dialog_open host = Cancelled ->
     (savePNG host d []).1 = [OpenDialog]) /\
  (selected <> [] ->
   (savePNG host d []).1
   = match attempt.2 with
     | None => attempt.1 ++ ConsoleError :: downloadTrace selected
     | Some _ => attempt.1
     end).
Proof.
  intros Hrender selected attempt.
  assert (Hrun : selected <> [] ->
                 (savePNG host d []).1
                 = match attempt.2 with
                   | None => attempt.1 ++ ConsoleError :: downloadTrace selected
                   | Some _ => attempt.1
                   end).
  { intros Hne. unfold savePNG. fold selected.
    destruct selected as [|editor rest] eqn:E; [congruence|].
    cbn [length Nat.eqb]. unfold try_catch. fold attempt.
    destruct attempt as [tr1 [[]|]]; [reflexivity|].
    cbn [fst snd]. unfold bind, emit.
    rewrite (downloadAll_trace host _ _ Hrender). cbn [fst].
    now rewrite <- app_assoc. }
  assert (Hmany : 1 < length selected ->
                  selected <> [] /\ (length selected =? 1) = false).
  { intros Hlen. split; [intros Hnil; rewrite Hnil in Hlen; simpl in Hlen; lia|].
    apply Nat.eqb_neq. lia. }
  split; [apply savePNG_never_throws|].
  split; [|split; [|split; [|split; [|split; [|split; [|exact Hrun]]]]]].
  - intros editor Hsel Hreject. rewrite Hrun by (rewrite Hsel; discriminate).
    unfold attempt. rewrite Hsel. unfold saveViaDialog. cbn [length Nat.eqb].
    unfold bind, renderBlob, askDialog, bind, emit, ret, throw.
    now rewrite Hrender, Hreject.
  - intros editor filePath Hsel Hsave Hpath Hfail.
    rewrite Hrun by (rewrite Hsel; discriminate).
    unfold attempt. rewrite Hsel. unfold saveViaDialog. cbn [length Nat.eqb].
    unfold bind, renderBlob, askDialog, writeFile, bind, emit, ret, throw.
    now rewrite Hrender, Hsave, Hpath, Hfail.
  - intros Hlen Hreject. destruct (Hmany Hlen) as [Hne Hone].
    rewrite (Hrun Hne). unfold attempt, saveViaDialog. rewrite Hone.
    unfold bind, askDialog, bind, emit, ret, throw. now rewrite Hreject.
  - intros folderPath written failed rest Hsel Hlen Hopen Hfolder Hok Hfail.
    destruct (Hmany Hlen) as [Hne Hone].
    assert (Hattempt :
              attempt
              = (OpenDialog
                   :: concat (imap (fun j editor =>
                                      [CreateCanvas editor;
                                       WriteFile (folderPath ++ js "/" ++ pageFileName j)
                                                 editor;
                                       ConsoleLog])
                                   written)
                   ++ [CreateCanvas failed;
                       WriteFile (folderPath ++ js "/" ++ pageFileName (length written))
                                 failed],
                 None)).
    { unfold attempt, saveViaDialog. rewrite Hone.
      unfold bind at 1. unfold askDialog, bind at 1, emit at 1.
      rewrite Hopen, Hfolder. unfold ret at 1. unfold bind at 1. rewrite Hsel.
      now rewrite (for_each_writes_until host folderPath written failed rest 0 _
                     Hrender Hok Hfail). }
    rewrite (Hrun Hne), Hattempt. cbn [fst snd app]. f_equal.
    rewrite <- !app_assoc. reflexivity.
  - intros editor Hsel Hcancel. rewrite Hrun by (rewrite Hsel; discriminate).
    unfold attempt. rewrite Hsel. unfold saveViaDialog. cbn [length Nat.eqb].
    unfold bind, renderBlob, askDialog, bind, emit, ret.
    now rewrite Hrender, Hcancel.
  - intros Hlen Hcancel. destruct (Hmany Hlen) as [Hne Hone].
    rewrite (Hrun Hne). unfold attempt, saveViaDialog. rewrite Hone.
    unfold bind, askDialog, bind, emit, ret. now rewrite Hcancel.
Qed.

Lemma savePNG_falls_back_on_exceptions_witness :
  (forall editor, render_ok rejectingHost editor = true) /\
  (forall editor, render_ok readOnlyHost editor = true) /\
  (savePNG rejectingHost (mkDoc [[paragraph "Hello World"]] 0 "special-elite") []).1
  = [CreateCanvas [paragraph "Hello World"]; SaveDialog (js "dokument.png");
     ConsoleError;
     CreateCanvas [paragraph "Hello World"];
     Download (js "dokument.png") [paragraph "Hello World"]] /\
  (savePNG rejectingHost
     (mkDoc [[paragraph "A"]; [emptyLine]; [paragraph "B"]] 0 "special-elite") []).1
  = [OpenDialog;
     ConsoleError;
     CreateCanvas [paragraph "A"];
     Download (js "dokument_seite_1.png") [paragraph "A"];
     SetTimeout 500;
     CreateCanvas [paragraph "B"];
     Download (js "dokument_seite_2.png") [paragraph "B"]] /\
  (savePNG readOnlyHost (mkDoc [[paragraph "Hello World"]] 0 "special-elite") []).1
  = [CreateCanvas [paragraph "Hello World"]; SaveDialog (js "dokument.png");
     WriteFile (js "/tmp/out.png") [paragraph "Hello World"];
     ConsoleError;
     CreateCanvas [paragraph "Hello World"];
     Download (js "dokument.png") [paragraph "Hello World"]] /\
  savePNG readOnlyHost
    (mkDoc [[paragraph "A"]; [emptyLine]; [paragraph "B"]] 0 "special-elite") []
  = ([OpenDialog;
      CreateCanvas [paragraph "A"];
      WriteFile (js "/tmp/out/dokument_seite_1.png") [paragraph "A"];
      ConsoleError;
      CreateCanvas [paragraph "A"];
      Download (js "dokument_seite_1.png") [paragraph "A"];
      SetTimeout 500;
      CreateCanvas [paragraph "B"];
      Download (js "dokument_seite_2.png") [paragraph "B"]], Some tt).
Proof.
  assert (Hrejecting : forall editor, render_ok rejectingHost editor = true)
    by (intros editor; reflexivity).
  assert (Hreadonly : forall editor, render_ok readOnlyHost editor = true)
    by (intros editor; reflexivity).
  split; [exact Hrejecting|]. split; [exact Hreadonly|].
  destruct (savePNG_falls_back_on_exceptions rejectingHost
              (mkDoc [[paragraph "Hello World"]] 0 "special-elite") Hrejecting)
    as (_ & Hsave & _).
  destruct (savePNG_falls_back_on_exceptions rejectingHost
              (mkDoc [[paragraph "A"]; [emptyLine]; [paragraph "B"]] 0 "special-elite")
              Hrejecting)
    as (_ & _ & _ & Hopen & _).
  destruct (savePNG_falls_back_on_exceptions readOnlyHost
              (mkDoc [[paragraph "Hello World"]] 0 "special-elite") Hreadonly)
    as (_ & _ & Hwrite & _).
  destruct (savePNG_falls_back_on_exceptions readOnlyHost
              (mkDoc [[paragraph "A"]; [emptyLine]; [paragraph "B"]] 0 "special-elite")
              Hreadonly)
    as (Hok & _ & _ & _ & Hfolder & _).
  split; [exact (Hsave [paragraph "Hello World"] eq_refl eq_refl)|].
  split; [apply Hopen; [simpl; lia|reflexivity]|].
  split; [exact (Hwrite [paragraph "Hello World"] (js "/tmp/out.png")
                   eq_refl eq_refl eq_refl eq_refl)|].
  apply injective_projections; [|exact Hok].
  refine (Hfolder (js "/tmp/out") [] [paragraph "A"] [[paragraph "B"]]
            eq_refl _ eq_refl eq_refl _ eq_refl).
  - simpl. lia.
  - intros j Hj. simpl in Hj. lia.
Defined.

(** C8 as the description has it asks for the downloads also when a
    dialog is cancelled: below, the user closes the save dialog of a
    one-page export, and nothing is downloaded. *)
Lemma savePNG_cancel_downloads_nothing :
  let d := mkDoc [[paragraph "Hello World"]] 0 "special-elite" in
  savePNG cancellingHost d []
  = ([CreateCanvas [paragraph "Hello World"]; SaveDialog (js "dokument.png")], Some tt) /\
  ~ (exists name editor, In (Download name editor) (savePNG cancellingHost d []).1).
Proof.
  split; [reflexivity|].
  intros (name & editor & [H|[H|[]]]); discriminate H.
Qed.

(* ===================================================================== *)
(** * Part III: further properties of the code                            *)
(* ===================================================================== *)

(** ** [wrapText]: the characters of the text *)

Lemma split_cons_inv (sep : char) (s : jsstring) :
  exists word rest, split sep s = word :: rest.
Proof.
  destruct s as [|c s]; simpl; [now exists [], []|].
  destruct (N.eqb c sep); [now eexists _, _|].
  destruct (split sep s); now eexists _, _.
Qed.

Lemma joinWords_split (s : jsstring) : joinWords (split SPACE s) = s.
Proof.
  induction s as [|c s IH]; simpl; [reflexivity|].
  destruct (N.eqb_spec c SPACE) as [->|Hc].
  - simpl. destruct (split_cons_inv SPACE s) as (word & rest & E).
    rewrite E in *. simpl in *. now rewrite IH.
  - destruct (split_cons_inv SPACE s) as (word & rest & E).
    rewrite E in *. simpl in *. now rewrite IH.
Qed.

Lemma split_space_free (s : jsstring) :
  Forall (fun word => Forall (fun c => c <> SPACE) word) (split SPACE s).
Proof.
  induction s as [|c s IH]; simpl; [repeat constructor|].
  destruct (N.eqb_spec c SPACE) as [->|Hc]; [now constructor|].
  destruct (split SPACE s) as [|word rest]; [repeat constructor; assumption|].
  inversion IH; subst. constructor; [now constructor|assumption].
Qed.

Lemma nonspace_app (s t : jsstring) : nonspace (s ++ t) = nonspace s ++ nonspace t.
Proof. apply List.filter_app. Qed.

Lemma nonspace_space_free (s : jsstring) :
  Forall (fun c => c <> SPACE) s -> nonspace s = s.
Proof.
  induction 1 as [|c s Hc _ IH]; simpl; [reflexivity|].
  destruct (N.eqb_spec c SPACE); [congruence|]. simpl. now rewrite IH.
Qed.

Lemma nonspace_joinWords (words : list jsstring) :
  nonspace (joinWords words) = nonspace (concat words).
Proof.
  destruct words as [|word rest]; simpl; [reflexivity|].
  rewrite !nonspace_app. f_equal.
  induction rest as [|w rest IH]; simpl; [reflexivity|].
  now rewrite !nonspace_app, IH.
Qed.

Section WrapContent.

Variable measureText : jsstring -> Q.
Variable maxWidth : Q.

(** The text held by the state of the loops: the lines pushed, then the
    line being built. *)
Local Abbreviation held := (fun st : list jsstring * jsstring => concat st.1 ++ st.2).

Lemma breakChar_held st c :
  held (breakChar measureText maxWidth st c) = held st ++ [c].
Proof using Type.
  destruct st as [lines chunk]. unfold breakChar.
  destruct (_ && _); simpl.
  - rewrite concat_app. simpl. now rewrite app_nil_r, <- app_assoc.
  - now rewrite app_assoc.
Qed.

Lemma breakWord_held word st :
  held (fold_left (breakChar measureText maxWidth) word st) = held st ++ word.
Proof using Type.
  revert st. induction word as [|c word IH]; intros st; simpl.
  - now rewrite app_nil_r.
  - rewrite IH, breakChar_held. now rewrite <- app_assoc.
Qed.

Lemma flush_concat (lines : list jsstring) (cur : jsstring) :
  concat (if truthy cur then lines ++ [cur] else lines) = concat lines ++ cur.
Proof using Type.
  destruct cur as [|c cur]; simpl; [now rewrite app_nil_r|].
  rewrite concat_app. simpl. now rewrite app_nil_r.
Qed.

Lemma wrapWord_held st word :
  nonspace (held (wrapWord measureText maxWidth st word))
  = nonspace (held st) ++ nonspace word.
Proof using Type.
  destruct st as [lines cur]. unfold wrapWord.
  destruct (gtb (measureText word) maxWidth).
  - rewrite breakWord_held. cbn [fst snd]. rewrite app_nil_r, flush_concat.
    apply nonspace_app.
  - destruct (truthy cur) eqn:Ht.
    + destruct (gtb _ _); simpl.
      * rewrite concat_app. simpl. rewrite app_nil_r, <- app_assoc.
        rewrite !nonspace_app. now rewrite app_assoc.
      * rewrite !nonspace_app. simpl. now rewrite app_assoc.
    + apply truthy_false in Ht. subst cur. rewrite andb_false_r. simpl.
      now rewrite !app_nil_r, nonspace_app.
Qed.

Lemma wrapWords_held words st :
  nonspace (held (fold_left (wrapWord measureText maxWidth) words st))
  = nonspace (held st) ++ nonspace (concat words).
Proof using Type.
  revert st. induction words as [|word words IH]; intros st; simpl.
  - now rewrite app_nil_r.
  - rewrite IH, wrapWord_held, (nonspace_app word). now rewrite <- app_assoc.
Qed.

(** X1. [wrapText] drops and adds no character other than spaces, and keeps
    the characters in their order: the lines put end to end, spaces
    left out, are the text, spaces left out. *)
Theorem wrapText_keeps_characters (text : jsstring) :
  nonspace (concat (wrapText measureText maxWidth text)) = nonspace text.
Proof using Type.
  unfold wrapText. destruct text as [|c text]; [reflexivity|]. cbn [truthy negb].
  pose proof (wrapWords_held (split SPACE (c :: text)) ([], [])) as H.
  destruct (fold_left _ _ _) as [lines cur]. cbn [fst snd] in H.
  rewrite flush_concat, H. change (nonspace (concat [] ++ [])) with (@nil char).
  cbn [app]. now rewrite <- nonspace_joinWords, joinWords_split.
Qed.

(** X2. [wrapText] returns no line exactly for the texts made of spaces
    only, the empty text among them. *)
Theorem wrapText_no_line_iff_spaces (text : jsstring) :
  wrapText measureText maxWidth text = [] <-> Forall (fun c => c = SPACE) text.
Proof using Type.
  split.
  - intros H. pose proof (wrapText_keeps_characters text) as K.
    rewrite H in K. simpl in K. symmetry in K.
    induction text as [|c text IH]; [constructor|].
    simpl in K. destruct (N.eqb_spec c SPACE) as [->|Hc]; [|discriminate].
    constructor; [reflexivity|]. simpl in K.
    clear IH H. induction text as [|c' text IH]; [constructor|].
    simpl in K. destruct (N.eqb_spec c' SPACE) as [->|Hc']; [|discriminate].
    constructor; [reflexivity|]. apply IH, K.
  - intros H. assert (E : text = repeat SPACE (length text)).
    { induction H as [|c text -> _ IH]; simpl; [reflexivity|]. now rewrite <- IH. }
    rewrite E. unfold wrapText.
    destruct (truthy (repeat SPACE (length text))); simpl; [|reflexivity].
    now rewrite split_spaces, wrapWord_blank.
Qed.

Lemma breakWord_starts word st :
  Forall (fun c => c <> SPACE) word ->
  wrap_inv starts_with_nonspace st ->
  wrap_inv starts_with_nonspace (fold_left (breakChar measureText maxWidth) word st).
Proof using Type.
  intros Hword. revert st.
  induction Hword as [|c word Hc _ IH]; intros st Hst; simpl; [exact Hst|].
  apply IH. destruct st as [lines chunk]. destruct Hst as [Hl Hchunk].
  unfold breakChar. simpl in *.
  destruct (gtb _ _ && truthy chunk) eqn:E.
  - apply andb_true_iff in E. destruct E as [_ Ht]. apply truthy_true in Ht.
    split; simpl; [|now right].
    apply Forall_app. split; [exact Hl|]. constructor; [|constructor].
    destruct Hchunk; [contradiction|assumption].
  - split; simpl; [exact Hl|right].
    destruct chunk as [|c' chunk]; simpl; [exact Hc|].
    destruct Hchunk as [Hnil|Hs]; [discriminate|exact Hs].
Qed.

Lemma wrapWord_starts st word :
  Forall (fun c => c <> SPACE) word ->
  wrap_inv starts_with_nonspace st ->
  wrap_inv starts_with_nonspace (wrapWord measureText maxWidth st word).
Proof using Type.
  intros Hword Hst. destruct st as [lines cur].
  assert (Hflush : Forall starts_with_nonspace
                     (if truthy cur then lines ++ [cur] else lines)).
  { destruct Hst as [Hl Hc]. simpl in *. destruct cur as [|c cur]; simpl; [exact Hl|].
    apply Forall_app. split; [exact Hl|]. constructor; [|constructor].
    destruct Hc as [Hc|Hc]; [discriminate|exact Hc]. }
  assert (Hw : word = [] \/ starts_with_nonspace word).
  { destruct Hword; [now left|now right]. }
  unfold wrapWord. destruct (gtb (measureText word) maxWidth).
  - apply breakWord_starts; [exact Hword|]. split; simpl; [exact Hflush|now left].
  - destruct (truthy cur) eqn:Ht.
    + destruct (gtb _ _); simpl.
      * split; simpl; [|exact Hw]. exact Hflush.
      * destruct Hst as [Hl Hc]. simpl in *. split; simpl; [exact Hl|right].
        destruct cur as [|c cur]; [discriminate|].
        destruct Hc as [Hc|Hc]; [discriminate|exact Hc].
    + rewrite andb_false_r. destruct Hst as [Hl _]. split; simpl; assumption.
Qed.

(** X3. No line returned by [wrapText] starts with a space: the spaces at
    which the text is broken, and those leading the text, are dropped. *)
Theorem wrapText_lines_start_with_nonspace (text : jsstring) :
  Forall starts_with_nonspace (wrapText measureText maxWidth text).
Proof using Type.
  unfold wrapText. destruct (truthy text); simpl; [|constructor].
  assert (H : wrap_inv starts_with_nonspace
                (fold_left (wrapWord measureText maxWidth) (split SPACE text) ([], []))).
  { generalize (split_space_free text).
    assert (H0 : wrap_inv starts_with_nonspace ([], [])) by (split; simpl; [constructor|now left]).
    revert H0. generalize (@nil jsstring, @nil char).
    induction (split SPACE text) as [|word words IH]; intros st Hst Hwords; simpl;
      [exact Hst|].
    inversion Hwords; subst. apply IH; [|assumption]. now apply wrapWord_starts. }
  destruct (fold_left _ _ _) as [lines cur]. destruct H as [Hl Hc]. simpl in *.
  destruct cur as [|c cur]; simpl; [exact Hl|].
  apply Forall_app. split; [exact Hl|]. constructor; [|constructor].
  destruct Hc as [Hc|Hc]; [discriminate|exact Hc].
Qed.

End WrapContent.

(** ** [wrapText]: a text that fits *)

Lemma wrapWords_fitting (measureText : jsstring -> Q) (maxWidth : Q)
  (rest : list jsstring) (cur : jsstring) :
  cur <> [] ->
  (forall a b c, cur ++ concat (map (cons SPACE) rest) = a ++ b ++ c ->
                 (measureText b <= maxWidth)%Q) ->
  fold_left (wrapWord measureText maxWidth) rest ([], cur)
  = ([], cur ++ concat (map (cons SPACE) rest)).
Proof.
  revert cur. induction rest as [|word rest IH]; intros cur Hcur Hfits; simpl.
  - now rewrite app_nil_r.
  - assert (Hword : gtb (measureText word) maxWidth = false).
    { apply gtb_false.
      apply (Hfits (cur ++ [SPACE]) word (concat (map (cons SPACE) rest))).
      simpl. now rewrite <- app_assoc. }
    assert (Hline : gtb (measureText (cur ++ SPACE :: word)) maxWidth = false).
    { apply gtb_false.
      apply (Hfits [] (cur ++ SPACE :: word) (concat (map (cons SPACE) rest))).
      simpl. now rewrite <- app_assoc. }
    rewrite Hword. replace (truthy cur) with true
      by (symmetry; now apply truthy_true).
    cbn [app]. rewrite Hline. cbn [andb].
    rewrite IH.
    + now rewrite <- app_assoc.
    + now destruct cur.
    + intros a b c E. apply (Hfits a b c). rewrite <- E. simpl.
      now rewrite <- app_assoc.
Qed.

(** X4. A text that does not start with a space and of which every piece
    fits (as it does when the whole text fits and the measurement grows
    with the string) comes back as one line, unchanged. *)
Theorem wrapText_fitting_text (measureText : jsstring -> Q) (maxWidth : Q)
  (text : jsstring) :
  starts_with_nonspace text ->
  (forall a b c, text = a ++ b ++ c -> (measureText b <= maxWidth)%Q) ->
  wrapText measureText maxWidth text = [text].
Proof.
  intros Hstart Hfits. unfold wrapText.
  destruct text as [|c0 text0] eqn:Etext; [contradiction|]. rewrite <- Etext in *.
  replace (truthy text) with true by (now rewrite Etext).
  cbn [negb].
  destruct (split_cons_inv SPACE text) as (word & rest & Esplit).
  pose proof (joinWords_split text) as Hjoin. rewrite Esplit in Hjoin.
  cbn [joinWords] in Hjoin. rewrite Esplit. cbn [fold_left].
  assert (Hne : word <> []).
  { intros ->. simpl in Hjoin. rewrite <- Hjoin in Hstart.
    destruct rest as [|w rest]; simpl in Hstart; [contradiction|congruence]. }
  assert (Hword : gtb (measureText word) maxWidth = false).
  { apply gtb_false. apply (Hfits [] word (concat (map (cons SPACE) rest))).
    now rewrite <- Hjoin. }
  unfold wrapWord at 2. rewrite Hword. cbn [truthy andb].
  rewrite andb_false_r.
  rewrite wrapWords_fitting; [| exact Hne | now rewrite Hjoin].
  rewrite Hjoin. now rewrite Etext.
Qed.

Lemma wrapText_fitting_text_witness :
  starts_with_nonspace (js "Hello World") /\
  (forall a b c, js "Hello World" = a ++ b ++ c ->
                 (monospace 1 b <= 11)%Q) /\
  wrapText (monospace 1) 11 (js "Hello World") = [js "Hello World"].
Proof.
  assert (Hstart : starts_with_nonspace (js "Hello World")) by (simpl; discriminate).
  assert (Hfits : forall a b c, js "Hello World" = a ++ b ++ c ->
                                (monospace 1 b <= 11)%Q).
  { intros a b c E. apply (f_equal (@length char)) in E.
    rewrite !length_app in E. unfold monospace. rewrite Qmult_1_l.
    change 11%Q with (inject_Z 11). rewrite <- Zle_Qle.
    change (length (js "Hello World")) with 11 in E. lia. }
  split; [exact Hstart|]. split; [exact Hfits|].
  exact (wrapText_fitting_text (monospace 1) 11 (js "Hello World") Hstart Hfits).
Defined.

(** ** The canvas renderer: images *)

Lemma firstNonZero_pos (a b : N) (c : Q) : (0 < c)%Q -> (0 < firstNonZero a b c)%Q.
Proof.
  intros Hc. unfold firstNonZero.
  destruct (N.eqb_spec a 0) as [_|Ha]; simpl.
  - destruct (N.eqb_spec b 0) as [_|Hb]; simpl; [exact Hc|].
    change 0%Q with (inject_Z 0). rewrite <- Zlt_Qlt. lia.
  - change 0%Q with (inject_Z 0). rewrite <- Zlt_Qlt. lia.
Qed.

(** Scaling by [min(maxW / w, maxH / h, 1)]. *)
Lemma scale_to_fit (w h maxW maxH : Q) :
  (0 < w -> 0 < h -> 0 < maxW -> 0 < maxH ->
   let scale := Qmin (Qmin (maxW / w) (maxH / h)) 1 in
   0 < w * scale /\ w * scale <= maxW /\ 0 < h * scale /\ h * scale <= maxH /\
   w * scale <= w /\ h * scale <= h /\
   (w * scale) * h == (h * scale) * w)%Q.
Proof.
  intros Hw Hh HW HH scale.
  assert (Hs1 : (scale <= 1)%Q) by apply Q.le_min_r.
  assert (Hsw : (scale <= maxW / w)%Q).
  { eapply Qle_trans; [apply Q.le_min_l|apply Q.le_min_l]. }
  assert (Hsh : (scale <= maxH / h)%Q).
  { eapply Qle_trans; [apply Q.le_min_l|apply Q.le_min_r]. }
  assert (Hs0 : (0 < scale)%Q).
  { apply Q.min_glb_lt; [apply Q.min_glb_lt|reflexivity];
      apply Qlt_shift_div_l; try assumption; now rewrite Qmult_0_l. }
  assert (Ew : (w * (maxW / w) == maxW)%Q) by (apply Qmult_div_r; lra).
  assert (Eh : (h * (maxH / h) == maxH)%Q) by (apply Qmult_div_r; lra).
  assert (Lw : (w * scale <= w * (maxW / w))%Q) by (apply Qmult_le_l; assumption).
  assert (Lh : (h * scale <= h * (maxH / h))%Q) by (apply Qmult_le_l; assumption).
  assert (Lw1 : (w * scale <= w * 1)%Q) by (apply Qmult_le_l; assumption).
  assert (Lh1 : (h * scale <= h * 1)%Q) by (apply Qmult_le_l; assumption).
  repeat split.
  - apply Qmult_lt_0_compat; assumption.
  - now rewrite <- Ew.
  - apply Qmult_lt_0_compat; assumption.
  - now rewrite <- Eh.
  - now rewrite Qmult_1_r in Lw1.
  - now rewrite Qmult_1_r in Lh1.
  - ring.
Qed.

(** The render data of one block, read off [measureChild]. *)
Lemma measureChild_image (m : FontInfo -> jsstring -> Q)
  (renderData : list RenderItem) (total : Q) (img : Image) (c : bool) :
  exists w h,
    measureChild m (renderData, total) (mkBlock (ImageDiv (Some img)) c)
    = (renderData ++ [ItemImage img w h (newspaper_filter img)], (total + (h + 24))%Q)
    /\ scaled_image (ItemImage img w h (newspaper_filter img)).
Proof.
  eexists _, _. split; [reflexivity|].
  cbn [scaled_image]. split; [|reflexivity].
  fold (imageWidthOf img). fold (imageHeightOf img).
  assert (Hw : (0 < imageWidthOf img)%Q) by (apply firstNonZero_pos; reflexivity).
  assert (Hh : (0 < imageHeightOf img)%Q) by (apply firstNonZero_pos; reflexivity).
  pose proof (scale_to_fit (imageWidthOf img) (imageHeightOf img)
                (canvasMaxWidth - 40) 300 Hw Hh eq_refl eq_refl) as H.
  cbv zeta in H. destruct H as (H1 & H2 & H3 & H4 & H5 & H6 & H7).
  repeat split; try assumption.
Qed.

Lemma measureChild_lines (fontInfo : FontInfo) (wrappedLines : list jsstring)
  (renderData : list RenderItem) (total : Q) :
  exists total',
    fold_left
      (fun (acc : list RenderItem * Q) wrappedLine =>
         (acc.1 ++ [ItemText wrappedLine fontInfo], (acc.2 + lineHeight)%Q))
      wrappedLines (renderData, total)
    = (renderData ++ map (fun l => ItemText l fontInfo) wrappedLines, total')
    /\ (total' == total + sumHeights (map (fun l => ItemText l fontInfo) wrappedLines))%Q.
Proof.
  revert renderData total.
  induction wrappedLines as [|l ls IH]; intros renderData total; simpl.
  - exists total. split; [now rewrite app_nil_r|]. unfold sumHeights. simpl. ring.
  - destruct (IH (renderData ++ [ItemText l fontInfo]) (total + lineHeight)%Q)
      as (total' & E & Ht).
    exists total'. split.
    + rewrite E. now rewrite <- app_assoc.
    + rewrite Ht. unfold sumHeights. simpl. ring.
Qed.

Lemma trim_not_spaces (text : jsstring) :
  truthy (trim text) = true -> ~ Forall (fun c => c = SPACE) text.
Proof.
  rewrite truthy_trim. unfold has_text. intros H Hall.
  induction Hall as [|c text -> _ IH]; simpl in H; [discriminate|]. now apply IH.
Qed.

(** What one block adds to the render data and to the content height. *)
Lemma measureChild_adds (m : FontInfo -> jsstring -> Q)
  (renderData : list RenderItem) (total : Q) (child : Block) :
  exists items total',
    measureChild m (renderData, total) child = (renderData ++ items, total')
    /\ (total' == total + sumHeights items)%Q
    /\ Forall scaled_image items
    /\ (is_line child = true ->
        (lineHeight <= sumHeights items)%Q /\
        Forall (fun item => match item with ItemImage _ _ _ _ => False | _ => True end) items).
Proof.
  destruct child as [[font runs|[img|]] c].
  - unfold measureChild. cbn [element].
    set (text := textContent _). set (fontInfo := fontInfoOf _).
    destruct (truthy (trim text)) eqn:Ht; cbn [negb].
    + destruct (measureChild_lines fontInfo (wrapText (m fontInfo) canvasMaxWidth text)
                  renderData total) as (total' & E & Htotal).
      rewrite E.
      assert (Hne : wrapText (m fontInfo) canvasMaxWidth text <> []).
      { intros Hnil. apply (trim_not_spaces text Ht).
        now apply (wrapText_no_line_iff_spaces (m fontInfo) canvasMaxWidth). }
      destruct (wrapText (m fontInfo) canvasMaxWidth text) as [|l ls] eqn:Ew;
        [congruence|].
      cbn [length Nat.eqb].
      exists (map (fun l => ItemText l fontInfo) (l :: ls)), total'.
      split; [reflexivity|]. split; [exact Htotal|]. split.
      * apply Forall_map. apply Forall_forall. intros; exact I.
      * intros _. split.
        -- unfold sumHeights. simpl.
           assert (Hs : (0 <= fold_right (fun item total => itemHeight item + total) 0
                              (map (fun l => ItemText l fontInfo) ls))%Q).
           { clear. induction ls as [|x ls IH]; simpl; [discriminate|].
             unfold lineHeight in *. lra. }
           lra.
        -- apply Forall_map. apply Forall_forall. intros; exact I.
    + exists [ItemEmpty], (total + lineHeight)%Q.
      split; [reflexivity|]. split; [unfold sumHeights; simpl; ring|].
      split; [repeat constructor|]. intros _. split; [|repeat constructor].
      unfold sumHeights. simpl. unfold lineHeight. lra.
  - destruct (measureChild_image m renderData total img c) as (w & h & E & Hs).
    exists [ItemImage img w h (newspaper_filter img)], (total + (h + 24))%Q.
    split; [exact E|]. split; [unfold sumHeights; simpl; ring|].
    split; [now constructor|]. discriminate.
  - exists [], total. split; [simpl; now rewrite app_nil_r|].
    split; [unfold sumHeights; simpl; ring|]. split; [constructor|]. discriminate.
Qed.

Lemma sumHeights_app (xs ys : list RenderItem) :
  (sumHeights (xs ++ ys) == sumHeights xs + sumHeights ys)%Q.
Proof.
  unfold sumHeights. induction xs as [|x xs IH]; simpl; [ring|]. rewrite IH. ring.
Qed.

Lemma sumHeights_nonneg (items : list RenderItem) :
  Forall scaled_image items -> (0 <= sumHeights items)%Q.
Proof.
  unfold sumHeights. induction 1 as [|item items Hitem _ IH]; simpl; [discriminate|].
  destruct item as [img w h f| |text font]; simpl in *; unfold lineHeight; lra.
Qed.

(** The first pass: the content height is the room taken by the items of
    the render data, the images of the render data are scaled to fit,
    and every line, empty or not, takes one line height at least. *)
Lemma measurePass_invariant (m : FontInfo -> jsstring -> Q) (editor : Page)
  (renderData : list RenderItem) (total : Q) :
  (total == sumHeights renderData)%Q ->
  Forall scaled_image renderData ->
  let result := fold_left (measureChild m) editor (renderData, total) in
  (result.2 == sumHeights result.1)%Q /\
  Forall scaled_image result.1 /\
  (total + lineHeight * inject_Z (Z.of_nat (length (List.filter is_line editor)))
   <= result.2)%Q.
Proof.
  revert renderData total.
  induction editor as [|child editor IH]; intros renderData total Ht Hs; cbn zeta.
  - simpl. repeat split; try assumption. unfold lineHeight.
    change (inject_Z (Z.of_nat 0)) with 0%Q. lra.
  - cbn [fold_left].
    destruct (measureChild_adds m renderData total child)
      as (items & total' & E & Htotal & Hitems & Hline).
    rewrite E.
    destruct (IH (renderData ++ items) total') as (H1 & H2 & H3).
    + rewrite Htotal, sumHeights_app, Ht. reflexivity.
    + apply Forall_app. now split.
    + split; [exact H1|]. split; [exact H2|].
      eapply Qle_trans; [|exact H3].
      pose proof (sumHeights_nonneg items Hitems) as Hnn.
      cbn [List.filter]. destruct (is_line child) eqn:El.
      * destruct (Hline eq_refl) as [Hl _]. cbn [length].
        rewrite Nat2Z.inj_succ. unfold Z.succ. rewrite inject_Z_plus.
        rewrite Htotal. unfold lineHeight in *. change (inject_Z 1) with 1%Q. lra.
      * rewrite Htotal. lra.
Qed.

Lemma imageWidthOf_pos (img : Image) : (0 < imageWidthOf img)%Q.
Proof.
  unfold imageWidthOf, firstNonZero.
  destruct (N.eqb_spec (naturalWidth img) 0) as [_|Hn]; cbn [negb].
  - destruct (N.eqb_spec (width img) 0) as [_|Hw]; cbn [negb]; [reflexivity|].
    change 0%Q with (inject_Z 0). rewrite <- Zlt_Qlt. lia.
  - change 0%Q with (inject_Z 0). rewrite <- Zlt_Qlt. lia.
Qed.

Lemma imageHeightOf_pos (img : Image) : (0 < imageHeightOf img)%Q.
Proof.
  unfold imageHeightOf, firstNonZero.
  destruct (N.eqb_spec (naturalHeight img) 0) as [_|Hn]; cbn [negb].
  - destruct (N.eqb_spec (height img) 0) as [_|Hw]; cbn [negb]; [reflexivity|].
    change 0%Q with (inject_Z 0). rewrite <- Zlt_Qlt. lia.
  - change 0%Q with (inject_Z 0). rewrite <- Zlt_Qlt. lia.
Qed.

Lemma imageScaleOf_range (img : Image) : (0 < imageScaleOf img /\ imageScaleOf img <= 1)%Q.
Proof.
  unfold imageScaleOf. split; [|apply Q.le_min_r].
  pose proof (imageWidthOf_pos img) as Hw. pose proof (imageHeightOf_pos img) as Hh.
  apply Q.min_glb_lt; [apply Q.min_glb_lt|reflexivity].
  - apply Qlt_shift_div_l; [exact Hw|]. unfold canvasMaxWidth, pageWidth, marginX.
    reflexivity.
  - apply Qlt_shift_div_l; [exact Hh|]. reflexivity.
Qed.

(** The image items that the first pass adds, block by block. *)
Lemma measurePass_image_items (m : FontInfo -> jsstring -> Q) (editor : Page)
  (renderData : list RenderItem) (total : Q) :
  List.filter is_image_item (fold_left (measureChild m) editor (renderData, total)).1
  = List.filter is_image_item renderData ++ map scaledItem (imagesOf editor).
Proof.
  revert renderData total.
  induction editor as [|child editor IH]; intros renderData total.
  - simpl. now rewrite app_nil_r.
  - cbn [fold_left]. destruct child as [[font runs|[img|]] c].
    + destruct (measureChild_adds m renderData total (mkBlock (LineDiv font runs) c))
        as (items & total' & E & _ & _ & Hline).
      destruct (Hline eq_refl) as [_ Hnone]. rewrite E, IH, List.filter_app.
      replace (List.filter is_image_item items) with (@nil RenderItem).
      * now rewrite app_nil_r.
      * clear -Hnone. induction Hnone as [|item items Hitem _ IH]; [reflexivity|].
        destruct item; [destruct Hitem| |]; exact IH.
    + change (measureChild m (renderData, total) (mkBlock (ImageDiv (Some img)) c))
        with (renderData ++ [scaledItem img],
              (total + (imageHeightOf img * imageScaleOf img + 24))%Q).
      rewrite IH, List.filter_app. cbn [imagesOf omap element List.filter is_image_item
                                              scaledItem map app].
      now rewrite <- app_assoc.
    + change (measureChild m (renderData, total) (mkBlock (ImageDiv None) c))
        with (renderData, total).
      rewrite IH. reflexivity.
Qed.

(** X5. The first pass of [createDocumentCanvas] puts one image item
    into the render data for every image of the page, in page order,
    and none for a line. The item has the width and the height of the
    image (the natural size, else the displayed size, else 200 by 150),
    both multiplied by the one factor min(640 / width, 300 / height, 1),
    and the filter flag of the image. The factor is above 0 and at most
    1: no image is enlarged. *)
Theorem measurePass_images_scaled (m : FontInfo -> jsstring -> Q) (editor : Page) :
  List.filter is_image_item (measurePass m editor).1 = map scaledItem (imagesOf editor) /\
  forall img w h hasNewspaperFilter,
    In (ItemImage img w h hasNewspaperFilter) (measurePass m editor).1 ->
    let factor := Qmin (Qmin (640 / imageWidthOf img) (300 / imageHeightOf img)) 1 in
    w = (imageWidthOf img * factor)%Q /\ h = (imageHeightOf img * factor)%Q /\
    hasNewspaperFilter = newspaper_filter img /\
    (0 < factor)%Q /\ (factor <= 1)%Q /\
    (0 < w)%Q /\ (w <= imageWidthOf img)%Q /\ (0 < h)%Q /\ (h <= imageHeightOf img)%Q.
Proof.
  assert (Hitems : List.filter is_image_item (measurePass m editor).1
                   = map scaledItem (imagesOf editor))
    by (unfold measurePass; now rewrite measurePass_image_items).
  split; [exact Hitems|]. intros img w h f Hin factor.
  assert (Hin' : In (ItemImage img w h f) (map scaledItem (imagesOf editor))).
  { rewrite <- Hitems. apply List.filter_In. now split. }
  apply List.in_map_iff in Hin'. destruct Hin' as (img' & Heq & _).
  unfold scaledItem in Heq. injection Heq as <- <- <- <-.
  change factor with (imageScaleOf img').
  destruct (imageScaleOf_range img') as [H0 H1].
  pose proof (imageWidthOf_pos img') as Hw. pose proof (imageHeightOf_pos img') as Hh.
  repeat split; try reflexivity; try assumption; nra.
Qed.

(** X6. The page is as high as its two margins and one line height for
    every line of the page, empty or not, at the least. *)
Theorem pageHeightOf_lower_bound (m : FontInfo -> jsstring -> Q) (editor : Page) :
  (marginTop + marginBottom
   + lineHeight * inject_Z (Z.of_nat (length (List.filter is_line editor)))
   <= pageHeightOf m editor)%Q.
Proof.
  unfold pageHeightOf, measurePass.
  destruct (measurePass_invariant m editor [] 0) as (_ & _ & H);
    [reflexivity|constructor|].
  unfold marginTop, marginBottom, lineHeight in *. lra.
Qed.

(** ** The canvas renderer: where the content is drawn *)

Lemma drawn_within_weaken (top bottom top' bottom' : Q) (op : DrawOp) :
  (top' <= top)%Q -> (bottom <= bottom')%Q ->
  drawn_within top bottom op -> drawn_within top' bottom' op.
Proof.
  intros Ht Hb. destruct op; simpl; try exact id.
  - intros (Hx & H1 & H2). repeat split; [exact Hx|lra|lra].
  - intros (Hx & Hx' & H1 & H2). repeat split; [exact Hx|exact Hx'|lra|lra].
Qed.

(** The second pass: every item is drawn in the room the first pass
    counted for it, the items one below the other. *)
Lemma drawItem_fold (items : list RenderItem) (drawn : list DrawOp) (y : Q) :
  Forall scaled_image items ->
  exists new,
    (fold_left drawItem items (drawn, y)).1 = drawn ++ new /\
    ((fold_left drawItem items (drawn, y)).2 == y + sumHeights items)%Q /\
    Forall (drawn_within y (y + sumHeights items)) new /\
    Forall (fun op => is_content op = true) new.
Proof.
  intros Hitems. revert drawn y.
  induction Hitems as [|item items Hitem Hrest IH]; intros drawn y.
  - exists []. simpl. split; [now rewrite app_nil_r|].
    split; [unfold sumHeights; simpl; ring|]. split; constructor.
  - pose proof (sumHeights_nonneg items Hrest) as Hnn.
    assert (Hsum : (sumHeights (item :: items) == itemHeight item + sumHeights items)%Q)
      by reflexivity.
    cbn [fold_left].
    destruct item as [img w h f| |text font]; cbn [drawItem].
    + destruct (IH (drawn ++ [DrawImage img (marginX + (canvasMaxWidth - w) / 2)
                                (y - lineHeight + 12) w h f]) (y + (h + 24))%Q)
        as (new & E & Hy & Hin & Hc).
      destruct Hitem as [(Hw0 & Hw & Hh0 & Hh & _) _].
      eexists (_ :: new). split; [rewrite E; now rewrite <- app_assoc|].
      split; [rewrite Hy, Hsum; simpl; ring|]. split; [|now constructor].
      constructor.
      * cbn [drawn_within]. rewrite Hsum. cbn [itemHeight].
        unfold marginX, canvasMaxWidth, pageWidth, lineHeight, marginX, Qdiv.
        change (/ 2)%Q with (1 # 2)%Q. repeat split; lra.
      * eapply Forall_impl; [exact Hin|]. intros op. apply drawn_within_weaken.
        -- lra.
        -- rewrite Hsum. cbn [itemHeight]. lra.
    + destruct (IH drawn (y + lineHeight)%Q) as (new & E & Hy & Hin & Hc).
      exists new. split; [exact E|].
      split; [rewrite Hy, Hsum; simpl; ring|]. split; [|exact Hc].
      eapply Forall_impl; [exact Hin|]. intros op. apply drawn_within_weaken.
      * unfold lineHeight. lra.
      * rewrite Hsum. cbn [itemHeight]. lra.
    + destruct (IH (drawn ++ [FillText text font marginX y]) (y + lineHeight)%Q)
        as (new & E & Hy & Hin & Hc).
      eexists (_ :: new). split; [rewrite E; now rewrite <- app_assoc|].
      split; [rewrite Hy, Hsum; simpl; ring|]. split; [|now constructor].
      constructor.
      * cbn [drawn_within]. rewrite Hsum. cbn [itemHeight].
        unfold lineHeight in *. split; [reflexivity|split; lra].
      * eapply Forall_impl; [exact Hin|]. intros op. apply drawn_within_weaken.
        -- unfold lineHeight. lra.
        -- rewrite Hsum. cbn [itemHeight]. lra.
Qed.

(** X7. Whatever the page, its text and its images are drawn between the
    margins of the canvas: text starts at the left margin on a line that
    lies between the top margin and the bottom margin, and an image lies
    between the side margins and ends above the bottom margin. The
    height computed by the first pass is the height the second pass
    fills. *)
Theorem createDocumentCanvas_content_within_margins
  (m : FontInfo -> jsstring -> Q) (random : nat -> Q) (editor : Page) :
  Forall (drawn_within marginTop (pageHeightOf m editor - marginBottom))
         (ops (createDocumentCanvas m random editor)).
Proof.
  unfold createDocumentCanvas. cbn [ops].
  unfold addPaperTexture, drawCornerOrnaments.
  repeat (constructor; [exact I|]).
  apply Forall_app. split; [|repeat constructor].
  destruct (measurePass_invariant m editor [] 0) as (Htotal & Hscaled & _);
    [reflexivity|constructor|]. fold (measurePass m editor) in Htotal, Hscaled.
  destruct (drawItem_fold (measurePass m editor).1 [] marginTop Hscaled)
    as (new & E & _ & Hin & _).
  rewrite E. cbn [app].
  eapply Forall_impl; [exact Hin|]. intros op. apply drawn_within_weaken.
  - lra.
  - unfold pageHeightOf. rewrite Htotal. lra.
Qed.

(** X8. With a random source that answers in [0, 1), as [Math.random]
    does, the index that [drawCornerOrnaments] computes is the index of
    one of the five frame styles: the frame drawn on the canvas is one
    of them. *)
Theorem createDocumentCanvas_frame_style
  (m : FontInfo -> jsstring -> Q) (random : nat -> Q) (editor : Page) :
  (forall i, (0 <= random i)%Q /\ (random i < 1)%Q) ->
  Forall valid_frame (ops (createDocumentCanvas m random editor)).
Proof.
  intros Hrandom. unfold createDocumentCanvas. cbn [ops].
  unfold addPaperTexture, drawCornerOrnaments.
  constructor; [exact I|]. constructor; [exact I|]. constructor.
  - cbn [valid_frame]. unfold frameStyles_length.
    match goal with |- (0 <= Qfloor (random ?i * 5) < 5)%Z =>
      destruct (Hrandom i) as [H0 H1]; set (r := random i) in * end.
    split.
    + change 0%Z with (Qfloor 0). apply Qfloor_resp_le. lra.
    + rewrite Zlt_Qlt. eapply Qle_lt_trans; [apply Qfloor_le|].
      change (inject_Z 5) with 5%Q. lra.
  - apply Forall_app. split; [|repeat constructor].
    destruct (measurePass_invariant m editor [] 0) as (_ & Hscaled & _);
      [reflexivity|constructor|]. fold (measurePass m editor) in Hscaled.
    destruct (drawItem_fold (measurePass m editor).1 [] marginTop Hscaled)
      as (new & E & _ & _ & Hc).
    rewrite E. cbn [app]. eapply Forall_impl; [exact Hc|].
    intros [] H; try discriminate; exact I.
Qed.

Lemma createDocumentCanvas_frame_style_witness :
  (forall i : nat, (0 <= (fun _ => 7 # 10) i)%Q /\ ((fun _ => 7 # 10) i < 1)%Q) /\
  Forall valid_frame
    (ops (createDocumentCanvas geometryWidth (fun _ => 7 # 10)
            [paragraph "Hello World"; picture; emptyLine])).
Proof.
  assert (Hrandom : forall i : nat,
             (0 <= (fun _ => 7 # 10) i)%Q /\ ((fun _ => 7 # 10) i < 1)%Q)
    by (intros i; split; [discriminate|reflexivity]).
  split; [exact Hrandom|].
  exact (createDocumentCanvas_frame_style geometryWidth (fun _ => 7 # 10)
           [paragraph "Hello World"; picture; emptyLine] Hrandom).
Defined.

(** ** The overflow controller: what every run keeps *)

Lemma content_blocks_discard (nextPage : Page) :
  List.filter (fun b => negb (is_line b && blank b)) (discardFirstLineIfBlank nextPage)
  = List.filter (fun b => negb (is_line b && blank b)) nextPage.
Proof.
  induction nextPage as [|b rest IH]; simpl; [reflexivity|].
  destruct (is_line b) eqn:El.
  - destruct (blank b) eqn:Eb; simpl; [reflexivity|]. now rewrite El, Eb.
  - simpl. rewrite El. simpl. now rewrite IH.
Qed.

(** X9. A run of [checkPageOverflow] never reorders the document: the
    blocks other than empty lines, read page after page, are the same
    before and after the run. Only an empty line can go. *)
Theorem checkPageOverflow_keeps_reading_order (offsetHeight : Block -> Z) (d : Doc) :
  content_blocks (pages (checkPageOverflow offsetHeight d).1) = content_blocks (pages d).
Proof.
  destruct (checkPageOverflow_cases offsetHeight d)
    as [[-> _]|(before & front & lastElement & rest & -> & Hfront & Hhigh)];
    [reflexivity|].
  cbn [state_font]. rewrite (checkPageOverflow_moves _ _ _ _ _ _ Hfront Hhigh).
  cbn [fst pages]. unfold content_blocks.
  rewrite !concat_app. cbn [concat]. rewrite !List.filter_app.
  f_equal. rewrite <- app_assoc. f_equal.
  destruct rest as [|nextPage after]; cbn [receive concat].
  - rewrite ?app_nil_r. reflexivity.
  - change (lastElement :: discardFirstLineIfBlank nextPage)
      with ([lastElement] ++ discardFirstLineIfBlank nextPage).
    rewrite <- app_assoc, !List.filter_app. now rewrite content_blocks_discard.
Qed.

(** X10. A run of [checkPageOverflow] keeps a document well formed: the
    active index still points at a page, no page is left without a
    block, and the document has the same pages or one more. *)
Theorem checkPageOverflow_keeps_document_shape (offsetHeight : Block -> Z) (d : Doc) :
  valid_index d ->
  Forall (fun page : Page => page <> []) (pages d) ->
  let d' := (checkPageOverflow offsetHeight d).1 in
  valid_index d' /\
  Forall (fun page : Page => page <> []) (pages d') /\
  length (pages d) <= length (pages d') <= S (length (pages d)).
Proof.
  intros Hvalid Hfull d'. unfold d'.
  destruct (checkPageOverflow_cases offsetHeight d)
    as [[-> _]|(before & front & lastElement & rest & E & Hfront & Hhigh)].
  - cbn [fst]. repeat split; try assumption; lia.
  - rewrite E in Hfull |- *.
    rewrite (checkPageOverflow_moves _ _ _ _ _ _ Hfront Hhigh).
    cbn [fst pages currentPageIndex]. unfold valid_index.
    cbn [pages currentPageIndex].
    apply Forall_app in Hfull. destruct Hfull as [Hbefore Hrest].
    inversion Hrest as [|x xs _ Hafter]; subst x xs.
    rewrite !length_app. cbn [length].
    destruct rest as [|nextPage after]; cbn [receive length].
    + split; [destruct (caret lastElement); lia|]. split; [|lia].
      apply Forall_app. split; [exact Hbefore|].
      constructor; [exact Hfront|]. constructor; [discriminate|constructor].
    + split; [destruct (caret lastElement); lia|]. split; [|lia].
      apply Forall_app. split; [exact Hbefore|].
      constructor; [exact Hfront|]. constructor; [discriminate|].
      now inversion Hafter.
Qed.

Lemma checkPageOverflow_keeps_document_shape_witness :
  let offsetHeight := fun _ : Block => 600%Z in
  let d := mkDoc [[paragraph "A"; paragraph "B"; paragraphWithCaret "C"]] 0 "special-elite" in
  valid_index d /\
  Forall (fun page : Page => page <> []) (pages d) /\
  (let d' := (checkPageOverflow offsetHeight d).1 in
   valid_index d' /\
   Forall (fun page : Page => page <> []) (pages d') /\
   length (pages d) <= length (pages d') <= S (length (pages d))).
Proof.
  intros offsetHeight d.
  assert (Hvalid : valid_index d) by (unfold valid_index; simpl; lia).
  assert (Hfull : Forall (fun page : Page => page <> []) (pages d))
    by (repeat constructor; discriminate).
  split; [exact Hvalid|]. split; [exact Hfull|].
  exact (checkPageOverflow_keeps_document_shape offsetHeight d Hvalid Hfull).
Defined.

Section OverflowSettled.

Variable offsetHeight : Block -> Z.

(** X13. Once the chain of runs has come to its end, one more run changes
    nothing. *)
Theorem settle_stable (frames : nat) (d d' : Doc) :
  settle offsetHeight frames d = Some d' ->
  checkPageOverflow offsetHeight d' = (d', false).
Proof using Type.
  revert d. induction frames as [|frames IH]; intros d; simpl; [discriminate|].
  destruct (checkPageOverflow offsetHeight d) as [d1 again] eqn:E.
  destruct again; [apply IH|]. intros [= <-].
  destruct (checkPageOverflow_cases offsetHeight d)
    as [[E' _]|(before & front & lastElement & rest & Ed & Hfront & Hhigh)].
  - rewrite E' in E. injection E as <-. exact E'.
  - rewrite Ed in E. rewrite (checkPageOverflow_moves _ _ _ _ _ _ Hfront Hhigh) in E.
    discriminate.
Qed.

End OverflowSettled.

Lemma settle_stable_witness :
  let offsetHeight := fun _ : Block => 600%Z in
  let d := mkDoc [[paragraph "A"; paragraph "B"; paragraph "C"]] 0 "special-elite" in
  let d' := mkDoc [[paragraph "A"]; [paragraph "B"; paragraph "C"]] 0 "special-elite" in
  settle offsetHeight 3 d = Some d' /\
  checkPageOverflow offsetHeight d' = (d', false).
Proof.
  intros offsetHeight d d'.
  assert (Hrun : settle offsetHeight 3 d = Some d') by reflexivity.
  split; [exact Hrun|]. exact (settle_stable offsetHeight 3 d d' Hrun).
Defined.

Lemma settle_converges_witness :
  let offsetHeight := fun _ : Block => 600%Z in
  let editor := [paragraph "A"; paragraph "B"; paragraph "C"] in
  let before := [[paragraph "Z"]] in
  let rest := [[emptyLine; paragraph "D"]] in
  Forall (fun b => caret b = false) editor /\
  exists frames kept moved,
    editor = kept ++ moved /\
    settle offsetHeight frames (mkDoc (before ++ editor :: rest) (length before)
                                      "special-elite")
    = Some (mkDoc (before ++ kept :: fold_right receive rest moved) (length before)
                  "special-elite") /\
    content_blocks (before ++ kept :: fold_right receive rest moved)
    = content_blocks (before ++ editor :: rest) /\
    ((contentHeight offsetHeight kept <= MAX_PAGE_HEIGHT)%Z \/ length kept <= 1) /\
    (forall n, length kept < n <= length editor ->
               (MAX_PAGE_HEIGHT < contentHeight offsetHeight (take n editor))%Z /\ 1 < n).
Proof.
  intros offsetHeight editor before rest.
  assert (Hcaret : Forall (fun b => caret b = false) editor)
    by (repeat constructor).
  split; [exact Hcaret|].
  exact (settle_converges offsetHeight editor Hcaret before rest "special-elite").
Defined.

(** ** Plain-text export: the pages joined *)

Lemma getEditorText_joinPages (d : Doc) :
  getEditorText d = trimEnd (joinPages "Seite" 1 (pages d)).
Proof.
  unfold getEditorText. f_equal.
  exact (getEditorText_loop (length (pages d)) (pages d) 0 [] eq_refl).
Qed.

(** ** Plain-text export: the end of the text *)

Lemma trimStart_suffix (s : jsstring) :
  exists p, s = p ++ trimStart s /\ forallb is_whitespace p = true.
Proof.
  induction s as [|c s (p & E & Hp)]; simpl; [now exists []|].
  destruct (is_whitespace c) eqn:Ec.
  - exists (c :: p). simpl. rewrite Ec, Hp. split; [now f_equal|reflexivity].
  - now exists [].
Qed.

Lemma trimStart_head (s : jsstring) :
  trimStart s = [] \/ exists c u, trimStart s = c :: u /\ is_whitespace c = false.
Proof.
  induction s as [|c s IH]; simpl; [now left|].
  destruct (is_whitespace c) eqn:Ec; [exact IH|]. right. now exists c, s.
Qed.

Lemma forallb_rev {A} (f : A -> bool) (l : list A) :
  forallb f (rev l) = forallb f l.
Proof.
  induction l as [|x l IH]; simpl; [reflexivity|].
  rewrite forallb_app, IH. simpl. rewrite andb_true_r. apply andb_comm.
Qed.

Lemma trimEnd_prefix (s : jsstring) :
  exists q, s = trimEnd s ++ q /\ forallb is_whitespace q = true.
Proof.
  unfold trimEnd. destruct (trimStart_suffix (rev s)) as (p & E & Hp).
  exists (rev p). split; [|now rewrite forallb_rev].
  apply (f_equal (@rev char)) in E. now rewrite rev_involutive, rev_app_distr in E.
Qed.

Lemma trimEnd_last (s : jsstring) :
  trimEnd s = [] \/ exists u c, trimEnd s = u ++ [c] /\ is_whitespace c = false.
Proof.
  unfold trimEnd. destruct (trimStart_head (rev s)) as [->|(c & u & -> & Hc)];
    [now left|right].
  exists (rev u), c. split; [reflexivity|exact Hc].
Qed.

Lemma trimEnd_app_whitespace (s q : jsstring) :
  forallb is_whitespace q = true -> trimEnd (s ++ q) = trimEnd s.
Proof.
  intros Hq. unfold trimEnd. f_equal. rewrite rev_app_distr.
  rewrite <- forallb_rev in Hq. induction (rev q) as [|c r IH]; [reflexivity|].
  simpl in *. apply andb_true_iff in Hq. destruct Hq as [-> Hr]. now apply IH.
Qed.

Lemma trimEnd_fixed (s u : jsstring) (c : char) :
  s = u ++ [c] -> is_whitespace c = false -> trimEnd s = s.
Proof.
  intros -> Hc. unfold trimEnd. rewrite rev_app_distr. simpl. rewrite Hc.
  simpl. now rewrite rev_involutive.
Qed.

(** X16. The exported text never ends with whitespace: it is empty or ends
    with a character that is not whitespace, so that trimming it again
    changes nothing. *)
Theorem getEditorText_no_trailing_whitespace (d : Doc) :
  (getEditorText d = [] \/
   exists u c, getEditorText d = u ++ [c] /\ is_whitespace c = false) /\
  trimEnd (getEditorText d) = getEditorText d.
Proof.
  rewrite getEditorText_joinPages.
  destruct (trimEnd_last (joinPages "Seite" 1 (pages d))) as [E|(u & c & E & Hc)].
  - rewrite E. split; [now left|reflexivity].
  - split; [right; now exists u, c|]. rewrite E. now apply (trimEnd_fixed _ u c).
Qed.

(** X17. A document of one page is exported without a page separator: its
    lines, each followed by a line terminator, with the whitespace at
    the end removed. A single line is exported as its own text without
    trailing whitespace, no line terminator after it. *)
Theorem getEditorText_single_page (page : Page) (index : nat) (font : string) :
  getEditorText (mkDoc [page] index font) = trimEnd (pageLines page) /\
  (forall line, is_line line = true ->
     getEditorText (mkDoc [[line]] index font) = trimEnd (textContent line)).
Proof.
  split.
  - rewrite getEditorText_joinPages. cbn [pages joinPages]. now rewrite app_nil_r.
  - intros line Hline. rewrite getEditorText_joinPages. cbn [pages joinPages].
    rewrite app_nil_r. unfold pageLines. cbn [List.filter]. rewrite Hline.
    cbn [map concat]. rewrite app_nil_r. now apply trimEnd_app_whitespace.
Qed.

(** ** Saving the text *)

Lemma has_text_trimEnd (s : jsstring) : has_text (trimEnd s) = has_text s.
Proof. unfold trimEnd. now rewrite has_text_rev, has_text_trimStart, has_text_rev. Qed.

Lemma has_text_pageLines (page : Page) : has_text (pageLines page) = page_has_text page.
Proof.
  unfold pageLines, page_has_text.
  induction page as [|b page IH]; simpl; [reflexivity|].
  destruct (is_line b); simpl; [|exact IH].
  rewrite !has_text_app, IH. simpl. now rewrite orb_false_r.
Qed.

Lemma has_text_pageSeparator (label : string) (n : nat) :
  has_text (pageSeparator label n) = true.
Proof.
  unfold pageSeparator. rewrite (has_text_app LF), (has_text_app (js "--- ")).
  replace (has_text (js "--- ")) with true by reflexivity.
  now rewrite orb_true_r.
Qed.

Lemma has_text_joinPages (n : nat) (ps : list Page) :
  has_text (joinPages "Seite" n ps)
  = match ps with
    | [] => false
    | [page] => page_has_text page
    | _ :: _ :: _ => true
    end.
Proof.
  destruct ps as [|page [|page' rest]]; cbn [joinPages].
  - reflexivity.
  - now rewrite app_nil_r, has_text_pageLines.
  - rewrite has_text_app, has_text_app, has_text_pageSeparator.
    now rewrite orb_true_r.
Qed.

(** X18. [saveText] calls nothing exactly when the document has one page at
    most and no line of it has text other than whitespace. A document
    of two pages or more is saved even when all its lines are empty:
    its export holds the page separators. *)
Theorem saveText_silent_iff (dialog : Reply) (fs_writeTextFile : jsstring -> bool)
  (d : Doc) :
  saveText dialog fs_writeTextFile d = [] <->
  match pages d with
  | [] => True
  | [page] => page_has_text page = false
  | _ :: _ :: _ => False
  end.
Proof.
  unfold saveText. rewrite truthy_trim, getEditorText_joinPages, has_text_trimEnd.
  rewrite has_text_joinPages.
  destruct (pages d) as [|page [|page' rest]]; cbn [negb].
  - tauto.
  - destruct (page_has_text page); cbn [negb]; [|tauto].
    split; [|discriminate].
    destruct dialog as [filePath| |]; [destruct (truthy filePath);
      [destruct (fs_writeTextFile filePath)|]| |]; discriminate.
  - split; [|contradiction].
    destruct dialog as [filePath| |]; [destruct (truthy filePath);
      [destruct (fs_writeTextFile filePath)|]| |]; discriminate.
Qed.

(** Whatever [saveText] writes or downloads is the exported text of the
    document, and it does one of the two at most: the download only
    when the dialog or the write has failed. *)
Theorem saveText_payload (dialog : Reply) (fs_writeTextFile : jsstring -> bool)
  (d : Doc) :
  Forall (fun e => match e with
                   | WriteTextFile _ text | TextDownload _ text => text = getEditorText d
                   | _ => True
                   end)
         (saveText dialog fs_writeTextFile d) /\
  (In TextConsoleLog (saveText dialog fs_writeTextFile d) ->
   ~ exists name text, In (TextDownload name text) (saveText dialog fs_writeTextFile d)).
Proof.
  unfold saveText. destruct (negb _); [split; [constructor|intros []]|].
  destruct dialog as [filePath| |]; [destruct (truthy filePath);
    [destruct (fs_writeTextFile filePath)|]| |]; cbn [fst snd app];
    (split; [repeat constructor|]);
    intros Hlog; simpl in Hlog;
    try (intros (name & text & H); simpl in H);
    repeat match goal with
           | H : _ \/ _ |- _ => destruct H
           | H : False |- _ => destruct H
           | H : _ = _ |- _ => discriminate H
           end.
Qed.

(** ** Counting characters and words *)

(** Runs of whitespace and runs of other characters alternate, so their
    numbers differ by at most one; which of the two is ahead depends on
    whether the string starts inside a run and on whether its last
    character is whitespace. *)
Lemma runs_alternate (s : jsstring) :
  (whitespaceRuns false s
   = wordRuns true s + (if forallb is_whitespace (firstn 1 (rev s)) && truthy s
                        then 1 else 0)) /\
  (whitespaceRuns true s + 1
   = wordRuns false s + (if forallb is_whitespace (firstn 1 (rev s)) then 1 else 0)).
Proof.
  induction s as [|c s [IHw IHs]]; [split; reflexivity|].
  assert (Hlast : forallb is_whitespace (firstn 1 (rev (c :: s)))
                  = if truthy s then forallb is_whitespace (firstn 1 (rev s))
                    else is_whitespace c && true).
  { destruct s as [|c' s]; [reflexivity|]. cbn [truthy rev].
    destruct (rev s ++ [c']) as [|x r] eqn:E;
      [now destruct (rev s)|reflexivity]. }
  rewrite Hlast. cbn [whitespaceRuns wordRuns truthy].
  destruct (is_whitespace c) eqn:Ec; destruct s as [|c' s];
    cbn [truthy andb] in *; simpl in IHw, IHs |- *; try lia;
    destruct (forallb is_whitespace (firstn 1 (rev s ++ [c']))); simpl in *; lia.
Qed.

Lemma wordRuns_leading (p t : jsstring) :
  forallb is_whitespace p = true -> wordRuns false (p ++ t) = wordRuns false t.
Proof.
  induction p as [|c p IH]; simpl; [reflexivity|].
  intros H. apply andb_true_iff in H. destruct H as [-> Hp]. now apply IH.
Qed.

Lemma wordRuns_trailing (inWord : bool) (t q : jsstring) :
  forallb is_whitespace q = true -> wordRuns inWord (t ++ q) = wordRuns inWord t.
Proof.
  intros Hq. revert inWord. induction t as [|c t IH]; intros inWord; simpl.
  - revert inWord. induction q as [|c q IH]; intros inWord; simpl; [reflexivity|].
    simpl in Hq. apply andb_true_iff in Hq. destruct Hq as [-> Hq]. now apply IH.
  - destruct (is_whitespace c); now rewrite IH.
Qed.

Lemma countWords_trim (s : jsstring) : countWords (trim s) = countWords s.
Proof.
  unfold countWords, trim.
  destruct (trimStart_suffix s) as (p & Es & Hp).
  destruct (trimEnd_prefix (trimStart s)) as (q & Et & Hq).
  rewrite Es at 2. rewrite (wordRuns_leading p _ Hp).
  rewrite Et at 2. now rewrite (wordRuns_trailing false _ q Hq).
Qed.

Lemma trim_head (s : jsstring) :
  trim s = [] \/ exists c u, trim s = c :: u /\ is_whitespace c = false.
Proof.
  unfold trim. destruct (trimStart_head s) as [->|(c & u & E & Hc)]; [now left|].
  rewrite E. destruct (trimEnd_prefix (c :: u)) as (q & Eq & _).
  destruct (trimEnd (c :: u)) as [|c' u'] eqn:Et; [now left|right].
  exists c', u'. split; [reflexivity|]. simpl in Eq. now injection Eq as <- _.
Qed.

(** [split(/\s+/).length] on a trimmed text counts its words. *)
Lemma split_whitespace_length_trim (s : jsstring) :
  (if negb (truthy (trim s)) then 0 else split_whitespace_length (trim s))
  = countWords s.
Proof.
  rewrite <- countWords_trim.
  destruct (trim_head s) as [->|(c & u & E & Hc)]; [reflexivity|].
  assert (Hlast : trimEnd (trim s) = trim s).
  { unfold trim. destruct (trimEnd_last (trimStart s)) as [->|(v & x & Ev & Hx)];
      [reflexivity|]. rewrite Ev. now apply (trimEnd_fixed _ v x). }
  rewrite E in *. cbn [truthy negb]. unfold split_whitespace_length, countWords.
  cbn [whitespaceRuns wordRuns]. rewrite Hc.
  destruct (runs_alternate u) as [Hw _]. rewrite Hw. cbn [Nat.add].
  destruct (trimEnd_last (c :: u)) as [Enil|(v & x & Ev & Hx)];
    [rewrite Hlast in Enil; discriminate|].
  rewrite Hlast in Ev.
  destruct u as [|c' u']; [reflexivity|].
  assert (Eu : exists v', c' :: u' = v' ++ [x]).
  { destruct v as [|y v']; [discriminate|]. injection Ev as _ Ev. now exists v'. }
  destruct Eu as (v' & Eu). rewrite Eu, rev_app_distr. cbn [rev app firstn forallb].
  rewrite Hx. cbn [andb]. lia.
Qed.

Lemma wordRuns_app_whitespace (inWord : bool) (s t : jsstring) (c : char) :
  is_whitespace c = true ->
  wordRuns inWord (s ++ c :: t) = wordRuns inWord s + wordRuns false t.
Proof.
  intros Hc. revert inWord. induction s as [|x s IH]; intros inWord; simpl.
  - now rewrite Hc.
  - destruct (is_whitespace x); rewrite IH; lia.
Qed.

Lemma countWords_lines (lines : list Block) :
  countWords (concat (map (fun line => textContent line ++ LF) lines))
  = list_sum (map (fun line => countWords (textContent line)) lines).
Proof.
  unfold countWords. induction lines as [|line lines IH]; simpl; [reflexivity|].
  rewrite <- app_assoc. cbn [LF app].
  rewrite (wordRuns_app_whitespace false _ _ 10%N eq_refl). now rewrite IH.
Qed.

Lemma updateCounts_text (ps : list Page) (text : jsstring) :
  fold_left
    (fun text page =>
       fold_left (fun text line => text ++ textContent line ++ LF)
                 (List.filter is_line page) text)
    ps text
  = text ++ concat (map (fun line => textContent line ++ LF)
                        (concat (map (List.filter is_line) ps))).
Proof.
  revert text. induction ps as [|page ps IH]; intros text; simpl.
  - now rewrite app_nil_r.
  - rewrite IH, fold_left_lines, map_app, concat_app. now rewrite <- app_assoc.
Qed.

(** X19. The word count shown is the number of words of the document: the
    sum, over the lines of all pages, of the maximal runs of characters
    that are not whitespace. It is zero exactly when the character
    count is. *)
Theorem updateCounts_counts_words (d : Doc) :
  words (updateCounts d)
  = list_sum (map (fun line => countWords (textContent line)) (allLines d)) /\
  (words (updateCounts d) = 0 <-> chars (updateCounts d) = 0).
Proof.
  unfold updateCounts, allLines. cbn [words chars].
  rewrite (updateCounts_text (pages d) []). cbn [app].
  set (text := concat (map _ (concat _))).
  split.
  - rewrite split_whitespace_length_trim. unfold text. apply countWords_lines.
  - destruct (trim text) as [|c u]; cbn [truthy negb length];
      [tauto|]. unfold split_whitespace_length. split; discriminate.
Qed.

(** ** The PNG export: what it never does *)

Lemma emits_only_ret (P : Event -> Prop) {A} (Q : A -> Prop) (a : A) :
  Q a -> emits_only P Q (ret a).
Proof. intros Ha tr H. split; [exact H|]. now intros a' [= <-]. Qed.

Lemma emits_only_throw (P : Event -> Prop) {A} (Q : A -> Prop) :
  emits_only P Q (@throw A).
Proof. intros tr H. split; [exact H|]. discriminate. Qed.

Lemma emits_only_emit (P : Event -> Prop) (e : Event) :
  P e -> emits_only P (fun _ => True) (emit e).
Proof.
  intros He tr H. unfold emit. cbn [fst]. split; [|trivial].
  apply Forall_app. split; [exact H|]. now constructor.
Qed.

Lemma emits_only_bind (P : Event -> Prop) {A B} (Q : A -> Prop) (R : B -> Prop)
  (c : Exec A) (k : A -> Exec B) :
  emits_only P Q c -> (forall a, Q a -> emits_only P R (k a)) ->
  emits_only P R (bind c k).
Proof.
  intros Hc Hk tr H. unfold bind. destruct (Hc tr H) as [Htr Hval].
  destruct (c tr) as [tr' [a|]]; cbn [fst snd] in *.
  - apply (Hk a (Hval a eq_refl) tr' Htr).
  - split; [exact Htr|discriminate].
Qed.

Lemma emits_only_try_catch (P : Event -> Prop) {A} (Q : A -> Prop)
  (c handler : Exec A) :
  emits_only P Q c -> emits_only P Q handler -> emits_only P Q (try_catch c handler).
Proof.
  intros Hc Hh tr H. unfold try_catch. destruct (Hc tr H) as [Htr Hval].
  destruct (c tr) as [tr' [a|]]; cbn [fst snd] in *.
  - split; [exact Htr|]. intros a' [= <-]. now apply Hval.
  - now apply Hh.
Qed.

Lemma emits_only_for_each (P : Event -> Prop) {A} (body : nat -> A -> Exec unit)
  (i : nat) (items : list A) :
  (forall i x, emits_only P (fun _ => True) (body i x)) ->
  emits_only P (fun _ => True) (for_each body i items).
Proof.
  intros Hbody. revert i. induction items as [|x items IH]; intros i; cbn [for_each].
  - now apply emits_only_ret.
  - eapply emits_only_bind; [apply Hbody|intros _ _; apply IH].
Qed.

Lemma emits_only_if (P : Event -> Prop) {A} (Q : A -> Prop) (b : bool)
  (c1 c2 : Exec A) :
  emits_only P Q c1 -> emits_only P Q c2 -> emits_only P Q (if b then c1 else c2).
Proof. now destruct b. Qed.

Lemma emits_only_renderBlob (P : Event -> Prop) (host : Collaborators) (editor : Page) :
  P (CreateCanvas editor) -> emits_only P (fun _ => True) (renderBlob host editor).
Proof.
  intros H. eapply emits_only_bind; [now apply emits_only_emit|intros _ _].
  apply emits_only_if; [now apply emits_only_ret|apply emits_only_throw].
Qed.

Lemma emits_only_writeFile (P : Event -> Prop) (host : Collaborators)
  (filePath : jsstring) (editor : Page) :
  P (WriteFile filePath editor) ->
  emits_only P (fun _ => True) (writeFile host filePath editor).
Proof.
  intros H. eapply emits_only_bind; [now apply emits_only_emit|intros _ _].
  apply emits_only_if; [now apply emits_only_ret|apply emits_only_throw].
Qed.

(** A dialog answers with the path of its reply, if with any. *)
Lemma emits_only_askDialog (P : Event -> Prop) (e : Event) (r : Reply) :
  P e ->
  emits_only P (fun answer => forall path, answer = Some path -> r = Chosen path)
             (askDialog e r).
Proof.
  intros H. unfold askDialog.
  eapply emits_only_bind; [now apply emits_only_emit|intros _ _].
  destruct r as [path| |].
  - apply emits_only_ret. intros path' E. destruct (truthy path); congruence.
  - apply emits_only_ret. discriminate.
  - apply emits_only_throw.
Qed.

Lemma emits_only_downloadAll (P : Event -> Prop) (host : Collaborators)
  (selected : list Page) :
  (forall e, is_dialog e = false -> (forall p x, e <> WriteFile p x) -> P e) ->
  emits_only P (fun _ => True) (downloadAll host selected).
Proof.
  intros HP. apply emits_only_for_each. intros i editor.
  eapply emits_only_bind;
    [apply emits_only_renderBlob; now apply HP|intros _ _].
  eapply emits_only_bind; [apply emits_only_emit; now apply HP|intros _ _].
  apply emits_only_if; [apply emits_only_emit; now apply HP|now apply emits_only_ret].
Qed.

(** X20. Whatever the collaborators do, [savePNG] writes no file but where
    the user said: the file named in the save dialog, or numbered files
    in the folder named in the folder dialog. *)
Theorem savePNG_writes_where_chosen (host : Collaborators) (d : Doc) :
  Forall (written_where_chosen host) (savePNG host d []).1.
Proof.
  assert (H : emits_only (written_where_chosen host) (fun _ => True) (savePNG host d)).
  { unfold savePNG. apply emits_only_if; [now apply emits_only_ret|].
    apply emits_only_try_catch.
    - unfold saveViaDialog. apply emits_only_if.
      + destruct (List.filter hasContent (pages d)) as [|editor rest];
          [apply emits_only_throw|].
        eapply emits_only_bind; [now apply emits_only_renderBlob|intros _ _].
        eapply emits_only_bind; [now apply emits_only_askDialog|].
        intros [filePath|] Hanswer; [|now apply emits_only_ret].
        eapply emits_only_bind; [|intros _ _; now apply emits_only_emit].
        apply emits_only_writeFile. left. now apply Hanswer.
      + eapply emits_only_bind; [now apply emits_only_askDialog|].
        intros [folderPath|] Hanswer; [|now apply emits_only_ret].
        eapply emits_only_bind; [|intros _ _; now apply emits_only_emit].
        apply emits_only_for_each. intros i editor.
        eapply emits_only_bind; [now apply emits_only_renderBlob|intros _ _].
        eapply emits_only_bind; [|intros _ _; now apply emits_only_emit].
        apply emits_only_writeFile. right. exists folderPath, i.
        split; [now apply Hanswer|reflexivity].
    - eapply emits_only_bind; [now apply emits_only_emit|intros _ _].
      apply emits_only_try_catch; [|now apply emits_only_emit].
      apply emits_only_downloadAll. intros e _ Hw.
      destruct e; try exact I. exfalso. now apply (Hw filePath editor). }
  apply (H []). constructor.
Qed.

Lemma shows_ret {A} (a : A) : shows_at_most 0 (ret a).
Proof. intros tr. simpl. lia. Qed.

Lemma shows_throw {A} : shows_at_most 0 (@throw A).
Proof. intros tr. simpl. lia. Qed.

Lemma shows_emit (e : Event) : shows_at_most (if is_dialog e then 1 else 0) (emit e).
Proof.
  intros tr. unfold emit. cbn [fst]. rewrite List.filter_app, length_app. simpl.
  destruct (is_dialog e); simpl; lia.
Qed.

Lemma shows_weaken (n m : nat) {A} (c : Exec A) :
  n <= m -> shows_at_most n c -> shows_at_most m c.
Proof. intros Hnm Hc tr. specialize (Hc tr). lia. Qed.

Lemma shows_bind (n m : nat) {A B} (c : Exec A) (k : A -> Exec B) :
  shows_at_most n c -> (forall a, shows_at_most m (k a)) ->
  shows_at_most (n + m) (bind c k).
Proof.
  intros Hc Hk tr. unfold bind. specialize (Hc tr).
  destruct (c tr) as [tr' [a|]]; cbn [fst] in *; [|lia].
  specialize (Hk a tr'). lia.
Qed.

Lemma shows_try_catch (n m : nat) {A} (c handler : Exec A) :
  shows_at_most n c -> shows_at_most m handler ->
  shows_at_most (n + m) (try_catch c handler).
Proof.
  intros Hc Hh tr. unfold try_catch. specialize (Hc tr).
  destruct (c tr) as [tr' [a|]]; cbn [fst] in *; [lia|].
  specialize (Hh tr'). lia.
Qed.

Lemma shows_for_each {A} (body : nat -> A -> Exec unit) (i : nat) (items : list A) :
  (forall i x, shows_at_most 0 (body i x)) -> shows_at_most 0 (for_each body i items).
Proof.
  intros Hbody. revert i. induction items as [|x items IH]; intros i; cbn [for_each].
  - apply shows_ret.
  - apply (shows_bind 0 0); [apply Hbody|intros _; apply IH].
Qed.

Lemma shows_if (n : nat) {A} (b : bool) (c1 c2 : Exec A) :
  shows_at_most n c1 -> shows_at_most n c2 -> shows_at_most n (if b then c1 else c2).
Proof. now destruct b. Qed.

Lemma shows_renderBlob (host : Collaborators) (editor : Page) :
  shows_at_most 0 (renderBlob host editor).
Proof.
  apply (shows_bind 0 0); [apply (shows_emit (CreateCanvas editor))|intros _].
  apply shows_if; [apply shows_ret|apply shows_throw].
Qed.

Lemma shows_writeFile (host : Collaborators) (filePath : jsstring) (editor : Page) :
  shows_at_most 0 (writeFile host filePath editor).
Proof.
  apply (shows_bind 0 0); [apply (shows_emit (WriteFile filePath editor))|intros _].
  apply shows_if; [apply shows_ret|apply shows_throw].
Qed.

Lemma shows_askDialog (e : Event) (r : Reply) : shows_at_most 1 (askDialog e r).
Proof.
  unfold askDialog. apply (shows_bind 1 0).
  - apply (shows_weaken (if is_dialog e then 1 else 0)); [destruct (is_dialog e); lia|].
    apply shows_emit.
  - intros _. destruct r; [apply shows_ret|apply shows_ret|apply shows_throw].
Qed.

Lemma shows_downloadAll (host : Collaborators) (selected : list Page) :
  shows_at_most 0 (downloadAll host selected).
Proof.
  apply shows_for_each. intros i editor.
  apply (shows_bind 0 0); [apply shows_renderBlob|intros _].
  apply (shows_bind 0 0); [apply (shows_emit (Download _ _))|intros _].
  apply shows_if; [apply (shows_emit (SetTimeout 500))|apply shows_ret].
Qed.

(** X21. Whatever the collaborators do, and whether or not the export falls
    back to downloads, [savePNG] shows one dialog at most. *)
Theorem savePNG_one_dialog_at_most (host : Collaborators) (d : Doc) :
  length (List.filter is_dialog (savePNG host d []).1) <= 1.
Proof.
  assert (H : shows_at_most 1 (savePNG host d)).
  { unfold savePNG. apply shows_if; [apply (shows_weaken 0); [lia|apply shows_ret]|].
    apply (shows_try_catch 1 0).
    - unfold saveViaDialog. apply shows_if.
      + destruct (List.filter hasContent (pages d)) as [|editor rest];
          [apply (shows_weaken 0); [lia|apply shows_throw]|].
        apply (shows_bind 0 1); [apply shows_renderBlob|intros _].
        apply (shows_bind 1 0); [apply shows_askDialog|].
        intros [filePath|]; [|apply shows_ret].
        apply (shows_bind 0 0); [apply shows_writeFile|intros _].
        apply (shows_emit ConsoleLog).
      + apply (shows_bind 1 0); [apply shows_askDialog|].
        intros [folderPath|]; [|apply shows_ret].
        apply (shows_bind 0 0); [|intros _; apply (shows_emit ConsoleLog)].
        apply shows_for_each. intros i editor.
        apply (shows_bind 0 0); [apply shows_renderBlob|intros _].
        apply (shows_bind 0 0); [apply shows_writeFile|intros _].
        apply (shows_emit ConsoleLog).
    - apply (shows_bind 0 0); [apply (shows_emit ConsoleError)|intros _].
      apply (shows_try_catch 0 0); [apply shows_downloadAll|].
      apply (shows_emit ConsoleError). }
  specialize (H []). simpl in H. exact H.
Qed.

(** ** The PNG export: a write that fails on the way *)

(** X22. When, in an export into a folder, the write of one page throws, the
    pages before it have been written and stay written, no page after
    it is written, the error is logged, and then every exported page,
    those already written included, is rendered again and downloaded. *)
Theorem savePNG_write_fails_midway (host : Collaborators) (d : Doc)
  (folderPath : jsstring) (written : list Page) (failed : Page) (rest : list Page) :
  List.filter hasContent (pages d) = written ++ failed :: rest ->
  1 < length (written ++ failed :: rest) ->
  dialog_open host = Chosen folderPath -> truthy folderPath = true ->
  (forall editor, render_ok host editor = true) ->
  (forall j, j < length written ->
             fs_writeFile host (folderPath ++ js "/" ++ pageFileName j) = true) ->
  fs_writeFile host (folderPath ++ js "/" ++ pageFileName (length written)) = false ->
  savePNG host d []
  = (OpenDialog
       :: concat (imap (fun j editor =>
                          [CreateCanvas editor;
                           WriteFile (folderPath ++ js "/" ++ pageFileName j) editor;
                           ConsoleLog])
                       written)
       ++ [CreateCanvas failed;
           WriteFile (folderPath ++ js "/" ++ pageFileName (length written)) failed;
           ConsoleError]
       ++ downloadTrace (written ++ failed :: rest),
     Some tt).
Proof.
  intros Hsel Hmany Hopen Hfolder Hrender Hok Hfail.
  unfold savePNG. rewrite Hsel.
  replace (length (written ++ failed :: rest) =? 0) with false
    by (symmetry; apply Nat.eqb_neq; lia).
  unfold try_catch, saveViaDialog.
  replace (length (written ++ failed :: rest) =? 1) with false
    by (symmetry; apply Nat.eqb_neq; lia).
  unfold bind at 1. unfold askDialog, bind at 1, emit at 1.
  rewrite Hopen, Hfolder. unfold ret at 1. unfold bind at 1.
  rewrite (for_each_writes_until host folderPath written failed rest 0 _ Hrender Hok Hfail).
  unfold bind at 1, emit at 1.
  rewrite (downloadAll_trace host _ _ Hrender).
  cbn [app]. f_equal. f_equal. rewrite <- !app_assoc. reflexivity.
Qed.

Lemma savePNG_write_fails_midway_witness :
  let host := refusingHost (js "/tmp/out/dokument_seite_2.png") in
  let d := mkDoc [[paragraph "A"]; [paragraph "B"]; [paragraph "C"]] 0 "special-elite" in
  dialog_open host = Chosen (js "/tmp/out") /\
  fs_writeFile host (js "/tmp/out/dokument_seite_1.png") = true /\
  fs_writeFile host (js "/tmp/out/dokument_seite_2.png") = false /\
  savePNG host d []
  = ([OpenDialog;
      CreateCanvas [paragraph "A"];
      WriteFile (js "/tmp/out/dokument_seite_1.png") [paragraph "A"];
      ConsoleLog;
      CreateCanvas [paragraph "B"];
      WriteFile (js "/tmp/out/dokument_seite_2.png") [paragraph "B"];
      ConsoleError;
      CreateCanvas [paragraph "A"];
      Download (js "dokument_seite_1.png") [paragraph "A"];
      SetTimeout 500;
      CreateCanvas [paragraph "B"];
      Download (js "dokument_seite_2.png") [paragraph "B"];
      SetTimeout 500;
      CreateCanvas [paragraph "C"];
      Download (js "dokument_seite_3.png") [paragraph "C"]], Some tt).
Proof.
  intros host d.
  split; [reflexivity|]. split; [reflexivity|]. split; [reflexivity|].
  refine (savePNG_write_fails_midway host d (js "/tmp/out")
            [[paragraph "A"]] [paragraph "B"] [[paragraph "C"]]
            eq_refl _ eq_refl eq_refl (fun _ => eq_refl) _ eq_refl).
  - simpl. lia.
  - intros j Hj. destruct j as [|j]; [reflexivity|simpl in Hj; lia].
Defined.

(** ** The typewriter sound *)

Lemma pickKey_differs (s : TypewriterSound) (draws rest : list Q) (keyIndex : Z) :
  pickKey s draws = Some (keyIndex, rest) ->
  (1 < keyBuffers s -> keyIndex <> lastKeyIndex s) /\
  exists r, In r draws /\
            keyIndex = Qfloor (r * inject_Z (Z.of_nat (keyBuffers s))).
Proof.
  induction draws as [|r draws IH]; simpl; [discriminate|].
  destruct ((_ =? _)%Z && (1 <? keyBuffers s)) eqn:E.
  - intros H. destruct (IH H) as [Hd (r' & Hin & Hr')].
    split; [exact Hd|]. exists r'. split; [now right|exact Hr'].
  - intros [= <- <-]. split.
    + intros Hmany Heq. apply andb_false_iff in E. destruct E as [E|E].
      * apply Z.eqb_neq in E. contradiction.
      * apply Nat.ltb_ge in E. lia.
    + exists r. split; [now left|reflexivity].
Qed.

(** X23. Sounds are at least 50 ms apart: once [play] has started a sound, a
    call less than 50 ms later starts none and changes nothing. *)
Theorem play_rate_limited (isReturn isReturn' : bool) (now now' : Z)
  (draws draws' : list Q) (s s' : TypewriterSound) (sound : Played) :
  play isReturn now draws s = Some (s', Some sound) ->
  (now' - now < 50)%Z ->
  play isReturn' now' draws' s' = Some (s', None).
Proof.
  unfold play. intros Hplay Hsoon.
  destruct (negb (enabled s) || negb (audioContext s)) eqn:Eon; [discriminate|].
  destruct (now - lastPlayTime s <? minInterval)%Z; [discriminate|].
  assert (Hs' : enabled s' = enabled s /\ audioContext s' = audioContext s /\
                lastPlayTime s' = now).
  { destruct isReturn.
    - destruct (returnBuffer s); [|discriminate]. now injection Hplay as <- _.
    - destruct (pickKey s draws) as [[keyIndex rest]|]; [|discriminate].
      destruct (_ && _)%Z; [|discriminate].
      destruct rest; [discriminate|]. now injection Hplay as <- _. }
  destruct Hs' as (-> & -> & ->). rewrite Eon.
  replace (now' - now <? minInterval)%Z with true
    by (symmetry; apply Z.ltb_lt; unfold minInterval; lia).
  reflexivity.
Qed.

Lemma play_rate_limited_witness :
  let s := mkSound true 55 true (1 # 2) true 0 (-1) in
  let s' := mkSound true 55 true (1 # 2) true 1000 27 in
  let sound := PlayedKey 27 ((92 # 100) + (1 # 4) * (16 # 100)) (1 # 2) in
  play false 1000 [1 # 2; 1 # 4] s = Some (s', Some sound) /\
  (1030 - 1000 < 50)%Z /\
  play false 1030 [3 # 4; 1 # 4] s' = Some (s', None).
Proof.
  intros s s' sound.
  assert (Hplay : play false 1000 [1 # 2; 1 # 4] s = Some (s', Some sound))
    by reflexivity.
  assert (Hsoon : (1030 - 1000 < 50)%Z) by reflexivity.
  split; [exact Hplay|]. split; [exact Hsoon|].
  exact (play_rate_limited false false 1000 1030 [1 # 2; 1 # 4] [3 # 4; 1 # 4]
           s s' sound Hplay Hsoon).
Defined.

Lemma pickKey_rest (s : TypewriterSound) (draws rest : list Q) (keyIndex : Z) :
  pickKey s draws = Some (keyIndex, rest) -> forall r, In r rest -> In r draws.
Proof.
  induction draws as [|r0 draws IH]; simpl; [discriminate|].
  destruct (_ && _).
  - intros H r Hr. right. now apply (IH H).
  - intros [= _ <-] r Hr. now right.
Qed.

(** X24. With two key sounds or more loaded, the key sound that [play]
    starts is never the one it started last; it is one of the loaded
    sounds, played at a rate between 0.92 and 1.08 and at the gain of
    the volume, and it is remembered as the last one. *)
Theorem play_never_repeats_key (now : Z) (draws : list Q)
  (s s' : TypewriterSound) (keyIndex : Z) (playbackRate gain : Q) :
  1 < keyBuffers s ->
  (forall r, In r draws -> (0 <= r)%Q /\ (r < 1)%Q) ->
  play false now draws s = Some (s', Some (PlayedKey keyIndex playbackRate gain)) ->
  keyIndex <> lastKeyIndex s /\
  lastKeyIndex s' = keyIndex /\
  (0 <= keyIndex < Z.of_nat (keyBuffers s))%Z /\
  (92 # 100 <= playbackRate)%Q /\ (playbackRate <= 108 # 100)%Q /\
  gain = volume s.
Proof.
  unfold play. intros Hmany Hdraws Hplay.
  destruct (negb (enabled s) || negb (audioContext s)); [discriminate|].
  destruct (now - lastPlayTime s <? minInterval)%Z; [discriminate|].
  destruct (pickKey s draws) as [[k rest]|] eqn:Epick; [|discriminate].
  destruct ((0 <=? k) && (k <? Z.of_nat (keyBuffers s)))%Z eqn:Erange; [|discriminate].
  destruct rest as [|r rest]; [discriminate|].
  injection Hplay as <- <- <- <-.
  destruct (pickKey_differs s draws (r :: rest) k Epick) as [Hdiff _].
  apply andb_true_iff in Erange. destruct Erange as [H0 H1].
  apply Z.leb_le in H0. apply Z.ltb_lt in H1.
  destruct (Hdraws r) as [Hr0 Hr1];
    [apply (pickKey_rest s draws (r :: rest) k Epick); now left|].
  specialize (Hdiff Hmany).
  repeat split; try assumption; try reflexivity; try lia; lra.
Qed.

Lemma play_never_repeats_key_witness :
  let s := mkSound true 55 true (1 # 2) true 0 27 in
  let s' := mkSound true 55 true (1 # 2) true 1000 41 in
  let rate := ((92 # 100) + (1 # 4) * (16 # 100))%Q in
  1 < keyBuffers s /\
  play false 1000 [1 # 2; 3 # 4; 1 # 4] s = Some (s', Some (PlayedKey 41 rate (1 # 2))) /\
  41%Z <> lastKeyIndex s /\
  (92 # 100 <= rate)%Q /\ (rate <= 108 # 100)%Q.
Proof.
  intros s s' rate.
  assert (Hmany : 1 < keyBuffers s) by (simpl; lia).
  assert (Hdraws : forall r, In r [1 # 2; 3 # 4; 1 # 4] -> (0 <= r)%Q /\ (r < 1)%Q).
  { intros r [<-|[<-|[<-|[]]]]; split; (discriminate || reflexivity). }
  assert (Hplay : play false 1000 [1 # 2; 3 # 4; 1 # 4] s
                  = Some (s', Some (PlayedKey 41 rate (1 # 2)))) by reflexivity.
  destruct (play_never_repeats_key 1000 [1 # 2; 3 # 4; 1 # 4] s s' 41 rate (1 # 2)
              Hmany Hdraws Hplay) as (Hdiff & _ & _ & Hlo & Hhi & _).
  repeat split; assumption.
Defined.

(** ** The position of an offset in the text of an element *)

(** Arithmetic on lengths, whatever the name of the type of strings. *)
Ltac jlia := unfold jsstring in *; lia.

Lemma walk_answers (offset : nat) (node : Node) :
  forall st, st.1 <= offset -> walk_answer offset node st.
Proof.
  induction node as [text|children IH] using Node_induction; intros [cur k] Hcur;
    unfold walk_answer; cbn [fst snd] in *.
  - cbn [walk textNodes]. destruct (Nat.leb_spec offset (cur + length text)) as [Hin|Hout].
    + exists 0, text. cbn [take concat length]. repeat split; jlia.
    + cbn [concat length app]. rewrite app_nil_r. repeat split; jlia.
  - cbn [walk textNodes]. revert cur k Hcur.
    induction IH as [|c cs Hc _ IHcs]; intros cur k Hcur.
    + cbn [concat length]. repeat split; try jlia. congruence.
    + specialize (Hc (cur, k) Hcur). unfold walk_answer in Hc. cbn [fst snd] in Hc.
      destruct (walk offset c (cur, k)) as [[k' off]|[cur' k']].
      * destruct Hc as (j & text & Hj & -> & Hoff & Hsum).
        exists j, text. split; [now apply lookup_app_l_Some|].
        split; [reflexivity|]. split; [exact Hoff|].
        rewrite take_app_le;
          [exact Hsum|apply Nat.lt_le_incl; eapply lookup_lt_Some; exact Hj].
      * destruct Hc as (-> & -> & Hle & Hlt).
        specialize (IHcs _ (k + length (textNodes c)) Hle).
        match goal with
        | |- match ?w with _ => _ end =>
            destruct w as [[k'' off]|[cur'' k'']]
        end.
        -- destruct IHcs as (j & text & Hj & -> & Hoff & Hsum).
           exists (length (textNodes c) + j), text.
           split; [rewrite lookup_app_r by apply Nat.le_add_r;
                   now rewrite Nat.add_comm, Nat.add_sub|].
           split; [jlia|]. split; [exact Hoff|].
           rewrite take_app_add, concat_app, length_app. jlia.
        -- destruct IHcs as (-> & -> & Hle' & Hlt').
           rewrite concat_app, !length_app. repeat split; try jlia.
           intros Hne.
           match type of Hlt' with
           | ?rest <> [] -> _ => destruct rest as [|t ts] eqn:Et
           end.
           ++ rewrite app_nil_r in Hne. specialize (Hlt Hne). simpl. jlia.
           ++ specialize (Hlt' ltac:(discriminate)). jlia.
Qed.

(** X25. The caret that [findTextNodeAtOffset] finds in a text node stands
    at the given offset of the text of the element: the texts of the
    text nodes before that node and the offset in it add up to the
    offset asked for. An offset within the text of an element that has
    a text node is always found in one; the start of the element is
    the answer only beyond the text or without a text node. *)
Theorem findTextNodeAtOffset_position (element : Node) (offset : nat) :
  (forall k off,
      findTextNodeAtOffset element offset = InTextNode k off ->
      exists text,
        textNodes element !! k = Some text /\ off <= length text /\
        length (concat (take k (textNodes element))) + off = offset) /\
  (findTextNodeAtOffset element offset = AtElementStart ->
   textNodes element = [] \/ length (concat (textNodes element)) < offset).
Proof.
  unfold findTextNodeAtOffset.
  pose proof (walk_answers offset element (0, 0) (Nat.le_0_l _)) as H.
  unfold walk_answer in H. cbn [fst snd] in H.
  destruct (walk offset element (0, 0)) as [[k' off']|[cur' k']].
  - destruct H as (j & text & Hj & -> & Hoff & Hsum). split; [|discriminate].
    intros k off [= <- <-]. exists text. repeat split; assumption.
  - destruct H as (-> & _ & _ & Hlt). split; [discriminate|]. intros _.
    destruct (textNodes element) as [|t ts]; [now left|right].
    apply Hlt. discriminate.
Qed.

(** ** Editing: inserting an image *)

Lemma alter_middle {A} (f : A -> A) (l1 l2 : list A) (x : A) :
  alter f (length l1) (l1 ++ x :: l2) = l1 ++ f x :: l2.
Proof. rewrite <- (Nat.add_0_r (length l1)). now rewrite alter_app_r. Qed.

Lemma take_S_middle {A} (l1 l2 : list A) (x : A) :
  take (S (length l1)) (l1 ++ x :: l2) = l1 ++ [x].
Proof.
  replace (S (length l1)) with (length l1 + 1) by lia. now rewrite take_app_add.
Qed.

Lemma drop_S_middle {A} (l1 l2 : list A) (x : A) :
  drop (S (length l1)) (l1 ++ x :: l2) = l2.
Proof.
  replace (l1 ++ x :: l2) with ((l1 ++ [x]) ++ l2) by (now rewrite <- app_assoc).
  replace (S (length l1)) with (length (l1 ++ [x])) by (rewrite length_app; simpl; lia).
  apply drop_app_length.
Qed.

Lemma findCaretLine_Some (editor : Page) (i : nat) :
  findCaretLine editor = Some i ->
  exists before cur after,
    editor = before ++ cur :: after /\ length before = i /\
    caret cur = true /\ is_line cur = true.
Proof.
  revert i. induction editor as [|b rest IH]; intros i; simpl; [discriminate|].
  destruct (caret b && is_line b) eqn:E.
  - intros [= <-]. apply andb_true_iff in E. destruct E as [Hc Hl].
    now exists [], b, rest.
  - destruct (findCaretLine rest) as [j|]; [|discriminate]. intros [= <-].
    destruct (IH j eq_refl) as (before & cur & after & -> & <- & Hc & Hl).
    now exists (b :: before), cur, after.
Qed.

Lemma findCaretLineInPages_Some (ps : list Page) (p i : nat) :
  findCaretLineInPages ps = Some (p, i) ->
  exists pagesBefore editor pagesAfter,
    ps = pagesBefore ++ editor :: pagesAfter /\ length pagesBefore = p /\
    findCaretLine editor = Some i.
Proof.
  revert p. induction ps as [|editor rest IH]; intros p; simpl; [discriminate|].
  destruct (findCaretLine editor) as [j|] eqn:E.
  - intros [= <- <-]. now exists [], editor, rest.
  - destruct (findCaretLineInPages rest) as [[q j]|]; [|discriminate].
    intros [= <- <-].
    destruct (IH q eq_refl) as (pb & e & pa & -> & <- & He).
    now exists (editor :: pb), e, pa.
Qed.

Lemma lastLineIndex_Some (editor : Page) (i : nat) :
  lastLineIndex editor = Some i ->
  exists before line after,
    editor = before ++ line :: after /\ length before = i /\ is_line line = true.
Proof.
  revert i. induction editor as [|b rest IH]; intros i; simpl; [discriminate|].
  destruct (lastLineIndex rest) as [j|].
  - intros [= <-]. destruct (IH j eq_refl) as (before & line & after & -> & <- & Hl).
    now exists (b :: before), line, after.
  - destruct (is_line b) eqn:E; [|discriminate]. intros [= <-].
    now exists [], b, rest.
Qed.

Lemma map_element_clearCaret (blocks : list Block) :
  map element (map clearCaret blocks) = map element blocks.
Proof. rewrite map_map. now apply map_ext. Qed.

Lemma map_elements_clearCaret (ps : list Page) :
  map (map element) (map (map clearCaret) ps) = map (map element) ps.
Proof.
  rewrite map_map. apply map_ext. intros page. apply map_element_clearCaret.
Qed.

(** X26. In a document whose active index points at a page,
    [insertImageElement] runs to its end and puts the image into one
    page, directly followed by a new empty line in the current font;
    the blocks the document had are all still there, in their places
    and with their content. The page that received the image is one
    that [savePNG] exports. *)
Theorem insertImageElement_adds_image_and_line (img : Image) (d : Doc) :
  valid_index d ->
  exists pagesBefore before line after pagesAfter,
    insertImageElement img d
    = (mkDoc (pagesBefore ++ (before ++ imageLine img :: line :: after) :: pagesAfter)
             (currentPageIndex d) (state_font d), true) /\
    element line = LineDiv (Some (state_font d)) [] /\
    map (map element) (pages d)
    = map (map element) (pagesBefore ++ (before ++ after) :: pagesAfter) /\
    hasContent (before ++ imageLine img :: line :: after) = true.
Proof.
  intros Hvalid. unfold valid_index in Hvalid.
  destruct (lookup_lt_is_Some_2 _ _ Hvalid) as [current Hcurrent].
  assert (Hcontent : forall (before : Page) line after,
             hasContent (before ++ imageLine img :: line :: after) = true).
  { intros before line after. rewrite hasContent_qualifies. unfold qualifies.
    rewrite (existsb_app is_image_line). simpl. now rewrite !orb_true_r. }
  unfold insertImageElement, getCurrentEditor. rewrite Hcurrent.
  destruct (findCaretLineInPages (pages d)) as [[p i]|] eqn:Ecaret.
  - destruct (findCaretLineInPages_Some _ _ _ Ecaret)
      as (pb & editor & pa & Hps & <- & Hline).
    destruct (findCaretLine_Some _ _ Hline) as (b1 & cur & a1 & -> & <- & _ & _).
    rewrite Hps, map_app. cbn [map]. rewrite map_app. cbn [map].
    rewrite <- (length_map (map clearCaret) pb), alter_middle.
    rewrite <- (length_map clearCaret b1), take_S_middle, drop_S_middle.
    exists (map (map clearCaret) pb), (map clearCaret b1 ++ [clearCaret cur]),
      (mkBlock (LineDiv (Some (state_font d)) []) true), (map clearCaret a1),
      (map (map clearCaret) pa).
    split; [now rewrite <- !app_assoc|]. split; [reflexivity|]. split; [|apply Hcontent].
    rewrite !map_app. cbn [map]. rewrite !map_elements_clearCaret.
    rewrite !map_app. cbn [map]. rewrite !map_element_clearCaret.
    now rewrite <- !app_assoc.
  - destruct (lastLineIndex current) as [i|] eqn:Elast.
    + destruct (lastLineIndex_Some _ _ Elast) as (b1 & l & a1 & -> & <- & _).
      destruct (split_at_lookup _ _ _ Hcurrent) as (pb & pa & Hps & Hc).
      rewrite Hc, Hps, map_app. cbn [map]. rewrite map_app. cbn [map].
      rewrite <- (length_map (map clearCaret) pb), alter_middle.
      rewrite <- (length_map clearCaret b1), take_S_middle, drop_S_middle.
      rewrite !length_map.
      exists (map (map clearCaret) pb), (map clearCaret b1 ++ [clearCaret l]),
        (mkBlock (LineDiv (Some (state_font d)) []) true), (map clearCaret a1),
        (map (map clearCaret) pa).
      split; [now rewrite <- !app_assoc|]. split; [reflexivity|].
      split; [|apply Hcontent].
      rewrite !map_app. cbn [map]. rewrite !map_elements_clearCaret.
      rewrite !map_app. cbn [map]. rewrite !map_element_clearCaret.
      now rewrite <- !app_assoc.
    + destruct (split_at_lookup _ _ _ Hcurrent) as (pb & pa & Hps & Hc).
      rewrite Hc, Hps, insert_middle.
      exists pb, current, (newLine (state_font d)), [], pa.
      split; [reflexivity|]. split; [reflexivity|]. split; [|apply Hcontent].
      now rewrite app_nil_r.
Qed.

Lemma insertImageElement_adds_image_and_line_witness :
  let d := mkDoc [[paragraph "A"; paragraphWithCaret "B"; paragraph "C"]] 0 "adler" in
  let img := mkImage 640 480 640 480 false in
  valid_index d /\
  exists pagesBefore before line after pagesAfter,
    insertImageElement img d
    = (mkDoc (pagesBefore ++ (before ++ imageLine img :: line :: after) :: pagesAfter)
             (currentPageIndex d) (state_font d), true) /\
    element line = LineDiv (Some (state_font d)) [] /\
    map (map element) (pages d)
    = map (map element) (pagesBefore ++ (before ++ after) :: pagesAfter) /\
    hasContent (before ++ imageLine img :: line :: after) = true.
Proof.
  intros d img.
  assert (Hvalid : valid_index d) by (unfold valid_index; simpl; lia).
  split; [exact Hvalid|].
  exact (insertImageElement_adds_image_and_line img d Hvalid).
Defined.

(** ** Editing: Backspace at the start of a line *)

Lemma findCaretLine_clearCaret (editor : Page) :
  findCaretLine (map clearCaret editor) = None.
Proof. induction editor as [|b rest IH]; simpl; [reflexivity|now rewrite IH]. Qed.

Lemma findCaretLineInPages_app (pagesBefore : list Page) (editor : Page)
      (pagesAfter : list Page) (i : nat) :
  findCaretLine editor = Some i ->
  findCaretLineInPages (map (map clearCaret) pagesBefore ++ editor :: pagesAfter)
  = Some (length pagesBefore, i).
Proof.
  intros Hline. induction pagesBefore as [|page rest IH]; simpl.
  - now rewrite Hline.
  - now rewrite findCaretLine_clearCaret, IH.
Qed.

Lemma findCaretLine_app (before : Page) (b : Block) (after : Page) :
  caret b = true -> is_line b = true ->
  findCaretLine (map clearCaret before ++ b :: after) = Some (length before).
Proof.
  intros Hc Hl. induction before as [|x rest IH]; simpl.
  - now rewrite Hc, Hl.
  - now rewrite IH.
Qed.

Lemma textContent_clearCaret (b : Block) : textContent (clearCaret b) = textContent b.
Proof. reflexivity. Qed.

Lemma editorTextContent_clearCaret (editor : Page) :
  editorTextContent (map clearCaret editor) = editorTextContent editor.
Proof. unfold editorTextContent. rewrite map_map. reflexivity. Qed.

Lemma textContent_mergeLines (prev cur : Block) :
  is_line prev = true -> is_line cur = true ->
  textContent (mergeLines prev cur) = textContent prev ++ textContent cur.
Proof.
  unfold is_line, mergeLines, textContent.
  destruct (element prev) as [font runs|]; [|discriminate].
  destruct (element cur) as [font' runs'|]; [|discriminate].
  intros _ _. simpl. now rewrite map_app, concat_app.
Qed.

Lemma mergeLines_line (prev cur : Block) :
  is_line prev = true -> is_line cur = true ->
  is_line (mergeLines prev cur) = true /\ caret (mergeLines prev cur) = true.
Proof.
  unfold is_line, mergeLines.
  destruct (element prev) as [font runs|]; [|discriminate].
  destruct (element cur) as [font' runs'|]; [|discriminate].
  now intros _ _.
Qed.

(** The shape of a document on which Backspace merges, and of the
    document after it. *)
Lemma handleBackspace_Some (isAtStart : bool) (d d' : Doc) :
  handleBackspace isAtStart d = Some d' ->
  isAtStart = true /\
  exists pagesBefore before prevLine currentLine after pagesAfter,
    pages d = pagesBefore ++ (before ++ prevLine :: currentLine :: after) :: pagesAfter /\
    findCaretLineInPages (pages d) = Some (length pagesBefore, S (length before)) /\
    is_line prevLine = true /\ is_line currentLine = true /\
    d' = mkDoc (map (map clearCaret) pagesBefore
                  ++ (map clearCaret before
                        ++ mergeLines prevLine currentLine :: map clearCaret after)
                  :: map (map clearCaret) pagesAfter)
               (currentPageIndex d) (state_font d).
Proof.
  unfold handleBackspace.
  destruct (findCaretLineInPages (pages d)) as [[p [|j]]|] eqn:Ecaret; try discriminate.
  destruct (findCaretLineInPages_Some _ _ _ Ecaret) as (pb & editor & pa & Hps & <- & Hline).
  destruct (findCaretLine_Some _ _ Hline) as (b1 & cur & a1 & Heditor & Hlen & _ & Hcur).
  rewrite Hps, list_lookup_middle by reflexivity.
  destruct b1 as [|x b1 _] using rev_ind; [discriminate|].
  rewrite length_app in Hlen. simpl in Hlen.
  assert (Hj : length b1 = j) by lia. subst j. clear Hlen.
  assert (Heditor' : editor = b1 ++ x :: cur :: a1) by (now rewrite Heditor, <- app_assoc).
  clear Heditor. subst editor.
  rewrite list_lookup_middle by reflexivity.
  replace ((b1 ++ x :: cur :: a1) !! S (length b1)) with (Some cur).
  2:{ symmetry. replace (b1 ++ x :: cur :: a1) with ((b1 ++ [x]) ++ cur :: a1)
        by (now rewrite <- app_assoc).
      apply list_lookup_middle. rewrite length_app. simpl. lia. }
  destruct isAtStart; simpl; [|discriminate].
  destruct (is_line x) eqn:Hx; [|discriminate].
  intros [= <-]. split; [reflexivity|].
  exists pb, b1, x, cur, a1, pa. split; [reflexivity|].
  split; [reflexivity|]. split; [exact Hx|].
  split; [exact Hcur|]. f_equal.
  rewrite map_app. cbn [map]. rewrite <- (length_map (map clearCaret) pb), insert_middle.
  rewrite take_app_length.
  replace (b1 ++ x :: cur :: a1) with ((b1 ++ [x; cur]) ++ a1)
    by (now rewrite <- app_assoc).
  replace (S (S (length b1))) with (length (b1 ++ [x; cur]))
    by (rewrite length_app; simpl; lia).
  now rewrite drop_app_length.
Qed.

Lemma concat_clearCaret (ps : list Page) :
  concat (map (map clearCaret) ps) = map clearCaret (concat ps).
Proof.
  induction ps as [|page rest IH]; simpl; [reflexivity|].
  now rewrite IH, map_app.
Qed.

Lemma images_clearCaret (blocks : list Block) :
  map element (List.filter is_image_line (map clearCaret blocks))
  = map element (List.filter is_image_line blocks).
Proof.
  induction blocks as [|b rest IH]; simpl; [reflexivity|].
  change (is_image_line (clearCaret b)) with (is_image_line b).
  destruct (is_image_line b); simpl; now rewrite IH.
Qed.

Lemma is_line_not_image (b : Block) : is_line b = true -> is_image_line b = false.
Proof. unfold is_line, is_image_line. now destruct (element b). Qed.

(** X27. When the Backspace branch of [handleKeyDown] takes the key,
    the caret was at the start of a line that is not the first element
    of its page; the document afterwards has one block fewer, the same
    images in the same order and, page by page, the same text, character
    for character; the caret is in the merged line, at the position of
    the former previous line. *)
Theorem handleBackspace_merges_with_previous_line (isAtStart : bool) (d d' : Doc) :
  handleBackspace isAtStart d = Some d' ->
  isAtStart = true /\
  map editorTextContent (pages d') = map editorTextContent (pages d) /\
  map element (List.filter is_image_line (concat (pages d')))
  = map element (List.filter is_image_line (concat (pages d))) /\
  S (total_blocks (pages d')) = total_blocks (pages d) /\
  exists p j,
    findCaretLineInPages (pages d) = Some (p, S j) /\
    findCaretLineInPages (pages d') = Some (p, j).
Proof.
  intros Hrun.
  destruct (handleBackspace_Some _ _ _ Hrun)
    as (Hstart & pb & b1 & x & cur & a1 & pa & Hps & Hfound & Hx & Hcur & ->).
  destruct (mergeLines_line x cur Hx Hcur) as [Hml Hmc].
  split; [exact Hstart|]. cbn [pages]. rewrite Hps in *.
  split; [|split; [|split]].
  - rewrite !map_app. cbn [map]. rewrite !map_map.
    assert (Hclear : forall ps : list Page,
               map (fun page => editorTextContent (map clearCaret page)) ps
               = map editorTextContent ps)
      by (intros ps; apply map_ext; intros page; apply editorTextContent_clearCaret).
    rewrite !Hclear. f_equal. f_equal.
    rewrite <- (editorTextContent_clearCaret (b1 ++ x :: cur :: a1)).
    unfold editorTextContent.
    rewrite !map_app. cbn [map]. rewrite !concat_app. cbn [concat].
    rewrite textContent_mergeLines by assumption.
    now rewrite <- app_assoc.
  - rewrite !concat_app. cbn [concat]. rewrite !concat_clearCaret.
    rewrite !List.filter_app. cbn [List.filter].
    rewrite (is_line_not_image _ Hml), (is_line_not_image _ Hx), (is_line_not_image _ Hcur).
    rewrite !map_app, !images_clearCaret. reflexivity.
  - unfold total_blocks. rewrite !concat_app. cbn [concat]. rewrite !concat_clearCaret.
    rewrite !length_app. cbn [length]. rewrite !length_map. lia.
  - exists (length pb), (length b1). split; [exact Hfound|].
    apply findCaretLineInPages_app. now apply findCaretLine_app.
Qed.

Lemma handleBackspace_merges_with_previous_line_witness :
  let d := mkDoc [[paragraph "A"; picture]; [paragraph "B"; paragraphWithCaret "C"]]
                 1 "adler" in
  let d' := mkDoc [[paragraph "A"; picture];
                   [mergeLines (paragraph "B") (paragraphWithCaret "C")]] 1 "adler" in
  handleBackspace true d = Some d' /\
  (true = true /\
   map editorTextContent (pages d') = map editorTextContent (pages d) /\
   map element (List.filter is_image_line (concat (pages d')))
   = map element (List.filter is_image_line (concat (pages d))) /\
   S (total_blocks (pages d')) = total_blocks (pages d) /\
   exists p j,
     findCaretLineInPages (pages d) = Some (p, S j) /\
     findCaretLineInPages (pages d') = Some (p, j)).
Proof.
  intros d d'.
  assert (Hrun : handleBackspace true d = Some d') by reflexivity.
  split; [exact Hrun|].
  exact (handleBackspace_merges_with_previous_line true d d' Hrun).
Defined.

(** ** Page navigation and clearing *)

Lemma querySelector_line_Some (editor : Page) (i : nat) (firstLine : Block) :
  querySelector_line editor = Some (i, firstLine) ->
  exists before after,
    editor = before ++ firstLine :: after /\ length before = i /\
    is_line firstLine = true /\ Forall (fun b => is_line b = false) before.
Proof.
  revert i. induction editor as [|b rest IH]; intros i; simpl; [discriminate|].
  destruct (is_line b) eqn:El.
  - intros [= <- <-]. now exists [], rest.
  - destruct (querySelector_line rest) as [[j l]|]; [|discriminate].
    intros [= <- <-]. destruct (IH j eq_refl) as (before & after & -> & <- & Hl & Hb).
    exists (b :: before), after. repeat split; try assumption. now constructor.
Qed.

(** The pages once the selection has been put into block [i] of page
    [p]. *)
Lemma selectIn_middle (pagesBefore : list Page) (before : Page) (b : Block)
  (after : Page) (pagesAfter : list Page) :
  selectIn (length pagesBefore) (length before)
           (pagesBefore ++ (before ++ b :: after) :: pagesAfter)
  = map (map clearCaret) pagesBefore
      ++ (map clearCaret before ++ mkBlock (element b) true :: map clearCaret after)
      :: map (map clearCaret) pagesAfter.
Proof.
  unfold selectIn. rewrite map_app. cbn [map]. rewrite map_app. cbn [map].
  rewrite <- (length_map (map clearCaret) pagesBefore), alter_middle.
  now rewrite <- (length_map clearCaret before), alter_middle.
Qed.

(** Moving the selection changes no element and no page. *)
Lemma selectIn_elements (p i : nat) (ps : list Page) :
  map (map element) (selectIn p i ps) = map (map element) ps.
Proof.
  unfold selectIn. rewrite <- (map_elements_clearCaret ps).
  generalize (map (map clearCaret) ps). clear ps. intros ps. revert p.
  induction ps as [|page ps IH]; intros p; [reflexivity|].
  destruct p as [|p]; cbn [alter list_alter map].
  - f_equal. clear. revert i. induction page as [|b page IH]; intros i; [reflexivity|].
    destruct i as [|i]; cbn [alter list_alter map]; [reflexivity|]. now rewrite IH.
  - f_equal. apply IH.
Qed.

Lemma selectIn_length (p i : nat) (ps : list Page) :
  length (selectIn p i ps) = length ps.
Proof.
  rewrite <- (length_map (map element) (selectIn p i ps)), selectIn_elements.
  apply length_map.
Qed.

Lemma clearCaret_elements (ps ps' : list Page) :
  map (map element) ps = map (map element) ps' ->
  map (map clearCaret) ps = map (map clearCaret) ps'.
Proof.
  intros H.
  assert (E : forall qs : list Page,
             map (map clearCaret) qs
             = map (map (fun e => mkBlock e false)) (map (map element) qs)).
  { intros qs. rewrite map_map. apply map_ext. intros page. now rewrite map_map. }
  now rewrite (E ps), (E ps'), H.
Qed.

Lemma clearCaret_id (blocks : list Block) :
  Forall (fun b => caret b = false) blocks -> map clearCaret blocks = blocks.
Proof.
  induction 1 as [|[e c] blocks Hb _ IH]; [reflexivity|].
  cbn [map]. rewrite IH. simpl in Hb. subst c. reflexivity.
Qed.

Lemma clearCaret_pages_id (ps : list Page) :
  Forall (fun b => caret b = false) (concat ps) -> map (map clearCaret) ps = ps.
Proof.
  induction ps as [|page ps IH]; [reflexivity|]. cbn [concat map].
  intros H. apply Forall_app in H. destruct H as [Hpage Hps].
  now rewrite (clearCaret_id page Hpage), (IH Hps).
Qed.

Lemma filter_caret_clearCaret (blocks : list Block) :
  List.filter caret (map clearCaret blocks) = [].
Proof. induction blocks as [|b blocks IH]; [reflexivity|exact IH]. Qed.

Lemma focusCurrentPage_elements (d : Doc) :
  currentPageIndex (focusCurrentPage d) = currentPageIndex d /\
  state_font (focusCurrentPage d) = state_font d /\
  map (map element) (pages (focusCurrentPage d)) = map (map element) (pages d).
Proof.
  unfold focusCurrentPage. destruct (getCurrentEditor d) as [editor|]; [|now repeat split].
  destruct (querySelector_line editor) as [[i firstLine]|]; [|now repeat split].
  cbn [pages currentPageIndex state_font]. split; [reflexivity|]. split; [reflexivity|].
  apply selectIn_elements.
Qed.

(** Where the selection is once [focusCurrentPage] has run on a page
    that has a line. *)
Lemma focusCurrentPage_selection (d : Doc) (editor : Page) (i : nat) (firstLine : Block) :
  getCurrentEditor d = Some editor ->
  querySelector_line editor = Some (i, firstLine) ->
  findCaretLineInPages (pages (focusCurrentPage d)) = Some (currentPageIndex d, i) /\
  List.filter caret (concat (pages (focusCurrentPage d)))
  = [mkBlock (element firstLine) true].
Proof.
  intros Heditor Hline. unfold focusCurrentPage. rewrite Heditor, Hline. cbn [pages].
  unfold getCurrentEditor in Heditor.
  destruct (split_at_lookup _ _ _ Heditor) as (pb & pa & Hps & Hp).
  destruct (querySelector_line_Some _ _ _ Hline) as (b1 & a1 & -> & <- & Hl & _).
  rewrite Hp at 1. rewrite Hp at 2. rewrite Hps, selectIn_middle. split.
  - rewrite Hp. apply findCaretLineInPages_app. now apply findCaretLine_app.
  - rewrite concat_app. cbn [concat]. rewrite !concat_clearCaret, <- !app_assoc.
    rewrite !List.filter_app. cbn [List.filter caret].
    now rewrite !filter_caret_clearCaret.
Qed.

Lemma navigateToPage_out_of_range (index : Z) (d : Doc) :
  (index < 0 \/ Z.of_nat (length (pages d)) <= index)%Z ->
  Navigation.navigateToPage index d = d.
Proof.
  intros H. unfold Navigation.navigateToPage.
  replace ((index <? 0)%Z || (Z.of_nat (length (pages d)) <=? index)%Z) with true;
    [reflexivity|].
  symmetry. apply orb_true_iff.
  destruct H; [left; now apply Z.ltb_lt|right; now apply Z.leb_le].
Qed.

Lemma navigateToPage_in_range (index : Z) (d : Doc) :
  (0 <= index < Z.of_nat (length (pages d)))%Z ->
  Navigation.navigateToPage index d
  = focusCurrentPage (mkDoc (pages d) (Z.to_nat index) (state_font d)).
Proof.
  intros H. unfold Navigation.navigateToPage.
  replace ((index <? 0)%Z || (Z.of_nat (length (pages d)) <=? index)%Z) with false;
    [reflexivity|].
  symmetry. apply orb_false_iff. split; [apply Z.ltb_ge|apply Z.leb_gt]; lia.
Qed.

(** In [checkPageOverflow] the call of [navigateToPage] is followed by
    the statements that put the selection into the moved element. In a
    document where the moved element is the one block that holds the
    caret, what the two leave is the document with the next page made
    active, the selection where it was: the call of [focusCurrentPage]
    inside [navigateToPage] leaves no trace. *)
Lemma followMovedElement_navigateToPage (before : list Page) (front : Page)
  (lastElement : Block) (nextEditor : Page) (after : list Page) (font : string) :
  caret lastElement = true ->
  Forall (fun b => caret b = false) (concat before) ->
  Forall (fun b => caret b = false) front ->
  Forall (fun b => caret b = false) nextEditor ->
  Forall (fun b => caret b = false) (concat after) ->
  let d := mkDoc (before ++ front :: (lastElement :: nextEditor) :: after)
                 (length before) font in
  followMovedElement (S (currentPageIndex d)) d
  = navigateToPage (Z.of_nat (currentPageIndex d) + 1) d.
Proof.
  intros Hlast Hbefore Hfront Hnext Hafter d.
  set (ps := before ++ front :: (lastElement :: nextEditor) :: after).
  assert (Hlen : length ps = S (S (length before + length after))).
  { unfold ps. rewrite length_app. simpl. lia. }
  assert (Hnav : navigateToPage (Z.of_nat (currentPageIndex d) + 1) d
                 = mkDoc ps (S (length before)) font).
  { apply (navigateToPage_next ps (length before) font). lia. }
  rewrite Hnav. unfold followMovedElement.
  rewrite navigateToPage_in_range by (change (pages d) with ps; cbn [currentPageIndex d]; lia).
  change (pages d) with ps. change (state_font d) with font.
  change (currentPageIndex d) with (length before).
  rewrite Nat2Z.id.
  destruct (focusCurrentPage_elements (mkDoc ps (S (length before)) font))
    as (Hindex & Hfont & Helements).
  rewrite Hindex, Hfont. cbn [currentPageIndex state_font pages] in *. f_equal.
  unfold selectIn. rewrite (clearCaret_elements _ ps) by exact Helements.
  assert (Hps : map (map clearCaret) ps
                = before ++ front :: (clearCaret lastElement :: nextEditor) :: after).
  { unfold ps. rewrite map_app. cbn [map].
    now rewrite (clearCaret_pages_id before Hbefore), (clearCaret_id front Hfront),
      (clearCaret_id nextEditor Hnext), (clearCaret_pages_id after Hafter). }
  rewrite Hps. replace (S (length before)) with (length before + 1) by lia.
  rewrite alter_app_r. cbn [alter list_alter]. unfold ps. do 3 f_equal.
  destruct lastElement as [e c]. simpl in Hlast. now subst c.
Qed.

(** X14. Navigation keeps the active index on a page. A request for a
    page that does not exist changes nothing. Any other request, the
    one for the active page included, makes the requested page active,
    leaves the elements of all pages as they are, and puts the
    selection into the first line of the requested page when it has
    one: that line is then the line of the caret, and no other block
    holds the selection. Each of the two buttons is disabled exactly
    when a click on it would change nothing. *)
Theorem navigateToPage_within_pages (d : Doc) :
  valid_index d ->
  (forall index, valid_index (Navigation.navigateToPage index d)) /\
  (forall index, (index < 0 \/ Z.of_nat (length (pages d)) <= index)%Z ->
                 Navigation.navigateToPage index d = d) /\
  (forall index, (0 <= index < Z.of_nat (length (pages d)))%Z ->
     let d' := Navigation.navigateToPage index d in
     currentPageIndex d' = Z.to_nat index /\
     state_font d' = state_font d /\
     map (map element) (pages d') = map (map element) (pages d) /\
     forall editor i firstLine,
       pages d !! Z.to_nat index = Some editor ->
       querySelector_line editor = Some (i, firstLine) ->
       findCaretLineInPages (pages d') = Some (Z.to_nat index, i) /\
       List.filter caret (concat (pages d')) = [mkBlock (element firstLine) true]) /\
  (prev_disabled (updatePageIndicator d) = true <-> prevPageClick d = d) /\
  (next_disabled (updatePageIndicator d) = true <-> nextPageClick d = d).
Proof.
  unfold valid_index. intros Hvalid.
  assert (Hin : forall index, (0 <= index < Z.of_nat (length (pages d)))%Z ->
                  let d' := Navigation.navigateToPage index d in
                  currentPageIndex d' = Z.to_nat index /\
                  state_font d' = state_font d /\
                  map (map element) (pages d') = map (map element) (pages d)).
  { intros index H d'. unfold d'. rewrite (navigateToPage_in_range index d H).
    apply (focusCurrentPage_elements (mkDoc (pages d) (Z.to_nat index) (state_font d))). }
  split; [|split; [intros index H; now apply navigateToPage_out_of_range|split; [|split]]].
  - intros index.
    destruct (Z.lt_ge_cases index 0) as [Hneg|Hpos];
      [rewrite navigateToPage_out_of_range by lia; exact Hvalid|].
    destruct (Z.lt_ge_cases index (Z.of_nat (length (pages d)))) as [Hlt|Hge];
      [|rewrite navigateToPage_out_of_range by lia; exact Hvalid].
    destruct (Hin index ltac:(lia)) as (Hindex & _ & Helements).
    rewrite Hindex, <- (length_map (map element)), Helements, length_map. lia.
  - intros index H. destruct (Hin index H) as (Hindex & Hfont & Helements).
    split; [exact Hindex|]. split; [exact Hfont|]. split; [exact Helements|].
    intros editor i firstLine Heditor Hline.
    rewrite (navigateToPage_in_range index d H).
    exact (focusCurrentPage_selection
             (mkDoc (pages d) (Z.to_nat index) (state_font d)) editor i firstLine
             Heditor Hline).
  - unfold prevPageClick, updatePageIndicator. cbn [prev_disabled].
    rewrite Nat.eqb_eq. split.
    + intros H. apply navigateToPage_out_of_range. lia.
    + intros H. destruct (currentPageIndex d) as [|c] eqn:Ec; [reflexivity|exfalso].
      destruct (Hin (Z.of_nat (S c) - 1)%Z ltac:(lia)) as (Hindex & _).
      rewrite H, Ec in Hindex. lia.
  - unfold nextPageClick, updatePageIndicator. cbn [next_disabled].
    rewrite Z.eqb_eq. split.
    + intros H. apply navigateToPage_out_of_range. lia.
    + intros H.
      destruct (Z.lt_ge_cases (Z.of_nat (currentPageIndex d) + 1)
                              (Z.of_nat (length (pages d)))) as [Hlt|Hge];
        [exfalso|lia].
      destruct (Hin (Z.of_nat (currentPageIndex d) + 1)%Z ltac:(lia)) as (Hindex & _).
      rewrite H in Hindex. lia.
Qed.

Lemma navigateToPage_within_pages_witness :
  let d := mkDoc [[paragraphWithCaret "A"]; [picture; paragraph "B"]] 0 "special-elite" in
  valid_index d /\
  prevPageClick d = d /\
  Navigation.navigateToPage 7 d = d /\
  currentPageIndex (nextPageClick d) = 1 /\
  findCaretLineInPages (pages (nextPageClick d)) = Some (1, 1) /\
  List.filter caret (concat (pages (nextPageClick d))) = [paragraphWithCaret "B"].
Proof.
  intros d.
  assert (Hvalid : valid_index d) by (unfold valid_index; simpl; lia).
  destruct (navigateToPage_within_pages d Hvalid)
    as (_ & Hout & Hin & Hprev & _).
  destruct (Hin 1%Z ltac:(simpl; lia)) as (Hindex & _ & _ & Hselect).
  destruct (Hselect [picture; paragraph "B"] 1 (paragraph "B") eq_refl eq_refl)
    as [Hfound Hcaret].
  split; [exact Hvalid|]. split; [apply Hprev; reflexivity|].
  split; [apply Hout; simpl; lia|].
  split; [exact Hindex|]. split; [exact Hfound|exact Hcaret].
Defined.

(** X15. Clearing a document that has a page leaves one page made of
    one empty line in the current font, with the first page active and
    the selection in that line, whatever the document held. After it
    the text export is the empty string, the PNG export calls nothing,
    and the overflow check finds nothing to move, whatever the
    layout. *)
Theorem clearAllPages_resets (d : Doc) :
  pages d <> [] ->
  exists d',
    clearAllPages d = Some d' /\
    d' = mkDoc [[mkBlock (LineDiv (Some (state_font d)) []) true]] 0 (state_font d) /\
    findCaretLineInPages (pages d') = Some (0, 0) /\
    getEditorText d' = [] /\
    (forall host, savePNG host d' [] = ([], Some tt)) /\
    (forall offsetHeight, checkPageOverflow offsetHeight d' = (d', false)).
Proof.
  intros Hpages. destruct d as [[|first rest] c font]; [contradiction|].
  eexists. split; [reflexivity|]. cbn [state_font]. split; [reflexivity|].
  split; [reflexivity|]. split; [reflexivity|]. split; [intros host; reflexivity|].
  intros offsetHeight. apply checkPageOverflow_idle. right. simpl. lia.
Qed.

Lemma clearAllPages_resets_witness :
  let d := mkDoc [[paragraph "A"; picture]; [paragraphWithCaret "B"]] 1 "adler" in
  let d' := mkDoc [[mkBlock (LineDiv (Some "adler") []) true]] 0 "adler" in
  pages d <> [] /\
  clearAllPages d = Some d' /\
  findCaretLineInPages (pages d') = Some (0, 0) /\
  getEditorText d' = [].
Proof.
  intros d d'.
  assert (Hpages : pages d <> []) by discriminate.
  destruct (clearAllPages_resets d Hpages) as (d'' & Hclear & -> & Hcaret & Htext & _).
  split; [exact Hpages|]. split; [exact Hclear|]. split; [exact Hcaret|exact Htext].
Defined.
